(** * gifler: decoding and playback of animated GIFs on a canvas

    A shallow embedding of [src/gifler.js] (classes [Decoder] and
    [Animator]) together with the properties of its specification.

    Conventions of the embedding.
    - Quantities that omggif reads from unsigned fields of the GIF file
      (sizes, offsets, delays, disposal codes, loop count) and the counters
      of the animator are [nat]; clock values and delays in milliseconds,
      which the code subtracts from one another, are [Z].  All of them are
      integers far below 2^53, where JavaScript numbers are exact.
    - A method that mutates [this] is a function from [animator] to
      [animator]; a method that can throw or that reads the clock in a loop
      returns an [outcome].
    - The host (timers, animation frames, [document], the ambient canvas)
      is part of the state, with a log of the calls made to it. *)

From Stdlib Require Import ZArith Lia.
From stdpp Require Import base option list strings.

(** ** Exceptions and results *)

Inductive error :=
  | FrameIndexOutOfRange   (* omggif: "Frame index out of range." *)
  | TypeError              (* a property of [undefined] is read *)
  | RangeError             (* TypedArray.prototype.set: source is too large *)
  | IndexSizeError.        (* createImageData with a zero width or height *)

Inductive result (A : Type) :=
  | Ok (a : A)
  | Throw (e : error).
Arguments Ok {A} a.
Arguments Throw {A} e.

#[global] Instance result_ret : MRet result := λ A a, Ok a.
#[global] Instance result_bind : MBind result := λ A B f m,
  match m with
  | Ok a => f a
  | Throw e => Throw e
  end.
#[global] Instance result_fmap : FMap result := λ A B f m,
  match m with
  | Ok a => Ok (f a)
  | Throw e => Throw e
  end.

(** A promise that is already settled; [Promise.all] of an array of plain
    values is fulfilled with an array of the same values in the same order. *)
Inductive promise (A : Type) :=
  | Resolved (v : A)
  | Rejected (e : error).
Arguments Resolved {A} v.
Arguments Rejected {A} e.

Definition Promise_all {A} (values : list A) : promise (list A) :=
  Resolved values.

(** [generateArray]: [[...Array(end).keys()].slice(0)]. *)
Definition generateArray (num : nat) : list nat := drop 0 (seq 0 num).

(** ** The omggif reader, as far as gifler uses it *)

Module Reader.

(** What [reader.frameInfo(i)] returns. *)
Record frameInfo := {
  x : nat;
  y : nat;
  width : nat;
  height : nat;
  delay : nat;
  disposal : nat
}.

(** [loop_count] is the number that [loopCount()] reports; [blit i] lists
    the indexed stores that [decodeAndBlitFrameRGBA] performs on the array
    it is given for frame [i]. *)
Record t := {
  canvas_width : nat;
  canvas_height : nat;
  frames : list frameInfo;
  loop_count : nat;
  blit : nat → list (nat * Z)
}.

Definition numFrames (r : t) : nat := length (frames r).

Definition loopCount (r : t) : nat := loop_count r.

Definition getFrameInfo (r : t) (frame_num : nat) : result frameInfo :=
  match frames r !! frame_num with
  | Some info => Ok info
  | None => Throw FrameIndexOutOfRange
  end.

End Reader.

(** ** Typed arrays *)

(** [new Uint8ClampedArray(n)]: [n] zeros. *)
Definition Uint8ClampedArray (n : nat) : list Z := replicate n 0%Z.

(** A store clamps the value to a byte. *)
Definition clamp (v : Z) : Z := Z.max 0 (Z.min 255 v).

(** [a[i] = v]; a store outside the array is ignored, the length of a typed
    array never changes. *)
Definition typed_store (a : list Z) (w : nat * Z) : list Z :=
  <[w.1 := clamp w.2]> a.

Definition decodeAndBlitFrameRGBA (r : Reader.t) (frame_num : nat)
    (pixels : list Z) : list Z :=
  foldl typed_store pixels (Reader.blit r frame_num).

(** ** Decoded frames *)

(** The off-screen canvas built by [createBufferCanvas]: its own size, the
    [ImageData] put into it and the offset of that [putImageData] call.
    [element] numbers the [document.createElement] call that made it. *)
Record bufferCanvas := {
  element : nat;
  buffer_width : nat;
  buffer_height : nat;
  image_width : nat;
  image_height : nat;
  image_data : list Z;
  image_dx : Z;
  image_dy : Z
}.

Module Frame.

(** A frame descriptor with the two properties gifler attaches to it:
    [pixels] (by [decodeFrame]) and [buffer] (by [onFrame]). *)
Record t := {
  x : nat;
  y : nat;
  width : nat;
  height : nat;
  delay : nat;
  disposal : nat;
  pixels : list Z;
  buffer : option bufferCanvas
}.

Definition set_buffer (b : bufferCanvas) (f : t) : t :=
  {| x := x f; y := y f; width := width f; height := height f;
     delay := delay f; disposal := disposal f; pixels := pixels f;
     buffer := Some b |}.

End Frame.

(** ** class Decoder *)

Definition decodeFrame (reader : Reader.t) (frameIndex : nat) : result Frame.t :=
  frameInfo ← Reader.getFrameInfo reader frameIndex;
  let pixels :=
    Uint8ClampedArray (Reader.canvas_width reader * Reader.canvas_height reader * 4) in
  let pixels := decodeAndBlitFrameRGBA reader frameIndex pixels in
  Ok {| Frame.x := Reader.x frameInfo; Frame.y := Reader.y frameInfo;
        Frame.width := Reader.width frameInfo;
        Frame.height := Reader.height frameInfo;
        Frame.delay := Reader.delay frameInfo;
        Frame.disposal := Reader.disposal frameInfo;
        Frame.pixels := pixels; Frame.buffer := None |}.

Definition decodeFramesSync (reader : Reader.t) : result (list Frame.t) :=
  mapM (decodeFrame reader) (generateArray (Reader.numFrames reader)).

(** The [for] loop of [decodeFramesAsync]: [todo] iterations remain, the
    next one is for index [i]. *)
Fixpoint decode_push (reader : Reader.t) (todo i : nat) (promises : list Frame.t)
    : result (list Frame.t) :=
  match todo with
  | O => Ok promises
  | S todo' =>
      frame ← decodeFrame reader i;
      decode_push reader todo' (S i) (promises ++ [frame])
  end.

Definition decodeFramesAsync (reader : Reader.t) : result (promise (list Frame.t)) :=
  let frameLength := Reader.numFrames reader in
  promises ← decode_push reader (frameLength - 0) 0 [];
  Ok (Promise_all promises).

(** ** The drawing surface

    [CanvasRenderingContext2D] is an interface of the host.  A [surface] is
    the contents of the canvas that [this.ctx] draws on, an [imagedata] is
    what [getImageData] returns; each method maps the contents before the
    call to the contents after it. *)

Class Canvas2D (surface imagedata : Type) := {
  clearRect : nat → nat → nat → nat → surface → surface;
  getImageData : nat → nat → nat → nat → surface → imagedata;
  putImageData : imagedata → nat → nat → surface → surface;
  drawImage : bufferCanvas → nat → nat → surface → surface
}.

(** The page the animator has been attached to by [animateInCanvas]: the
    contents behind [this.ctx], and the size of the canvas that the free
    identifier [canvas] of [onFrame] denotes. *)
Record page (surface : Type) := {
  page_surface : surface;
  page_width : nat;
  page_height : nat
}.
Arguments page_surface {surface} p.
Arguments page_width {surface} p.
Arguments page_height {surface} p.

Section Animator.

Context `{Canvas2D surface imagedata}.

(** Calls made to the host, in the order they are made. *)
Inductive call :=
  | CreateElement
  | ClearRect (x y w h : nat)
  | GetImageData (x y w h : nat)
  | PutImageData (d : imagedata) (x y : nat)
  | DrawImage (b : bufferCanvas) (x y : nat)
  | SetTimeout (ms : Z)
  | RequestAnimationFrame
  | Uncaught (e : error).

(** The two closures that [onFrame] stores in [this.disposeFrame]. *)
Inductive disposer :=
  | ClearCanvas
  | PutSaved (saved : imagedata).

(** The fields of the [Animator] object, then the state of the host.
    [_lastTime] and [_delayCompensation] are assigned by [start] and read
    only while [_running], which only [start] sets; [disposeFrame = None]
    stands for [undefined] and [null].  [skipped] is a ghost counter of
    the [continue] branch of [_enqueueNextFrame]. *)
Record animator := {
  _frames : list Frame.t;
  width : nat;
  height : nat;
  _loopCount : nat;
  _loops : nat;
  _frameIndex : nat;
  _running : bool;
  _lastTime : Z;
  _delayCompensation : Z;
  disposeFrame : option disposer;
  ctx : surface;
  canvas_width : nat;
  canvas_height : nat;
  timeouts : nat;
  frame_requests : nat;
  elements : nat;
  calls : list call;
  skipped : nat
}.

Definition set_frames (v : list Frame.t) (a : animator) : animator :=
  {| _frames := v; width := width a; height := height a;
     _loopCount := _loopCount a; _loops := _loops a;
     _frameIndex := _frameIndex a; _running := _running a;
     _lastTime := _lastTime a; _delayCompensation := _delayCompensation a;
     disposeFrame := disposeFrame a; ctx := ctx a;
     canvas_width := canvas_width a; canvas_height := canvas_height a;
     timeouts := timeouts a; frame_requests := frame_requests a;
     elements := elements a; calls := calls a; skipped := skipped a |}.

Definition set_loops (v : nat) (a : animator) : animator :=
  {| _frames := _frames a; width := width a; height := height a;
     _loopCount := _loopCount a; _loops := v;
     _frameIndex := _frameIndex a; _running := _running a;
     _lastTime := _lastTime a; _delayCompensation := _delayCompensation a;
     disposeFrame := disposeFrame a; ctx := ctx a;
     canvas_width := canvas_width a; canvas_height := canvas_height a;
     timeouts := timeouts a; frame_requests := frame_requests a;
     elements := elements a; calls := calls a; skipped := skipped a |}.

Definition set_frameIndex (v : nat) (a : animator) : animator :=
  {| _frames := _frames a; width := width a; height := height a;
     _loopCount := _loopCount a; _loops := _loops a;
     _frameIndex := v; _running := _running a;
     _lastTime := _lastTime a; _delayCompensation := _delayCompensation a;
     disposeFrame := disposeFrame a; ctx := ctx a;
     canvas_width := canvas_width a; canvas_height := canvas_height a;
     timeouts := timeouts a; frame_requests := frame_requests a;
     elements := elements a; calls := calls a; skipped := skipped a |}.

Definition set_running (v : bool) (a : animator) : animator :=
  {| _frames := _frames a; width := width a; height := height a;
     _loopCount := _loopCount a; _loops := _loops a;
     _frameIndex := _frameIndex a; _running := v;
     _lastTime := _lastTime a; _delayCompensation := _delayCompensation a;
     disposeFrame := disposeFrame a; ctx := ctx a;
     canvas_width := canvas_width a; canvas_height := canvas_height a;
     timeouts := timeouts a; frame_requests := frame_requests a;
     elements := elements a; calls := calls a; skipped := skipped a |}.

Definition set_lastTime (v : Z) (a : animator) : animator :=
  {| _frames := _frames a; width := width a; height := height a;
     _loopCount := _loopCount a; _loops := _loops a;
     _frameIndex := _frameIndex a; _running := _running a;
     _lastTime := v; _delayCompensation := _delayCompensation a;
     disposeFrame := disposeFrame a; ctx := ctx a;
     canvas_width := canvas_width a; canvas_height := canvas_height a;
     timeouts := timeouts a; frame_requests := frame_requests a;
     elements := elements a; calls := calls a; skipped := skipped a |}.

Definition set_delayCompensation (v : Z) (a : animator) : animator :=
  {| _frames := _frames a; width := width a; height := height a;
     _loopCount := _loopCount a; _loops := _loops a;
     _frameIndex := _frameIndex a; _running := _running a;
     _lastTime := _lastTime a; _delayCompensation := v;
     disposeFrame := disposeFrame a; ctx := ctx a;
     canvas_width := canvas_width a; canvas_height := canvas_height a;
     timeouts := timeouts a; frame_requests := frame_requests a;
     elements := elements a; calls := calls a; skipped := skipped a |}.

Definition set_disposeFrame (v : option disposer) (a : animator) : animator :=
  {| _frames := _frames a; width := width a; height := height a;
     _loopCount := _loopCount a; _loops := _loops a;
     _frameIndex := _frameIndex a; _running := _running a;
     _lastTime := _lastTime a; _delayCompensation := _delayCompensation a;
     disposeFrame := v; ctx := ctx a;
     canvas_width := canvas_width a; canvas_height := canvas_height a;
     timeouts := timeouts a; frame_requests := frame_requests a;
     elements := elements a; calls := calls a; skipped := skipped a |}.

(** A call on [this.ctx]: the contents change and the call is logged. *)
Definition on_ctx (c : call) (v : surface) (a : animator) : animator :=
  {| _frames := _frames a; width := width a; height := height a;
     _loopCount := _loopCount a; _loops := _loops a;
     _frameIndex := _frameIndex a; _running := _running a;
     _lastTime := _lastTime a; _delayCompensation := _delayCompensation a;
     disposeFrame := disposeFrame a; ctx := v;
     canvas_width := canvas_width a; canvas_height := canvas_height a;
     timeouts := timeouts a; frame_requests := frame_requests a;
     elements := elements a; calls := calls a ++ [c]; skipped := skipped a |}.

(** The host's bookkeeping: pending timers, pending animation frames and
    elements created so far, with the call that changes them. *)
Definition on_host (c : list call) (t r e : nat) (a : animator) : animator :=
  {| _frames := _frames a; width := width a; height := height a;
     _loopCount := _loopCount a; _loops := _loops a;
     _frameIndex := _frameIndex a; _running := _running a;
     _lastTime := _lastTime a; _delayCompensation := _delayCompensation a;
     disposeFrame := disposeFrame a; ctx := ctx a;
     canvas_width := canvas_width a; canvas_height := canvas_height a;
     timeouts := t; frame_requests := r;
     elements := e; calls := calls a ++ c; skipped := skipped a |}.

Definition count_skip (a : animator) : animator :=
  {| _frames := _frames a; width := width a; height := height a;
     _loopCount := _loopCount a; _loops := _loops a;
     _frameIndex := _frameIndex a; _running := _running a;
     _lastTime := _lastTime a; _delayCompensation := _delayCompensation a;
     disposeFrame := disposeFrame a; ctx := ctx a;
     canvas_width := canvas_width a; canvas_height := canvas_height a;
     timeouts := timeouts a; frame_requests := frame_requests a;
     elements := elements a; calls := calls a; skipped := S (skipped a) |}.

(** *** Host primitives *)

Definition setTimeout (ms : Z) (a : animator) : animator :=
  on_host [SetTimeout ms] (S (timeouts a)) (frame_requests a) (elements a) a.

Definition requestAnimationFrame (a : animator) : animator :=
  on_host [RequestAnimationFrame] (timeouts a) (S (frame_requests a)) (elements a) a.

Definition createElement (a : animator) : animator :=
  on_host [CreateElement] (timeouts a) (frame_requests a) (S (elements a)) a.

(** What a method leaves behind: it returns, it throws, or (for the loop
    of [_enqueueNextFrame]) the readings of the clock supplied to it are
    used up before the loop ends. *)
Inductive outcome :=
  | Done (a : animator)
  | Threw (e : error) (a : animator)
  | Starved.

(** *** class Animator *)

Definition Animator (_reader : Reader.t) (frames : list Frame.t)
    (p : page surface) : animator :=
  {| _frames := frames;
     width := Reader.canvas_width _reader;
     height := Reader.canvas_height _reader;
     _loopCount := Reader.loopCount _reader;
     _loops := 0;
     _frameIndex := 0;
     _running := false;
     _lastTime := 0;
     _delayCompensation := 0;
     disposeFrame := None;
     ctx := page_surface p;
     canvas_width := page_width p;
     canvas_height := page_height p;
     timeouts := 0; frame_requests := 0; elements := 0; calls := [];
     skipped := 0 |}.

(** [createBufferCanvas(frame, width, height)].  [frame = None] is
    [undefined].  The result is paired with the state after the call:
    the element is created before anything can throw. *)
Definition createBufferCanvas (frame : option Frame.t) (width height : nat)
    (a : animator) : result bufferCanvas * animator :=
  let id := elements a in
  let a := createElement a in
  match frame with
  | None => (Throw TypeError, a)
  | Some frame =>
      if (width =? 0) || (height =? 0) then (Throw IndexSizeError, a)
      else if width * height * 4 <? length (Frame.pixels frame)
      then (Throw RangeError, a)
      else
        let data :=
          Frame.pixels frame ++
          replicate (width * height * 4 - length (Frame.pixels frame)) 0%Z in
        (Ok {| element := id;
               buffer_width := Frame.width frame;
               buffer_height := Frame.height frame;
               image_width := width; image_height := height;
               image_data := data;
               image_dx := - Z.of_nat (Frame.x frame);
               image_dy := - Z.of_nat (Frame.y frame) |}, a)
  end.

Definition start (now : Z) (a : animator) : animator :=
  let a := set_lastTime now a in
  let a := set_delayCompensation 0 a in
  let a := set_running true a in
  setTimeout 0 a.

Definition stop (a : animator) : animator := set_running false a.

Definition reset (a : animator) : animator :=
  let a := set_frameIndex 0 a in
  set_loops 0 a.

Definition running (a : animator) : bool := _running a.

Definition _nextFrame (a : animator) : animator := requestAnimationFrame a.

Definition _advanceFrame (a : animator) : animator :=
  let a := set_frameIndex (_frameIndex a + 1) a in
  if length (_frames a) <=? _frameIndex a then
    if negb (_loopCount a =? 0) && (_loopCount a =? _loops a) then stop a
    else
      let a := set_frameIndex 0 a in
      set_loops (_loops a + 1) a
  else a.

(** The [while] loop of [_enqueueNextFrame]; [clock] holds the values of
    the successive [new Date().valueOf()]. *)
Fixpoint enqueue_loop (clock : list Z) (a : animator) : outcome :=
  if negb (_running a) then Done a
  else
    match clock with
    | [] => Starved
    | now :: clock =>
        let frame := _frames a !! _frameIndex a in
        let delta := (now - _lastTime a)%Z in
        let a := set_lastTime (_lastTime a + delta) a in
        let a := set_delayCompensation (_delayCompensation a + delta) a in
        match frame with
        | None => Threw TypeError a
        | Some frame =>
            let frameDelay := (Z.of_nat (Frame.delay frame) * 10)%Z in
            let actualDelay := (frameDelay - _delayCompensation a)%Z in
            let a :=
              set_delayCompensation (_delayCompensation a - frameDelay) a in
            if (actualDelay <? 0)%Z
            then enqueue_loop clock (count_skip (_advanceFrame a))
            else Done (setTimeout actualDelay a)
        end
    end.

Definition _enqueueNextFrame (clock : list Z) (a : animator) : outcome :=
  enqueue_loop clock (_advanceFrame a).

Definition onDrawFrame (frame : Frame.t) (b : bufferCanvas) (a : animator)
    : animator :=
  on_ctx (DrawImage b (Frame.x frame) (Frame.y frame))
         (drawImage b (Frame.x frame) (Frame.y frame) (ctx a)) a.

(** A call of [this.disposeFrame()]. *)
Definition dispose (d : disposer) (a : animator) : animator :=
  match d with
  | ClearCanvas =>
      on_ctx (ClearRect 0 0 (canvas_width a) (canvas_height a))
             (clearRect 0 0 (canvas_width a) (canvas_height a) (ctx a)) a
  | PutSaved saved =>
      on_ctx (PutImageData saved 0 0) (putImageData saved 0 0 (ctx a)) a
  end.

(** [onFrame(frame, i)], for the frame object at index [i] of [_frames]
    (its only caller passes [this._frames[i]]); the assignment to
    [frame.buffer] updates that object in place. *)
Definition onFrame (i : nat) (a : animator) : outcome :=
  let frame := _frames a !! i in
  match createBufferCanvas frame (width a) (height a) a with
  | (Throw e, a) => Threw e a
  | (Ok b, a) =>
      match frame with
      | None => Threw TypeError a
      | Some frame =>
          let a := set_frames (<[i := Frame.set_buffer b frame]> (_frames a)) a in
          let a :=
            match disposeFrame a with
            | Some d => dispose d a
            | None => a
            end in
          match Frame.disposal frame with
          | 2 =>
              let a := set_disposeFrame (Some ClearCanvas) a in
              Done (onDrawFrame frame b a)
          | 3 =>
              if (canvas_width a =? 0) || (canvas_height a =? 0)
              then Threw IndexSizeError a
              else
                let saved :=
                  getImageData 0 0 (canvas_width a) (canvas_height a) (ctx a) in
                let a :=
                  on_ctx (GetImageData 0 0 (canvas_width a) (canvas_height a))
                         (ctx a) a in
                let a := set_disposeFrame (Some (PutSaved saved)) a in
                Done (onDrawFrame frame b a)
          | _ =>
              let a := set_disposeFrame None a in
              Done (onDrawFrame frame b a)
          end
      end
  end.

Definition _nextFrameRender (clock : list Z) (a : animator) : outcome :=
  if negb (_running a) then Done a
  else
    match onFrame (_frameIndex a) a with
    | Done a => _enqueueNextFrame clock a
    | other => other
    end.

(** *** The host's event loop *)

(** A timer set by [setTimeout] expires: its callback calls [_nextFrame]. *)
Definition fire_timeout (a : animator) : option animator :=
  match timeouts a with
  | O => None
  | S n =>
      Some (_nextFrame (on_host [] n (frame_requests a) (elements a) a))
  end.

(** A requested animation frame arrives: [_nextFrameRender] runs, an
    exception it throws is reported and the page lives on. *)
Definition fire_frame (clock : list Z) (a : animator) : option animator :=
  match frame_requests a with
  | O => None
  | S n =>
      match _nextFrameRender clock (on_host [] (timeouts a) n (elements a) a) with
      | Done a => Some a
      | Threw e a =>
          Some (on_host [Uncaught e] (timeouts a) (frame_requests a) (elements a) a)
      | Starved => None
      end
  end.

(** A render tick: a pending timer expires and the frame it requests is
    rendered. *)
Definition tick (clock : list Z) (a : animator) : option animator :=
  a ← fire_timeout a; fire_frame clock a.

Inductive op :=
  | Start (now : Z)
  | Stop
  | Reset
  | FireTimeout
  | FireFrame (clock : list Z).

Definition exec (o : op) (a : animator) : option animator :=
  match o with
  | Start now => Some (start now a)
  | Stop => Some (stop a)
  | Reset => Some (reset a)
  | FireTimeout => fire_timeout a
  | FireFrame clock => fire_frame clock a
  end.

Fixpoint run (ops : list op) (a : animator) : option animator :=
  match ops with
  | [] => Some a
  | o :: ops => a ← exec o a; run ops a
  end.

Fixpoint run_ticks (clocks : list (list Z)) (a : animator) : option animator :=
  match clocks with
  | [] => Some a
  | clock :: clocks => a ← tick clock a; run_ticks clocks a
  end.

(** *** Observations on the log *)

Definition is_draw (c : call) : bool :=
  match c with DrawImage _ _ _ => true | _ => false end.

Definition is_build (c : call) : bool :=
  match c with CreateElement => true | _ => false end.

Definition is_surface_call (c : call) : bool :=
  match c with
  | ClearRect _ _ _ _ | GetImageData _ _ _ _ | PutImageData _ _ _
  | DrawImage _ _ _ => true
  | _ => false
  end.

Definition draws (a : animator) : nat := length (List.filter is_draw (calls a)).

Definition builds (a : animator) : nat := length (List.filter is_build (calls a)).

Definition surface_calls (a : animator) : list call :=
  List.filter is_surface_call (calls a).

Definition nonnegative_delay (c : call) : Prop :=
  match c with SetTimeout ms => (0 ≤ ms)%Z | _ => True end.

End Animator.

Arguments call : clear implicits.
Arguments disposer : clear implicits.
Arguments animator : clear implicits.
Arguments outcome : clear implicits.

(** What [new Gif(dataPromise)] does with the reader: it decodes every
    frame, then constructs the animator from the frames. *)
Definition Gif `{Canvas2D surface imagedata} (reader : Reader.t) (p : page surface)
    : result (promise (animator surface imagedata)) :=
  frames ← decodeFramesAsync reader;
  match frames with
  | Resolved frames => Ok (Resolved (Animator reader frames p))
  | Rejected e => Ok (Rejected e)
  end.

(** ** A concrete surface and concrete animations

    A canvas kept as a display list: its contents are the layers drawn
    since it was last cleared, an image data is a copy of the list (every
    region the animator passes is the whole canvas). *)

Inductive layer := Layer (b : bufferCanvas) (x y : nat).

#[global] Instance display_list : Canvas2D (list layer) (list layer) := {|
  clearRect _ _ _ _ _ := [];
  getImageData _ _ _ _ s := s;
  putImageData d _ _ _ := d;
  drawImage b x y s := s ++ [Layer b x y]
|}.

Definition blank_page (w h : nat) : page (list layer) :=
  {| page_surface := []; page_width := w; page_height := h |}.

Definition info (x y w h delay disposal : nat) : Reader.frameInfo :=
  {| Reader.x := x; Reader.y := y; Reader.width := w; Reader.height := h;
     Reader.delay := delay; Reader.disposal := disposal |}.

(** A reader of a [w] by [h] image whose decoder stores nothing. *)
Definition reader_of (w h loops : nat) (l : list Reader.frameInfo) : Reader.t :=
  {| Reader.canvas_width := w; Reader.canvas_height := h; Reader.frames := l;
     Reader.loop_count := loops; Reader.blit := λ _, [] |}.


(** ** Vocabulary of the properties *)

Section Vocabulary.

Context `{Canvas2D surface imagedata}.

(** A frame whose buffer canvas can be built for a [w] by [h] image. *)
Definition buildable (w h : nat) (f : Frame.t) : Prop :=
  w ≠ 0 ∧ h ≠ 0 ∧ length (Frame.pixels f) ≤ w * h * 4.

(** The canvas that [createBufferCanvas] returns for such a frame, as the
    [id]-th element of the document. *)
Definition built_buffer (id : nat) (f : Frame.t) (w h : nat) : bufferCanvas :=
  {| element := id;
     buffer_width := Frame.width f; buffer_height := Frame.height f;
     image_width := w; image_height := h;
     image_data :=
       Frame.pixels f ++ replicate (w * h * 4 - length (Frame.pixels f)) 0%Z;
     image_dx := - Z.of_nat (Frame.x f);
     image_dy := - Z.of_nat (Frame.y f) |}.

(** The contents of the surface once a pending disposal has run, and the
    call that runs it. *)
Definition restored (pending : option (disposer imagedata))
    (a : animator surface imagedata) : surface :=
  match pending with
  | Some ClearCanvas => clearRect 0 0 (canvas_width a) (canvas_height a) (ctx a)
  | Some (PutSaved saved) => putImageData saved 0 0 (ctx a)
  | None => ctx a
  end.

Definition restore_calls (pending : option (disposer imagedata))
    (a : animator surface imagedata) : list (call imagedata) :=
  match pending with
  | Some ClearCanvas => [ClearRect 0 0 (canvas_width a) (canvas_height a)]
  | Some (PutSaved saved) => [PutImageData saved 0 0]
  | None => []
  end.

(** What a frame leaves pending for the next one when it is drawn on a
    surface with contents [s], and the snapshot call this takes. *)
Definition pending_after (f : Frame.t) (a : animator surface imagedata)
    (s : surface) : option (disposer imagedata) :=
  match Frame.disposal f with
  | 2 => Some ClearCanvas
  | 3 => Some (PutSaved (getImageData 0 0 (canvas_width a) (canvas_height a) s))
  | _ => None
  end.

Definition snapshot_calls (f : Frame.t) (a : animator surface imagedata)
    : list (call imagedata) :=
  match Frame.disposal f with
  | 3 => [GetImageData 0 0 (canvas_width a) (canvas_height a)]
  | _ => []
  end.

(** Everything of the state that drawing a frame leaves alone. *)
Definition control (a : animator surface imagedata) :=
  (width a, height a, _loopCount a, _loops a, _frameIndex a, _running a,
   _lastTime a, _delayCompensation a, canvas_width a, canvas_height a,
   timeouts a, frame_requests a, skipped a).

(** Rendering the frames at the indices of [l], one [onFrame] each. *)
Fixpoint render (l : list nat) (a : animator surface imagedata)
    : outcome surface imagedata :=
  match l with
  | [] => Done a
  | i :: l =>
      match onFrame i a with
      | Done a => render l a
      | other => other
      end
  end.

(** The delay, in milliseconds, that [_enqueueNextFrame] wants for the
    frame at index [i]. *)
Definition frameDelay (frames : list Frame.t) (i : nat) : Z :=
  match frames !! i with
  | Some frame => (Z.of_nat (Frame.delay frame) * 10)%Z
  | None => 0%Z
  end.

(** The index that follows [i] in an animation of [n] frames. *)
Definition following (n i : nat) : nat := (i + 1) mod n.

(** The sum of the delays wanted for [m] frames in a row, the first of
    them at index [c]; and for the [m] frames that follow index [i]. *)
Fixpoint delays_from (frames : list Frame.t) (c m : nat) : Z :=
  match m with
  | O => 0%Z
  | S m =>
      (frameDelay frames c
       + delays_from frames (following (length frames) c) m)%Z
  end.

Definition delays_after (frames : list Frame.t) (i m : nat) : Z :=
  delays_from frames (following (length frames) i) m.

(** The frame index of an animation of [n] frames with loop count [k] is
    at most [n], and is [n] only in an animation without frames or after
    the stop at the end of the last loop. *)
Definition in_range (n k : nat) (a : animator surface imagedata) : Prop :=
  length (_frames a) = n ∧ _loopCount a = k ∧ _frameIndex a ≤ n
  ∧ (_frameIndex a = n → n = 0 ∨ (k ≠ 0 ∧ _loops a = k)).

(** A running animator of [n] frames and loop count [k] that has rendered
    [t] ticks, none of them late enough to skip a frame, and waits for the
    timer of the next one. *)
Definition playing (n k t : nat) (a : animator surface imagedata) : Prop :=
  length (_frames a) = n ∧ _loopCount a = k
  ∧ Forall (buildable (width a) (height a)) (_frames a)
  ∧ canvas_width a ≠ 0 ∧ canvas_height a ≠ 0
  ∧ _running a = true ∧ _frameIndex a < n
  ∧ t = _loops a * n + _frameIndex a
  ∧ (k = 0 ∨ _loops a ≤ k)
  ∧ timeouts a = 1 ∧ frame_requests a = 0
  ∧ draws a = t.

(** An animator that has stopped after [t] ticks, with nothing pending. *)
Definition finished (n t : nat) (a : animator surface imagedata) : Prop :=
  _running a = false ∧ timeouts a = 0 ∧ frame_requests a = 0
  ∧ draws a = t ∧ _frameIndex a = n.

(** How late a tick is that reads [now] on the clock: the time since the
    previous tick, less the delay that tick asked for. *)
Definition lateness (now : Z) (a : animator surface imagedata) : Z :=
  (_delayCompensation a + (now - _lastTime a))%Z.

(** The clocks of [n] ticks that each fire at the very instant they were
    scheduled for. *)
Fixpoint punctual (n : nat) (a : animator surface imagedata) : list (list Z) :=
  match n with
  | O => []
  | S n =>
      let clock := [(_lastTime a - _delayCompensation a)%Z] in
      clock ::
      match tick clock a with
      | Some a => punctual n a
      | None => []
      end
  end.

End Vocabulary.

(** A 4 by 4 image with one frame that covers the 2 by 2 square at (1,1). *)
Definition small_frame_reader : Reader.t :=
  reader_of 4 4 0 [info 1 1 2 2 10 0].

(** What [decodeFramesSync] returns for a reader. *)
Definition decoded (r : Reader.t) : list Frame.t :=
  match decodeFramesSync r with
  | Ok frames => frames
  | Throw _ => []
  end.

(** The animator of a reader on a blank 4 by 4 canvas. *)
Definition animator_of (r : Reader.t) : animator (list layer) (list layer) :=
  Animator r (decoded r) (blank_page 4 4).

(** The state after a run of ticks, or the state before it when the run
    does not complete. *)
Definition after_ticks (clocks : list (list Z))
    (a : animator (list layer) (list layer)) : animator (list layer) (list layer) :=
  match run_ticks clocks a with
  | Some a' => a'
  | None => a
  end.

(** Three frames with delays 10, 20 and 5, played once more after the
    first pass. *)
Definition three_frames_reader : Reader.t :=
  reader_of 4 4 1 [info 0 0 4 4 10 0; info 1 1 2 2 20 0; info 0 0 4 4 5 0].

(** The same animation when its first tick has been rendered at time 0:
    frame 1 is due at time 200. *)
Definition three_frames_playing : animator (list layer) (list layer) :=
  after_ticks [[0%Z]] (start 0 (animator_of three_frames_reader)).

(** The same animation in its last pass: the ticks of frames 0, 1, 2 and
    0 have been rendered on time, frame 1 is due at time 550 and two
    frames are left to draw. *)
Definition three_frames_last_pass : animator (list layer) (list layer) :=
  after_ticks [[0%Z]; [200%Z]; [250%Z]; [350%Z]]
    (start 0 (animator_of three_frames_reader)).

(** One frame, played once more after the first pass. *)
Definition single_frame_reader : Reader.t :=
  reader_of 4 4 1 [info 0 0 4 4 10 0].

(** One frame, looping for ever. *)
Definition endless_frame_reader : Reader.t :=
  reader_of 4 4 0 [info 0 0 4 4 10 0].

(** Two frames, of which frame 0 restores to previous; frame 1 either
    leaves the canvas alone or restores it to the background. *)
Definition restore_previous_reader : Reader.t :=
  reader_of 4 4 0 [info 0 0 2 2 10 3; info 1 1 2 2 10 0].

Definition restore_then_clear_reader : Reader.t :=
  reader_of 4 4 0 [info 0 0 2 2 10 3; info 1 1 2 2 10 2].

(** Two frames, of which frame 0 restores to the background, after the
    first tick: the clearing of the canvas is pending. *)
Definition clear_pending : animator (list layer) (list layer) :=
  after_ticks [[0%Z]]
    (start 0 (animator_of (reader_of 4 4 0 [info 0 0 4 4 10 2; info 1 1 2 2 10 0]))).

(** The frame at index [i] of an animator. *)
Definition frame_at (a : animator (list layer) (list layer)) (i : nat) : Frame.t :=
  match _frames a !! i with
  | Some f => f
  | None =>
      {| Frame.x := 0; Frame.y := 0; Frame.width := 0; Frame.height := 0;
         Frame.delay := 0; Frame.disposal := 0; Frame.pixels := [];
         Frame.buffer := None |}
  end.

(** An image without frames. *)
Definition empty_reader : Reader.t := reader_of 4 4 0 [].

(** ** Vocabulary of the further properties *)

(** The descriptor a frame carries, and the frame without its buffer. *)
Definition descriptor_of (f : Frame.t) : Reader.frameInfo :=
  {| Reader.x := Frame.x f; Reader.y := Frame.y f;
     Reader.width := Frame.width f; Reader.height := Frame.height f;
     Reader.delay := Frame.delay f; Reader.disposal := Frame.disposal f |}.

Definition without_buffer (f : Frame.t) : Frame.t :=
  {| Frame.x := Frame.x f; Frame.y := Frame.y f;
     Frame.width := Frame.width f; Frame.height := Frame.height f;
     Frame.delay := Frame.delay f; Frame.disposal := Frame.disposal f;
     Frame.pixels := Frame.pixels f; Frame.buffer := None |}.

(** A sample of a [Uint8ClampedArray]. *)
Definition is_byte (v : Z) : Prop := (0 ≤ v ≤ 255)%Z.

Section MoreVocabulary.

Context `{Canvas2D surface imagedata}.

(** The instant the pending tick is meant for: the last reading of the
    clock plus the delay then asked of the timer. *)
Definition due (a : animator surface imagedata) : Z :=
  (_lastTime a - _delayCompensation a)%Z.

(** Timers and animation frames that have not fired yet. *)
Definition pending (a : animator surface imagedata) : nat :=
  timeouts a + frame_requests a.

Definition is_start (o : op) : bool :=
  match o with Start _ => true | _ => false end.

Definition starts (ops : list op) : nat := length (List.filter is_start ops).

(** The running flag as [start] and [stop] command it, from [b] on. *)
Fixpoint commanded (ops : list op) (b : bool) : bool :=
  match ops with
  | [] => b
  | Start _ :: ops => commanded ops true
  | Stop :: ops => commanded ops false
  | _ :: ops => commanded ops b
  end.

Definition no_exception (c : call imagedata) : Prop :=
  match c with Uncaught _ => False | _ => True end.

(** An outcome that satisfies [P] when the method returns and [Q] when it
    throws. *)
Definition satisfies (P Q : animator surface imagedata → Prop)
    (o : outcome surface imagedata) : Prop :=
  match o with
  | Done a => P a
  | Threw _ a => Q a
  | Starved => True
  end.

(** What a [drawImage] call shows: which element, where, with what
    samples. *)
Definition drawing (c : call imagedata) : option (nat * nat * nat * list Z) :=
  match c with
  | DrawImage b x y => Some (element b, x, y, image_data b)
  | _ => None
  end.

Definition drawings (a : animator surface imagedata)
    : list (nat * nat * nat * list Z) :=
  omap drawing (calls a).

(** The drawing of frame [f] through the [id]-th element of the document,
    and the drawings of [t] ticks that take the frames in order. *)
Definition frame_drawing (w h id : nat) (f : Frame.t)
    : nat * nat * nat * list Z :=
  (id, Frame.x f, Frame.y f, image_data (built_buffer id f w h)).

(** An animation of [n] frames that loops for ever, in a state in which
    every frame can be drawn and nothing has been thrown. *)
Definition endless (n : nat) (a : animator surface imagedata) : Prop :=
  length (_frames a) = n ∧ _loopCount a = 0
  ∧ Forall (buildable (width a) (height a)) (_frames a)
  ∧ canvas_width a ≠ 0 ∧ canvas_height a ≠ 0
  ∧ _frameIndex a < n
  ∧ Forall no_exception (calls a).

(** The delays of the frames, in hundredths of a second. *)
Definition delays_of (a : animator surface imagedata) : list nat :=
  Frame.delay <$> _frames a.

Definition drawings_in_order (frames : list Frame.t) (w h t : nat)
    : list (nat * nat * nat * list Z) :=
  omap (λ j, frame_drawing w h j <$> frames !! (j mod length frames)) (seq 0 t).

(** What the disposal method of frame [f] makes of the surface [s1] the
    frame was drawn on, [s0] being the surface the frame found, on a
    canvas of [cw] by [ch]. *)
Definition disposed (f : Frame.t) (cw ch : nat) (s0 s1 : surface) : surface :=
  match Frame.disposal f with
  | 2 => clearRect 0 0 cw ch s1
  | 3 => putImageData (getImageData 0 0 cw ch s0) 0 0 s1
  | _ => s1
  end.

End MoreVocabulary.

(** ** Attaching the animator to a canvas *)

(** The bitmap of a canvas element once its width or height has been
    assigned: the assignment clears it. *)
Class Bitmap (surface : Type) := {
  blank : nat → nat → surface
}.

Definition set_canvas_width `{Bitmap surface} (w : nat) (c : page surface)
    : page surface :=
  {| page_surface := blank w (page_height c);
     page_width := w; page_height := page_height c |}.

Definition set_canvas_height `{Bitmap surface} (h : nat) (c : page surface)
    : page surface :=
  {| page_surface := blank (page_width c) h;
     page_width := page_width c; page_height := h |}.

(** The parameter [canvas] of [animateInCanvas] is the element the
    method is handed.  In [onFrame] the identifier [canvas] is free: it
    denotes a canvas of the page, whose size the state holds in
    [canvas_width] and [canvas_height].  The element handed over is that
    canvas of the page, with its bitmap (so it is when [Gif.animate] and
    [Gif.frames] make the call: they pass that very identifier), or it is
    another element. *)
Inductive handed (surface : Type) :=
  | CanvasOfThePage (bitmap : surface)
  | AnotherCanvas (other : page surface).
Arguments CanvasOfThePage {surface} bitmap.
Arguments AnotherCanvas {surface} other.

Section Attach.

Context `{Canvas2D surface imagedata} `{Bitmap surface}.

(** [this.ctx = ...]. *)
Definition set_ctx (s : surface) (a : animator surface imagedata)
    : animator surface imagedata :=
  {| _frames := _frames a; width := width a; height := height a;
     _loopCount := _loopCount a; _loops := _loops a;
     _frameIndex := _frameIndex a; _running := _running a;
     _lastTime := _lastTime a; _delayCompensation := _delayCompensation a;
     disposeFrame := disposeFrame a; ctx := s;
     canvas_width := canvas_width a; canvas_height := canvas_height a;
     timeouts := timeouts a; frame_requests := frame_requests a;
     elements := elements a; calls := calls a; skipped := skipped a |}.

(** The size of the canvas of the page, when it is that canvas whose
    [width] and [height] are assigned. *)
Definition set_canvas_size (w h : nat) (a : animator surface imagedata)
    : animator surface imagedata :=
  {| _frames := _frames a; width := width a; height := height a;
     _loopCount := _loopCount a; _loops := _loops a;
     _frameIndex := _frameIndex a; _running := _running a;
     _lastTime := _lastTime a; _delayCompensation := _delayCompensation a;
     disposeFrame := disposeFrame a; ctx := ctx a;
     canvas_width := w; canvas_height := h;
     timeouts := timeouts a; frame_requests := frame_requests a;
     elements := elements a; calls := calls a; skipped := skipped a |}.

(** The element that [animateInCanvas] is handed, as the state has it. *)
Definition element_of (canvas : handed surface) (a : animator surface imagedata)
    : page surface :=
  match canvas with
  | CanvasOfThePage bitmap =>
      {| page_surface := bitmap;
         page_width := canvas_width a; page_height := canvas_height a |}
  | AnotherCanvas other => other
  end.

(** [animateInCanvas(canvas, setDimensions)]: the assignments to
    [canvas.width] and [canvas.height] resize the element handed over,
    [this.ctx] is the context of that element; the size that [onFrame]
    reads changes only when the element is the canvas of the page. *)
Definition animateInCanvas (canvas : handed surface) (setDimensions : bool)
    (now : Z) (a : animator surface imagedata) : animator surface imagedata :=
  let target := element_of canvas a in
  let target :=
    if setDimensions
    then set_canvas_height (height a) (set_canvas_width (width a) target)
    else target in
  let a :=
    match canvas with
    | CanvasOfThePage _ =>
        set_canvas_size (page_width target) (page_height target) a
    | AnotherCanvas _ => a
    end in
  let a := set_ctx (page_surface target) a in
  start now a.

End Attach.

#[global] Instance display_list_bitmap : Bitmap (list layer) := {|
  blank _ _ := []
|}.

(** ** class Gif: the canvas to draw on *)

(** What [getCanvasElement] can be given: a string, an object with a
    [tagName] (an element), [null] or [undefined], or any other value. *)
Record domNode := {
  tagName : string;
  nodeId : nat
}.

Inductive selector :=
  | SelectorString (s : string)
  | SelectorElement (e : domNode)
  | SelectorNullish
  | SelectorOther.

(** What [document.querySelector] does with a string. *)
Inductive query :=
  | Found (e : domNode)
  | NotFound
  | InvalidSelector.

Inductive selection_error :=
  | SelectionTypeError       (* [tagName] of [null] or [undefined] is read *)
  | SelectionSyntaxError     (* thrown by [querySelector] *)
  | UnexpectedSelectorType.  (* the [Error] that [getCanvasElement] throws *)

Definition is_canvas (e : domNode) : bool := String.eqb (tagName e) "CANVAS".

Definition getCanvasElement (querySelector : string → query) (sel : selector)
    : domNode + selection_error :=
  match sel with
  | SelectorString s =>
      match querySelector s with
      | InvalidSelector => inr SelectionSyntaxError
      | NotFound => inr SelectionTypeError
      | Found e =>
          if is_canvas e
          then
            match querySelector s with
            | Found e => inl e
            | NotFound => inr SelectionTypeError
            | InvalidSelector => inr SelectionSyntaxError
            end
          else inr UnexpectedSelectorType
      end
  | SelectorElement e =>
      if is_canvas e then inl e else inr UnexpectedSelectorType
  | SelectorNullish => inr SelectionTypeError
  | SelectorOther => inr UnexpectedSelectorType
  end.

(** A page with a canvas and an image. *)
Definition small_document (s : string) : query :=
  if String.eqb s "#stage" then Found {| tagName := "CANVAS"; nodeId := 1 |}
  else if String.eqb s "img" then Found {| tagName := "IMG"; nodeId := 2 |}
  else if String.eqb s "#" then InvalidSelector
  else NotFound.

(** The state after one render tick, or the state before it when the
    clock gives too few readings. *)
Definition after_render (clock : list Z)
    (a : animator (list layer) (list layer)) : animator (list layer) (list layer) :=
  match _nextFrameRender clock a with
  | Done a' | Threw _ a' => a'
  | Starved => a
  end.

(** One frame with delay 0, looping for ever, after [start] at time 0
    and the first timer: the first frame has been requested. *)
Definition zero_delay_reader : Reader.t :=
  reader_of 4 4 0 [info 0 0 4 4 0 0].

Definition zero_delay_requested : animator (list layer) (list layer) :=
  match fire_timeout (start 0 (animator_of zero_delay_reader)) with
  | Some a => a
  | None => animator_of zero_delay_reader
  end.

(** The one-frame animation that has been played to its end. *)
Definition single_frame_finished : animator (list layer) (list layer) :=
  after_ticks [[0%Z]; [100%Z]] (start 0 (animator_of single_frame_reader)).

(** A reader whose decoder stores, for every frame, a value above the
    range of a byte, one below it, and one past the end of the array. *)
Definition noisy_reader : Reader.t :=
  {| Reader.canvas_width := 2; Reader.canvas_height := 2;
     Reader.frames := [info 0 0 2 2 10 0; info 0 0 1 1 7 2];
     Reader.loop_count := 0;
     Reader.blit := λ _, [(0, 300%Z); (1, (-5)%Z); (100, 7%Z); (2, 128%Z)] |}.

(** * Properties *)

(** ** Decoder *)

Lemma typed_store_length (a : list Z) (w : nat * Z) :
  length (typed_store a w) = length a.
Proof. unfold typed_store. apply length_insert. Qed.

Lemma blit_length (r : Reader.t) (i : nat) (pixels : list Z) :
  length (decodeAndBlitFrameRGBA r i pixels) = length pixels.
Proof.
  unfold decodeAndBlitFrameRGBA.
  generalize (Reader.blit r i) as stores. intros stores. revert pixels.
  induction stores as [|w stores IH]; intros pixels; simpl.
  - reflexivity.
  - rewrite IH. apply typed_store_length.
Qed.

Lemma decodeFrame_in_range (r : Reader.t) (i : nat) :
  i < Reader.numFrames r → ∃ f, decodeFrame r i = Ok f.
Proof.
  intros Hi. unfold decodeFrame, Reader.getFrameInfo.
  destruct (lookup_lt_is_Some_2 (Reader.frames r) i Hi) as [fi Hfi].
  rewrite Hfi. simpl. eauto.
Qed.

(** C5, as the code has it: the buffer that [decodeFrame] attaches to a
    frame has one RGBA quadruple per pixel of the whole image
    ([reader.width * reader.height * 4] samples), whatever the extent of
    the frame itself. *)
Theorem decodeFrame_pixels_length (reader : Reader.t) (frameIndex : nat)
    (frame : Frame.t) :
  decodeFrame reader frameIndex = Ok frame →
  length (Frame.pixels frame)
  = Reader.canvas_width reader * Reader.canvas_height reader * 4.
Proof.
  unfold decodeFrame, Reader.getFrameInfo.
  destruct (Reader.frames reader !! frameIndex) as [fi|]; simpl; [|discriminate].
  intros [= <-]. simpl.
  rewrite blit_length. unfold Uint8ClampedArray. apply length_replicate.
Qed.

Lemma decodeFrame_pixels_length_witness :
  ∃ f, decodeFrame small_frame_reader 0 = Ok f ∧ length (Frame.pixels f) = 4 * 4 * 4.
Proof.
  eexists. split; [reflexivity|].
  apply (decodeFrame_pixels_length small_frame_reader 0). reflexivity.
Defined.

(** C5 as stated fails: a 2 by 2 frame of a 4 by 4 image gets 64 samples,
    not 2 * 2 * 4 = 16. *)
Lemma decodeFrame_pixels_not_frame_extent :
  ∃ f, decodeFrame small_frame_reader 0 = Ok f
       ∧ length (Frame.pixels f) = 64
       ∧ Frame.width f * Frame.height f * 4 = 16.
Proof. eexists. split; [reflexivity|]. split; reflexivity. Qed.

Lemma decode_push_mapM (r : Reader.t) (todo i : nat) (acc : list Frame.t) :
  decode_push r todo i acc
  = (λ l, acc ++ l) <$> mapM (decodeFrame r) (seq i todo).
Proof.
  revert i acc. induction todo as [|todo IH]; intros i acc; simpl.
  - by rewrite app_nil_r.
  - destruct (decodeFrame r i) as [f|e]; simpl; [|reflexivity].
    rewrite IH. destruct (mapM (decodeFrame r) (seq (S i) todo)) as [l|e]; simpl.
    + by rewrite <- app_assoc.
    + reflexivity.
Qed.

Lemma mapM_decode_total (r : Reader.t) (todo i : nat) :
  i + todo ≤ Reader.numFrames r →
  ∃ l, mapM (decodeFrame r) (seq i todo) = Ok l
       ∧ Forall2 (λ j f, decodeFrame r j = Ok f) (seq i todo) l.
Proof.
  revert i. induction todo as [|todo IH]; intros i Hi; simpl.
  - exists []. split; [reflexivity | constructor].
  - destruct (decodeFrame_in_range r i) as [f Hf]; [lia|].
    destruct (IH (S i)) as (l & Hl & Hall); [lia|].
    exists (f :: l). rewrite Hf. simpl. rewrite Hl. simpl.
    split; [reflexivity | by constructor].
Qed.

Lemma decodeFramesAsync_fmap (reader : Reader.t) :
  decodeFramesAsync reader = Promise_all <$> decodeFramesSync reader.
Proof.
  unfold decodeFramesAsync, decodeFramesSync, generateArray.
  rewrite Nat.sub_0_r, decode_push_mapM, drop_0.
  by destruct (mapM (decodeFrame reader) (seq 0 (Reader.numFrames reader))).
Qed.

Lemma decodeFramesSync_total (reader : Reader.t) :
  ∃ frames,
    decodeFramesSync reader = Ok frames
    ∧ length frames = Reader.numFrames reader
    ∧ Forall2 (λ i f, decodeFrame reader i = Ok f)
              (seq 0 (Reader.numFrames reader)) frames.
Proof.
  destruct (mapM_decode_total reader (Reader.numFrames reader) 0) as (l & Hl & Hall);
    [lia|].
  exists l. unfold decodeFramesSync, generateArray. rewrite drop_0.
  repeat split; [exact Hl | | exact Hall].
  apply Forall2_length in Hall. by rewrite length_seq in Hall.
Qed.

(** C9: for every reader, [decodeFramesAsync] is fulfilled with exactly the
    array that [decodeFramesSync] returns: both hold, at each index [i],
    the frame [decodeFrame reader i], for all [numFrames] indices in
    increasing order. *)
Theorem decodeFramesAsync_is_Sync (reader : Reader.t) :
  decodeFramesAsync reader = Promise_all <$> decodeFramesSync reader
  ∧ ∃ frames,
      decodeFramesSync reader = Ok frames
      ∧ decodeFramesAsync reader = Ok (Resolved frames)
      ∧ length frames = Reader.numFrames reader
      ∧ Forall2 (λ i f, decodeFrame reader i = Ok f)
                (seq 0 (Reader.numFrames reader)) frames.
Proof.
  split; [apply decodeFramesAsync_fmap|].
  destruct (decodeFramesSync_total reader) as (frames & Hs & Hlen & Hall).
  exists frames. rewrite decodeFramesAsync_fmap, Hs. by repeat split.
Qed.

(** ** Animator: drawing one frame *)

Section AnimatorProperties.

Context `{Canvas2D surface imagedata}.

Implicit Types a : animator surface imagedata.

Lemma createBufferCanvas_Ok a (f : Frame.t) (w h : nat) :
  buildable w h f →
  createBufferCanvas (Some f) w h a
  = (Ok (built_buffer (elements a) f w h), createElement a).
Proof.
  intros (Hw & Hh & Hlen). unfold createBufferCanvas.
  apply Nat.eqb_neq in Hw, Hh. rewrite Hw, Hh. simpl.
  apply Nat.ltb_ge in Hlen. by rewrite Hlen.
Qed.

(** A frame that can be built and snapshot is drawn, and this is all that
    [onFrame] does with it. *)
Lemma onFrame_Done (i : nat) a (f : Frame.t) :
  _frames a !! i = Some f →
  buildable (width a) (height a) f →
  (Frame.disposal f = 3 → canvas_width a ≠ 0 ∧ canvas_height a ≠ 0) →
  ∃ a',
    onFrame i a = Done a'
    ∧ let b := built_buffer (elements a) f (width a) (height a) in
      let s := restored (disposeFrame a) a in
      _frames a' = <[i := Frame.set_buffer b f]> (_frames a)
      ∧ ctx a' = drawImage b (Frame.x f) (Frame.y f) s
      ∧ disposeFrame a' = pending_after f a s
      ∧ calls a'
        = calls a ++ [CreateElement] ++ restore_calls (disposeFrame a) a
          ++ snapshot_calls f a ++ [DrawImage b (Frame.x f) (Frame.y f)]
      ∧ elements a' = S (elements a)
      ∧ control a' = control a.
Proof.
  intros Hf Hb Hdims. unfold onFrame. rewrite Hf.
  rewrite (createBufferCanvas_Ok _ _ _ _ Hb).
  unfold pending_after, snapshot_calls.
  destruct (Frame.disposal f) as [|[|[|[|n]]]] eqn:Hd;
    try (destruct (Hdims eq_refl) as [Hcw Hch];
         apply Nat.eqb_neq in Hcw, Hch);
    destruct (disposeFrame a) as [[|saved]|] eqn:Hp; simpl;
    rewrite ?Hp; simpl; rewrite ?Hcw, ?Hch; simpl;
    (eexists; split; [reflexivity|]); simpl;
    rewrite <- ?app_assoc; simpl; repeat split; reflexivity.
Qed.

(** Whatever [onFrame] does, it leaves the position of the playback, the
    number of frames and the host's queues as they were. *)
Lemma onFrame_control (i : nat) a :
  match onFrame i a with
  | Done a' | Threw _ a' =>
      control a' = control a ∧ length (_frames a') = length (_frames a)
  | Starved => False
  end.
Proof.
  unfold onFrame, createBufferCanvas.
  destruct (_frames a !! i) as [f|]; [|by simpl].
  destruct ((width a =? 0) || (height a =? 0)); [by simpl|].
  destruct (width a * height a * 4 <? length (Frame.pixels f)); [by simpl|].
  destruct (Frame.disposal f) as [|[|[|[|n]]]];
    destruct (disposeFrame a) as [[|saved]|] eqn:Hp; simpl; rewrite ?Hp; simpl;
    try destruct ((canvas_width a =? 0) || (canvas_height a =? 0));
    simpl; by rewrite ?length_insert.
Qed.

(** ** Animator: start, reset and construction *)

(** C4, as the code has it: [start] has no test of the running flag.  From
    every state, running or not, it sets the flag, takes the current time
    as last tick time, zeroes the delay compensation and schedules one more
    zero-delay tick on top of those already pending; it changes nothing
    else. *)
Theorem start_always_restarts (now : Z) a :
  let a' := start now a in
  _running a' = true
  ∧ _lastTime a' = now
  ∧ _delayCompensation a' = 0%Z
  ∧ timeouts a' = S (timeouts a)
  ∧ calls a' = calls a ++ [SetTimeout 0]
  ∧ _frames a' = _frames a
  ∧ _frameIndex a' = _frameIndex a
  ∧ _loops a' = _loops a
  ∧ disposeFrame a' = disposeFrame a
  ∧ ctx a' = ctx a
  ∧ frame_requests a' = frame_requests a
  ∧ width a' = width a
  ∧ height a' = height a
  ∧ _loopCount a' = _loopCount a
  ∧ canvas_width a' = canvas_width a
  ∧ canvas_height a' = canvas_height a
  ∧ elements a' = elements a
  ∧ skipped a' = skipped a.
Proof. simpl. repeat split; reflexivity. Qed.

(** C7, as the code has it: the constructor has no test of the number of
    frames and no way to fail.  For every reader, with or without frames,
    [new Gif] ends with a complete animator that holds exactly the
    [numFrames] decoded frames, at frame 0, with no loop done and not
    running. *)
Theorem Animator_accepts_any_sequence (reader : Reader.t) (p : page surface) :
  ∃ frames,
    decodeFramesSync reader = Ok frames
    ∧ Gif (imagedata := imagedata) reader p
      = Ok (Resolved (Animator reader frames p))
    ∧ _frames (Animator (imagedata := imagedata) reader frames p) = frames
    ∧ length frames = Reader.numFrames reader
    ∧ _frameIndex (Animator (imagedata := imagedata) reader frames p) = 0
    ∧ _loops (Animator (imagedata := imagedata) reader frames p) = 0
    ∧ _running (Animator (imagedata := imagedata) reader frames p) = false.
Proof.
  destruct (decodeFramesSync_total reader) as (frames & Hs & Hlen & _).
  exists frames. unfold Gif. rewrite decodeFramesAsync_fmap, Hs. simpl.
  by repeat split.
Qed.

(** C10: [reset] rewinds the frame index and the loop counter and keeps
    every other field, the pending disposal among them; so when the
    animator is running and a disposal [d] was pending, the next tick first
    runs [d] on the surface and then draws frame 0 on the result. *)
Theorem reset_keeps_pending_disposal a :
  (_frameIndex (reset a) = 0
   ∧ _loops (reset a) = 0
   ∧ _running (reset a) = _running a
   ∧ _lastTime (reset a) = _lastTime a
   ∧ _delayCompensation (reset a) = _delayCompensation a
   ∧ disposeFrame (reset a) = disposeFrame a
   ∧ _frames (reset a) = _frames a
   ∧ ctx (reset a) = ctx a
   ∧ calls (reset a) = calls a
   ∧ timeouts (reset a) = timeouts a
   ∧ frame_requests (reset a) = frame_requests a
   ∧ width (reset a) = width a
   ∧ height (reset a) = height a
   ∧ _loopCount (reset a) = _loopCount a
   ∧ canvas_width (reset a) = canvas_width a
   ∧ canvas_height (reset a) = canvas_height a
   ∧ elements (reset a) = elements a
   ∧ skipped (reset a) = skipped a)
  ∧ ∀ (d : disposer imagedata) (f0 : Frame.t) (clock : list Z),
      disposeFrame a = Some d →
      _running a = true →
      _frames a !! 0 = Some f0 →
      buildable (width a) (height a) f0 →
      (Frame.disposal f0 = 3 → canvas_width a ≠ 0 ∧ canvas_height a ≠ 0) →
      ∃ a1,
        onFrame 0 (reset a) = Done a1
        ∧ _nextFrameRender clock (reset a) = _enqueueNextFrame clock a1
        ∧ let b := built_buffer (elements a) f0 (width a) (height a) in
          ctx a1 = drawImage b (Frame.x f0) (Frame.y f0) (restored (Some d) a)
          ∧ surface_calls a1
            = surface_calls a ++ restore_calls (Some d) a
              ++ snapshot_calls f0 a ++ [DrawImage b (Frame.x f0) (Frame.y f0)].
Proof.
  split; [by repeat split|].
  intros d f0 clock Hd Hrun Hf0 Hb Hdims.
  destruct (onFrame_Done 0 (reset a) f0) as (a1 & Hon & _ & Hctx & _ & Hcalls & _);
    [exact Hf0 | exact Hb | exact Hdims |].
  exists a1. split; [exact Hon|]. split.
  - unfold _nextFrameRender. change (_running (reset a)) with (_running a).
    rewrite Hrun. simpl. change (_frameIndex (set_loops 0 (set_frameIndex 0 a))) with 0.
    change (set_loops 0 (set_frameIndex 0 a)) with (reset a). by rewrite Hon.
  - simpl in Hctx, Hcalls |- *. rewrite Hd in Hctx, Hcalls. split.
    + destruct d; exact Hctx.
    + unfold surface_calls. rewrite Hcalls.
      rewrite !List.filter_app. simpl. f_equal.
      unfold snapshot_calls.
      destruct d; destruct (Frame.disposal f0) as [|[|[|[|n]]]]; reflexivity.
Qed.

(** ** Animator: disposal *)

Lemma control_fields a a' :
  control a' = control a →
  width a' = width a ∧ height a' = height a
  ∧ canvas_width a' = canvas_width a ∧ canvas_height a' = canvas_height a
  ∧ _loopCount a' = _loopCount a ∧ _loops a' = _loops a
  ∧ _frameIndex a' = _frameIndex a ∧ _running a' = _running a
  ∧ _lastTime a' = _lastTime a
  ∧ _delayCompensation a' = _delayCompensation a
  ∧ timeouts a' = timeouts a ∧ frame_requests a' = frame_requests a
  ∧ skipped a' = skipped a.
Proof. unfold control. intros [= -> -> -> -> -> -> -> -> -> -> -> -> ->]. by repeat split. Qed.

Lemma leaves_nothing_pending (f : Frame.t) a (s : surface) :
  Frame.disposal f ≠ 2 → Frame.disposal f ≠ 3 →
  pending_after f a s = None ∧ snapshot_calls f a = [].
Proof.
  unfold pending_after, snapshot_calls.
  destruct (Frame.disposal f) as [|[|[|[|n]]]]; intros; by try congruence.
Qed.

(** C3, as the code has it: for two frames of which frame 0 restores to
    previous and frame 1 leaves nothing pending (its disposal is neither
    2 nor 3), drawing frames 0, 1, 0, 1 on a fresh animator makes exactly
    these calls on the surface: a snapshot then the draw of frame 0, the
    restore of that snapshot then the draw of frame 1, a new snapshot then
    the draw of frame 0, the restore of the new snapshot then the draw of
    frame 1.  Each snapshot is of the contents just before frame 0 is drawn,
    each restore comes just before the draw of the next frame. *)
Theorem restore_to_previous_trace a (f0 f1 : Frame.t) :
  _frames a = [f0; f1] →
  disposeFrame a = None →
  Frame.disposal f0 = 3 →
  Frame.disposal f1 ≠ 2 → Frame.disposal f1 ≠ 3 →
  buildable (width a) (height a) f0 →
  buildable (width a) (height a) f1 →
  canvas_width a ≠ 0 → canvas_height a ≠ 0 →
  let cw := canvas_width a in
  let ch := canvas_height a in
  let b0 := built_buffer (elements a) f0 (width a) (height a) in
  let b1 := built_buffer (1 + elements a) f1 (width a) (height a) in
  let b0' := built_buffer (2 + elements a) f0 (width a) (height a) in
  let b1' := built_buffer (3 + elements a) f1 (width a) (height a) in
  let before0 := ctx a in
  let snap0 := getImageData 0 0 cw ch before0 in
  let after1 :=
    drawImage b1 (Frame.x f1) (Frame.y f1)
      (putImageData snap0 0 0 (drawImage b0 (Frame.x f0) (Frame.y f0) before0)) in
  let snap1 := getImageData 0 0 cw ch after1 in
  ∃ a',
    render [0; 1; 0; 1] a = Done a'
    ∧ surface_calls a'
      = surface_calls a ++
        [GetImageData 0 0 cw ch; DrawImage b0 (Frame.x f0) (Frame.y f0);
         PutImageData snap0 0 0; DrawImage b1 (Frame.x f1) (Frame.y f1);
         GetImageData 0 0 cw ch; DrawImage b0' (Frame.x f0) (Frame.y f0);
         PutImageData snap1 0 0; DrawImage b1' (Frame.x f1) (Frame.y f1)]
    ∧ ctx a'
      = drawImage b1' (Frame.x f1) (Frame.y f1)
          (putImageData snap1 0 0 (drawImage b0' (Frame.x f0) (Frame.y f0) after1)).
Proof.
  intros Hfr Hp Hd0 Hd1 Hd1' Hb0 Hb1 Hcw Hch. simpl.
  (* frame 0 *)
  destruct (onFrame_Done 0 a f0) as (a1 & E1 & Hfr1 & Hctx1 & Hp1 & Hc1 & He1 & Hk1);
    [by rewrite Hfr | exact Hb0 | done |].
  simpl in Hfr1, Hctx1, Hp1, Hc1.
  apply control_fields in Hk1 as (Hw1 & Hh1 & Hcw1 & Hch1 & _).
  rewrite Hp in Hctx1, Hp1, Hc1. rewrite Hfr in Hfr1. simpl in Hfr1, Hctx1, Hc1.
  unfold pending_after in Hp1. unfold snapshot_calls in Hc1.
  rewrite Hd0 in Hp1, Hc1.
  (* frame 1 *)
  destruct (onFrame_Done 1 a1 f1) as (a2 & E2 & Hfr2 & Hctx2 & Hp2 & Hc2 & He2 & Hk2);
    [by rewrite Hfr1 | by rewrite Hw1, Hh1 | done |].
  simpl in Hfr2, Hctx2, Hp2, Hc2.
  apply control_fields in Hk2 as (Hw2 & Hh2 & Hcw2 & Hch2 & _).
  destruct (leaves_nothing_pending f1 a1
              (restored (disposeFrame a1) a1) Hd1 Hd1') as [Hnone Hnosnap].
  rewrite Hnone in Hp2. rewrite Hnosnap in Hc2.
  rewrite Hp1 in Hctx2, Hc2. rewrite Hfr1 in Hfr2. simpl in Hfr2, Hctx2, Hc2.
  (* frame 0 again *)
  destruct (onFrame_Done 0 a2 (Frame.set_buffer (built_buffer (elements a) f0 (width a) (height a)) f0))
    as (a3 & E3 & Hfr3 & Hctx3 & Hp3 & Hc3 & He3 & Hk3);
    [by rewrite Hfr2 | by rewrite Hw2, Hh2, Hw1, Hh1
    | by rewrite Hcw2, Hch2, Hcw1, Hch1 |].
  simpl in Hfr3, Hctx3, Hp3, Hc3.
  apply control_fields in Hk3 as (Hw3 & Hh3 & Hcw3 & Hch3 & _).
  rewrite Hp2 in Hctx3, Hp3, Hc3. rewrite Hfr2 in Hfr3. simpl in Hfr3, Hctx3, Hc3.
  unfold pending_after in Hp3. unfold snapshot_calls in Hc3. simpl in Hp3, Hc3.
  rewrite Hd0 in Hp3, Hc3.
  (* frame 1 again *)
  destruct (onFrame_Done 1 a3 (Frame.set_buffer (built_buffer (elements a1) f1 (width a1) (height a1)) f1))
    as (a4 & E4 & Hfr4 & Hctx4 & Hp4 & Hc4 & He4 & Hk4);
    [by rewrite Hfr3 | by rewrite Hw3, Hh3, Hw2, Hh2, Hw1, Hh1 | done |].
  simpl in Hctx4, Hc4.
  destruct (leaves_nothing_pending
              (Frame.set_buffer (built_buffer (elements a1) f1 (width a1) (height a1)) f1)
              a3 (restored (disposeFrame a3) a3) Hd1 Hd1') as [_ Hnosnap4].
  rewrite Hnosnap4 in Hc4. rewrite Hp3 in Hctx4, Hc4. simpl in Hctx4, Hc4.
  exists a4. split; [by rewrite E1, E2, E3, E4|].
  assert (Hsurf : ∀ l l' : list (call imagedata),
             List.filter is_surface_call (l ++ CreateElement :: l')
             = List.filter is_surface_call l ++ List.filter is_surface_call l').
  { intros l l'. by rewrite List.filter_app. }
  split.
  - unfold surface_calls. rewrite Hc4, Hc3, Hc2, Hc1. simpl.
    rewrite !Hsurf. simpl. rewrite <- !app_assoc. simpl.
    rewrite Hctx2, Hctx1, He3, He2, He1, Hw3, Hh3, Hw2, Hh2, Hw1, Hh1,
      Hcw2, Hch2, Hcw1, Hch1.
    reflexivity.
  - rewrite Hctx4, Hctx3, Hctx2, Hctx1, He3, He2, He1, Hw3, Hh3, Hw2, Hh2,
      Hw1, Hh1, Hcw2, Hch2, Hcw1, Hch1.
    reflexivity.
Qed.

(** ** Animator: advancing *)

(** [_advanceFrame] touches the frame index, the loop counter and the
    running flag, nothing else. *)
Lemma _advanceFrame_frame a :
  let a' := _advanceFrame a in
  _frames a' = _frames a ∧ width a' = width a ∧ height a' = height a
  ∧ _loopCount a' = _loopCount a ∧ _lastTime a' = _lastTime a
  ∧ _delayCompensation a' = _delayCompensation a
  ∧ disposeFrame a' = disposeFrame a ∧ ctx a' = ctx a
  ∧ canvas_width a' = canvas_width a ∧ canvas_height a' = canvas_height a
  ∧ timeouts a' = timeouts a ∧ frame_requests a' = frame_requests a
  ∧ elements a' = elements a ∧ calls a' = calls a ∧ skipped a' = skipped a.
Proof.
  unfold _advanceFrame. simpl.
  destruct (length (_frames a) <=? _frameIndex a + 1);
    [destruct (negb (_loopCount a =? 0) && (_loopCount a =? _loops a))|];
    simpl; by repeat split.
Qed.

Lemma _advanceFrame_skipped a : skipped (_advanceFrame a) = skipped a.
Proof. apply _advanceFrame_frame. Qed.

Lemma _advanceFrame_frames a : _frames (_advanceFrame a) = _frames a.
Proof. apply _advanceFrame_frame. Qed.

(** The three ways [_advanceFrame] moves: to the next frame, to a stop at
    the end of the last loop, or back to frame 0 for one more loop. *)
Lemma _advanceFrame_position a :
  let a' := _advanceFrame a in
  let n := length (_frames a) in
  (S (_frameIndex a) < n
   ∧ _frameIndex a' = S (_frameIndex a) ∧ _loops a' = _loops a
   ∧ _running a' = _running a)
  ∨ (n ≤ S (_frameIndex a) ∧ _loopCount a ≠ 0 ∧ _loopCount a = _loops a
     ∧ _frameIndex a' = S (_frameIndex a) ∧ _loops a' = _loops a
     ∧ _running a' = false)
  ∨ (n ≤ S (_frameIndex a) ∧ (_loopCount a = 0 ∨ _loopCount a ≠ _loops a)
     ∧ _frameIndex a' = 0 ∧ _loops a' = S (_loops a)
     ∧ _running a' = _running a).
Proof.
  unfold _advanceFrame. simpl. rewrite Nat.add_1_r.
  destruct (Nat.leb_spec (length (_frames a)) (S (_frameIndex a))) as [Hle|Hlt].
  - destruct (Nat.eqb_spec (_loopCount a) 0) as [Hz|Hz]; simpl.
    + right. right. rewrite Nat.add_1_r. by repeat split; auto.
    + destruct (Nat.eqb_spec (_loopCount a) (_loops a)) as [He|He]; simpl.
      * right. left. by repeat split.
      * right. right. rewrite Nat.add_1_r. by repeat split; auto.
  - left. by repeat split.
Qed.

(** ** Animator: the loop of [_enqueueNextFrame] *)

(** The loop never lowers the count of skipped frames. *)
Lemma enqueue_loop_skipped (clock : list Z) a :
  match enqueue_loop clock a with
  | Done a' | Threw _ a' => skipped a ≤ skipped a'
  | Starved => True
  end.
Proof.
  revert a. induction clock as [|now clock IH]; intros a; simpl.
  - destruct (_running a); simpl; [exact I | lia].
  - destruct (_running a); simpl; [|lia].
    destruct (_frames a !! _frameIndex a) as [f|]; simpl; [|lia].
    match goal with |- context [Z.ltb ?x 0] => destruct (Z.ltb x 0) end;
      simpl; [|lia].
    match goal with |- context [enqueue_loop clock ?b] =>
      specialize (IH b);
      assert (Hs : skipped b = S (skipped a));
        [simpl; rewrite _advanceFrame_skipped; reflexivity|];
      destruct (enqueue_loop clock b)
    end; simpl in *; lia.
Qed.

(** A loop that ends without skipping a frame made one iteration: it read
    the clock once and set a timer for the delay of the current frame less
    the lateness, which was not negative. *)
Lemma enqueue_loop_on_time (clock : list Z) a a' :
  _running a = true →
  enqueue_loop clock a = Done a' →
  skipped a' = skipped a →
  ∃ now rest f,
    clock = now :: rest
    ∧ _frames a !! _frameIndex a = Some f
    ∧ let late := lateness now a in
      let wanted := (Z.of_nat (Frame.delay f) * 10)%Z in
      (0 ≤ wanted - late)%Z
      ∧ a' = setTimeout (wanted - late)
               (set_delayCompensation (late - wanted)
                 (set_delayCompensation late
                   (set_lastTime (_lastTime a + (now - _lastTime a)) a))).
Proof.
  intros Hrun Hloop Hsk. destruct clock as [|now rest]; simpl in Hloop;
    rewrite Hrun in Hloop; simpl in Hloop; [discriminate|].
  destruct (_frames a !! _frameIndex a) as [f|]; [|discriminate].
  exists now, rest, f. split; [reflexivity|]. split; [reflexivity|].
  unfold lateness. simpl.
  match type of Hloop with context [Z.ltb ?x 0] =>
    destruct (Z.ltb_spec x 0) as [Hneg|Hpos] end.
  - exfalso.
    match type of Hloop with enqueue_loop rest ?b = _ =>
      pose proof (enqueue_loop_skipped rest b) as Hmono;
      rewrite Hloop in Hmono;
      assert (Hs : skipped b = S (skipped a));
        [simpl; rewrite _advanceFrame_skipped; reflexivity|]
    end.
    lia.
  - injection Hloop as <-. split; [lia|reflexivity].
Qed.

(** ** Animator: the range of the frame index *)

Lemma _advanceFrame_in_range (n k : nat) a :
  length (_frames a) = n → _loopCount a = k → _frameIndex a < n →
  in_range n k (_advanceFrame a)
  ∧ (_running (_advanceFrame a) = true → _frameIndex (_advanceFrame a) < n).
Proof.
  intros Hn Hk Hi. unfold in_range.
  destruct (_advanceFrame_frame a) as (Hfr & _ & _ & Hlc & _).
  rewrite Hfr, Hlc, Hn, Hk.
  destruct (_advanceFrame_position a)
    as [(Hlt & -> & -> & ->)|[(Hle & Hnz & Heq & -> & -> & ->)
                             |(Hle & Hcase & -> & -> & ->)]];
    rewrite ?Hn in *.
  - repeat split; intros; lia.
  - repeat split; intros; try lia; try congruence;
      right; split; congruence.
  - repeat split; intros; lia.
Qed.

Lemma enqueue_loop_in_range (n k : nat) (clock : list Z) a :
  in_range n k a → (_running a = true → _frameIndex a < n) →
  match enqueue_loop clock a with
  | Done a' | Threw _ a' => in_range n k a'
  | Starved => True
  end.
Proof.
  revert a. induction clock as [|now clock IH]; intros a Hin Hrun; simpl.
  - by destruct (_running a).
  - destruct (_running a); simpl; [|exact Hin].
    destruct (_frames a !! _frameIndex a) as [f|] eqn:Hf; simpl; [|exact Hin].
    match goal with |- context [Z.ltb ?x 0] => destruct (Z.ltb x 0) end;
      simpl; [|exact Hin].
    destruct Hin as (Hn & Hk & _).
    match goal with |- context [_advanceFrame ?b] =>
      destruct (_advanceFrame_in_range n k b) as [Hin' Hrun'];
        [exact Hn | exact Hk | specialize (Hrun eq_refl); exact Hrun |]
    end.
    apply IH; [exact Hin' | exact Hrun'].
Qed.

Lemma onFrame_Done_lookup (i : nat) a a' :
  onFrame i a = Done a' → i < length (_frames a).
Proof.
  unfold onFrame, createBufferCanvas.
  destruct (_frames a !! i) as [f|] eqn:Hf; [|discriminate].
  intros _. by eapply lookup_lt_Some.
Qed.

Lemma _nextFrameRender_in_range (n k : nat) (clock : list Z) a :
  in_range n k a →
  match _nextFrameRender clock a with
  | Done a' | Threw _ a' => in_range n k a'
  | Starved => True
  end.
Proof.
  intros Hin. unfold _nextFrameRender.
  destruct (_running a); simpl; [|exact Hin].
  pose proof (onFrame_control (_frameIndex a) a) as Hc.
  pose proof (onFrame_Done_lookup (_frameIndex a) a) as Hlt.
  destruct Hin as (Hn & Hk & Hle & Hend).
  destruct (onFrame (_frameIndex a) a) as [a1|e a1|]; [| |done].
  - destruct Hc as [Hc Hlen]. apply control_fields in Hc
      as (_ & _ & _ & _ & Hlc & Hl & Hi & _).
    specialize (Hlt a1 eq_refl). unfold _enqueueNextFrame.
    destruct (_advanceFrame_in_range n k a1) as [Hin' Hrun'];
      [congruence | congruence | lia |].
    by apply enqueue_loop_in_range.
  - destruct Hc as [Hc Hlen]. apply control_fields in Hc
      as (_ & _ & _ & _ & Hlc & Hl & Hi & _).
    unfold in_range. rewrite Hlen, Hlc, Hl, Hi. by repeat split.
Qed.

Lemma exec_in_range (n k : nat) (o : op) a a' :
  in_range n k a → exec o a = Some a' → in_range n k a'.
Proof.
  intros Hin. destruct o as [now| | | |clock]; simpl.
  - intros [= <-]. exact Hin.
  - intros [= <-]. exact Hin.
  - intros [= <-]. destruct Hin as (Hn & Hk & Hle & Hend).
    unfold in_range. simpl. repeat split; try done; try lia;
      intros <-; by left.
  - unfold fire_timeout. destruct (timeouts a); [discriminate|].
    intros [= <-]. exact Hin.
  - unfold fire_frame. destruct (frame_requests a) as [|r]; [discriminate|].
    match goal with |- context [_nextFrameRender clock ?b] =>
      pose proof (_nextFrameRender_in_range n k clock b Hin) as Hr;
      destruct (_nextFrameRender clock b) as [a1|e a1|]
    end; [| |discriminate]; intros [= <-]; exact Hr.
Qed.

Lemma run_in_range (n k : nat) (ops : list op) a a' :
  in_range n k a → run ops a = Some a' → in_range n k a'.
Proof.
  revert a. induction ops as [|o ops IH]; intros a Hin; simpl.
  - by intros [= <-].
  - destruct (exec o a) as [a1|] eqn:He; simpl; [|discriminate].
    apply IH. by eapply exec_in_range.
Qed.

(** C8, as the code has it: after every sequence of [start], [stop],
    [reset], expiring timers and rendered frames, the frame index is at
    most the number N of frames.  It is N itself, one past the last frame,
    only when there are no frames or when the animator has stopped at the
    end of its last loop (the loop counter then equals the non-zero loop
    count); the number of frames never changes. *)
Theorem frameIndex_at_most_length (reader : Reader.t) (frames : list Frame.t)
    (p : page surface) (ops : list op) a :
  run ops (Animator reader frames p) = Some a →
  length (_frames a) = length frames
  ∧ _frameIndex a ≤ length frames
  ∧ (_frameIndex a = length frames →
     frames = [] ∨ (Reader.loopCount reader ≠ 0 ∧ _loops a = Reader.loopCount reader)).
Proof.
  intros Hrun.
  assert (Hin : in_range (length frames) (Reader.loopCount reader)
                  (Animator (imagedata := imagedata) reader frames p)).
  { unfold in_range. simpl. repeat split; try lia; intros <-; by left. }
  destruct (run_in_range _ _ _ _ _ Hin Hrun) as (Hn & Hk & Hle & Hend).
  repeat split; [exact Hn | exact Hle |].
  intros Heq. destruct (Hend Heq) as [Hz|Hstop]; [|by right].
  left. by apply length_zero_iff_nil.
Qed.

(** ** Animator: delays and catching up *)

Lemma frameDelay_nonneg (frames : list Frame.t) (i : nat) :
  (0 ≤ frameDelay frames i)%Z.
Proof. unfold frameDelay. destruct (frames !! i); lia. Qed.

Lemma delays_from_nonneg (frames : list Frame.t) (c m : nat) :
  (0 ≤ delays_from frames c m)%Z.
Proof.
  revert c. induction m as [|m IH]; intros c; simpl; [lia|].
  pose proof (frameDelay_nonneg frames c).
  pose proof (IH (following (length frames) c)). lia.
Qed.

Lemma frameDelay_set_buffer (frames : list Frame.t) (i j : nat)
    (f : Frame.t) (b : bufferCanvas) :
  frames !! i = Some f →
  frameDelay (<[i := Frame.set_buffer b f]> frames) j = frameDelay frames j.
Proof.
  intros Hf. unfold frameDelay. destruct (decide (i = j)) as [<-|Hne].
  - rewrite list_lookup_insert_eq by (by eapply lookup_lt_Some).
    by rewrite Hf.
  - by rewrite list_lookup_insert_ne.
Qed.

Lemma delays_from_set_buffer (frames : list Frame.t) (i c m : nat)
    (f : Frame.t) (b : bufferCanvas) :
  frames !! i = Some f →
  delays_from (<[i := Frame.set_buffer b f]> frames) c m
  = delays_from frames c m.
Proof.
  intros Hf. revert c. induction m as [|m IH]; intros c; simpl; [done|].
  by rewrite length_insert, IH, frameDelay_set_buffer.
Qed.

Lemma following_next (n c : nat) : S c < n → following n c = S c.
Proof. intros. unfold following. rewrite Nat.add_1_r. by apply Nat.mod_small. Qed.

Lemma following_wrap (n c : nat) : S c = n → following n c = 0.
Proof. intros <-. unfold following. rewrite Nat.add_1_r. apply Nat.Div0.mod_same. Qed.

Lemma div_wrap (n x : nat) : n ≠ 0 → (n + x) / n = S (x / n).
Proof.
  intros Hn. replace (n + x) with (1 * n + x) by lia.
  by rewrite Nat.div_add_l.
Qed.

Lemma mod_wrap (n x : nat) : (n + x) mod n = x mod n.
Proof.
  replace (n + x) with (x + 1 * n) by lia. apply Nat.Div0.mod_add.
Qed.

(** An advance that the loop count allows: the animator moves on to the
    following frame and keeps running, with [x] further advances allowed. *)
Lemma _advanceFrame_following (x : nat) a :
  let n := length (_frames a) in
  let c := _frameIndex a in
  let b := _advanceFrame a in
  c < n →
  (_loopCount a = 0 ∨ _loops a + (c + 1 + x) / n ≤ _loopCount a) →
  _running b = _running a
  ∧ _frameIndex b = following n c
  ∧ _frameIndex b < n
  ∧ (_loopCount a = 0 ∨ _loops b + (_frameIndex b + x) / n ≤ _loopCount a)
  ∧ (_frameIndex b + x) mod n = (c + 1 + x) mod n
  ∧ _loops b + (_frameIndex b + x) / n = _loops a + (c + 1 + x) / n.
Proof.
  simpl. intros Hc Hk.
  destruct (_advanceFrame_position a)
    as [(Hlt & -> & -> & ->)|[(Hle & Hnz & Heq & -> & -> & ->)
                             |(Hle & Hcase & -> & -> & ->)]].
  - rewrite following_next by done.
    replace (S (_frameIndex a) + x) with (_frameIndex a + 1 + x) by lia.
    by repeat split.
  - exfalso. destruct Hk as [Hk|Hk]; [done|].
    assert (1 ≤ (_frameIndex a + 1 + x) / length (_frames a)); [|lia].
    apply Nat.div_le_lower_bound; lia.
  - assert (Hn : S (_frameIndex a) = length (_frames a)) by lia.
    rewrite following_wrap by done.
    replace (_frameIndex a + 1 + x) with (length (_frames a) + x) in * by lia.
    rewrite div_wrap in * by lia. rewrite mod_wrap. simpl.
    repeat split; lia.
Qed.

(** One iteration of the loop. *)
Lemma enqueue_loop_cons (now : Z) (clock : list Z) a :
  enqueue_loop (now :: clock) a
  = if negb (_running a) then Done a
    else
      let late := (_delayCompensation a + (now - _lastTime a))%Z in
      let a1 :=
        set_delayCompensation late
          (set_lastTime (_lastTime a + (now - _lastTime a)) a) in
      match _frames a !! _frameIndex a with
      | None => Threw TypeError a1
      | Some frame =>
          let wanted := (Z.of_nat (Frame.delay frame) * 10)%Z in
          if (wanted - late <? 0)%Z
          then enqueue_loop clock
                 (count_skip (_advanceFrame (set_delayCompensation (late - wanted) a1)))
          else Done (setTimeout (wanted - late)
                       (set_delayCompensation (late - wanted) a1))
      end.
Proof. reflexivity. Qed.

Lemma delays_from_S (frames : list Frame.t) (c m : nat) :
  delays_from frames c (S m)
  = (frameDelay frames c + delays_from frames (following (length frames) c) m)%Z.
Proof. reflexivity. Qed.

(** The loop of [_enqueueNextFrame] on the readings [rs] of the clock: it
    passes over [m] frames, from the one at the current index on, when
    the tick is at each of the first [m] readings later than the delays
    of the frames up to the one it looks at, and at the reading after
    them, [t], not later than the delays of these and of the frame after
    them; then it sets one timer. *)
Lemma enqueue_loop_catch_up (m : nat) : ∀ a (rs rest : list Z) (t : Z),
  let n := length (_frames a) in
  let c := _frameIndex a in
  _running a = true →
  c < n →
  (_loopCount a = 0 ∨ _loops a + (c + m) / n ≤ _loopCount a) →
  length rs = S m →
  rs !! m = Some t →
  (∀ j u, j < m → rs !! j = Some u →
          (delays_from (_frames a) c (S j) < lateness u a)%Z) →
  (lateness t a ≤ delays_from (_frames a) c (S m))%Z →
  ∃ a',
    enqueue_loop (rs ++ rest) a = Done a'
    ∧ _frameIndex a' = (c + m) mod n
    ∧ _loops a' = _loops a + (c + m) / n
    ∧ _running a' = true
    ∧ skipped a' = skipped a + m
    ∧ calls a'
      = calls a ++ [SetTimeout (delays_from (_frames a) c (S m) - lateness t a)]
    ∧ timeouts a' = S (timeouts a)
    ∧ _frames a' = _frames a
    ∧ ctx a' = ctx a.
Proof.
  induction m as [|m IH]; intros a rs rest t n c; subst n c;
    intros Hrun Hc Hk Hlen Ht Hlow Hhigh;
    destruct (lookup_lt_is_Some_2 (_frames a) (_frameIndex a) Hc) as [f Hf];
    pose proof (frameDelay_nonneg (_frames a) (_frameIndex a)) as Hfd;
    destruct rs as [|u rs]; try discriminate Hlen;
    unfold lateness in *; rewrite delays_from_S in Hhigh;
    unfold frameDelay in Hhigh at 1; unfold frameDelay in Hfd;
    rewrite Hf in Hhigh, Hfd.
  - destruct rs; [|discriminate Hlen]. injection Ht as ->.
    change ([t] ++ rest) with (t :: rest).
    rewrite enqueue_loop_cons, Hrun, Hf. cbn [negb]. cbv zeta.
    cbn [delays_from] in Hhigh.
    match goal with |- context [Z.ltb ?x 0] =>
      destruct (Z.ltb_spec x 0) as [Hneg|Hpos] end; [lia|].
    eexists. split; [reflexivity|].
    rewrite Nat.add_0_r, Nat.mod_small, Nat.div_small by done.
    cbn [delays_from]. unfold frameDelay at 1. rewrite Hf.
    cbn. rewrite Hrun, Nat.add_0_r.
    repeat split; try lia. do 3 f_equal. lia.
  - change ((u :: rs) ++ rest) with (u :: (rs ++ rest)).
    rewrite enqueue_loop_cons, Hrun, Hf. cbn [negb]. cbv zeta.
    pose proof (Hlow 0 u ltac:(lia) eq_refl) as Hfirst.
    rewrite delays_from_S in Hfirst. cbn [delays_from] in Hfirst.
    unfold frameDelay in Hfirst at 1. rewrite Hf in Hfirst.
    match goal with |- context [Z.ltb ?x 0] =>
      destruct (Z.ltb_spec x 0) as [Hneg|Hpos] end; [|lia].
    match goal with |- context [_advanceFrame ?t] =>
      pose proof (_advanceFrame_following m t) as Hadv;
      pose proof (_advanceFrame_frame t) as Hsame;
      generalize dependent (_advanceFrame t)
    end.
    intros b Hadv Hsame. cbn in Hadv, Hsame.
    destruct Hadv as (Hr & Hi & Hlt & Hk' & Hmod & Hdiv);
      [exact Hc | by replace (_frameIndex a + 1 + m) with (_frameIndex a + S m) by lia |].
    destruct Hsame as (Hfr & _ & _ & Hlc & Hlast & Hdc & _ & Hctx & _ & _
                       & Htm & _ & _ & Hcalls & Hsk).
    set (D := delays_from (_frames a)
                (following (length (_frames a)) (_frameIndex a))) in *.
    destruct (IH (count_skip b) rs rest t) as (a' & Hloop & Hidx & Hloops & Hrun'
                                              & Hskip & Hcalls' & Htm' & Hfr' & Hctx').
    + cbn. congruence.
    + cbn. by rewrite Hfr.
    + cbn. by rewrite Hfr, Hlc.
    + simpl in Hlen. lia.
    + exact Ht.
    + intros j v Hj Hv. specialize (Hlow (S j) v ltac:(lia) Hv).
      rewrite delays_from_S in Hlow. unfold frameDelay in Hlow at 1.
      rewrite Hf in Hlow. fold D in Hlow.
      cbn [_frames _frameIndex _lastTime _delayCompensation count_skip].
      rewrite Hfr, Hi, Hlast, Hdc. fold D. lia.
    + cbn [_frames _frameIndex _lastTime _delayCompensation count_skip].
      rewrite Hfr, Hi, Hlast, Hdc. fold D. lia.
    + exists a'. split; [exact Hloop|]. clear Hloop IH Hlow.
      cbn [_frames _frameIndex _lastTime _delayCompensation _loops skipped
           calls timeouts ctx count_skip] in *.
      rewrite Hfr, Hi, Hlast, Hdc in *. fold D in Hcalls'.
      replace (_frameIndex a + S m) with (_frameIndex a + 1 + m) by lia.
      rewrite Hidx, Hloops, Hskip, Hcalls', Htm', Hfr', Hctx', Hsk, Hcalls, Htm, Hctx.
      repeat split; try congruence; try lia.
      do 3 f_equal. rewrite delays_from_S. unfold frameDelay at 1. rewrite Hf.
      fold D. lia.
Qed.

(** ** Animator: no negative delay is ever scheduled *)

Lemma enqueue_loop_nonneg (clock : list Z) a :
  Forall nonnegative_delay (calls a) →
  match enqueue_loop clock a with
  | Done a' | Threw _ a' => Forall nonnegative_delay (calls a')
  | Starved => True
  end.
Proof.
  revert a. induction clock as [|now clock IH]; intros a Hall; simpl.
  - by destruct (_running a).
  - destruct (_running a); simpl; [|exact Hall].
    destruct (_frames a !! _frameIndex a) as [f|]; simpl; [|exact Hall].
    match goal with |- context [Z.ltb ?x 0] =>
      destruct (Z.ltb_spec x 0) as [Hneg|Hpos] end; simpl.
    + apply IH. simpl.
      match goal with |- context [_advanceFrame ?t] =>
        destruct (_advanceFrame_frame t)
          as (_ & _ & _ & _ & _ & _ & _ & _ & _ & _ & _ & _ & _ & -> & _)
      end.
      exact Hall.
    + apply Forall_app. split; [exact Hall|]. by repeat constructor.
Qed.

Lemma onFrame_nonneg (i : nat) a :
  Forall nonnegative_delay (calls a) →
  match onFrame i a with
  | Done a' | Threw _ a' => Forall nonnegative_delay (calls a')
  | Starved => True
  end.
Proof.
  intros Hall.
  assert (Hc : Forall nonnegative_delay (calls a ++ [CreateElement]))
    by (apply Forall_app; split; [exact Hall | by repeat constructor]).
  unfold onFrame, createBufferCanvas.
  destruct (_frames a !! i) as [f|]; [|by simpl].
  destruct ((width a =? 0) || (height a =? 0)); [by simpl|].
  destruct (width a * height a * 4 <? length (Frame.pixels f)); [by simpl|].
  destruct (Frame.disposal f) as [|[|[|[|n]]]];
    destruct (disposeFrame a) as [[|saved]|] eqn:Hp; simpl; rewrite ?Hp; simpl;
    try destruct ((canvas_width a =? 0) || (canvas_height a =? 0));
    simpl; rewrite ?Forall_app; repeat split; try exact Hall;
    by repeat constructor.
Qed.

Lemma _nextFrameRender_nonneg (clock : list Z) a :
  Forall nonnegative_delay (calls a) →
  match _nextFrameRender clock a with
  | Done a' | Threw _ a' => Forall nonnegative_delay (calls a')
  | Starved => True
  end.
Proof.
  intros Hall. unfold _nextFrameRender.
  destruct (_running a); simpl; [|exact Hall].
  pose proof (onFrame_nonneg (_frameIndex a) a Hall) as Hon.
  destruct (onFrame (_frameIndex a) a) as [a1|e a1|]; [|exact Hon|done].
  unfold _enqueueNextFrame. apply enqueue_loop_nonneg.
  destruct (_advanceFrame_frame a1)
    as (_ & _ & _ & _ & _ & _ & _ & _ & _ & _ & _ & _ & _ & -> & _).
  exact Hon.
Qed.

Lemma exec_nonneg (o : op) a a' :
  Forall nonnegative_delay (calls a) → exec o a = Some a' →
  Forall nonnegative_delay (calls a').
Proof.
  intros Hall. destruct o as [now| | | |clock]; simpl.
  - intros [= <-]. simpl. apply Forall_app. split; [exact Hall|].
    by repeat constructor.
  - by intros [= <-].
  - by intros [= <-].
  - unfold fire_timeout. destruct (timeouts a); [discriminate|].
    intros [= <-]. simpl. rewrite app_nil_r.
    apply Forall_app. split; [exact Hall | by repeat constructor].
  - unfold fire_frame. destruct (frame_requests a) as [|r]; [discriminate|].
    match goal with |- context [_nextFrameRender clock ?b] =>
      pose proof (_nextFrameRender_nonneg clock b) as Hr;
      destruct (_nextFrameRender clock b) as [a1|e a1|]
    end; [| |discriminate]; intros [= <-]; simpl in Hr;
      rewrite app_nil_r in Hr; specialize (Hr Hall); [exact Hr|].
    simpl. apply Forall_app. split; [exact Hr | by repeat constructor].
Qed.

Lemma run_nonneg (ops : list op) a a' :
  Forall nonnegative_delay (calls a) → run ops a = Some a' →
  Forall nonnegative_delay (calls a').
Proof.
  revert a. induction ops as [|o ops IH]; intros a Hall; simpl.
  - by intros [= <-].
  - destruct (exec o a) as [a1|] eqn:He; simpl; [|discriminate].
    apply IH. by eapply exec_nonneg.
Qed.

Lemma onFrame_draws (i : nat) a a' :
  onFrame i a = Done a' → draws a' = S (draws a).
Proof.
  unfold onFrame, createBufferCanvas, draws.
  destruct (_frames a !! i) as [f|]; [|discriminate].
  destruct ((width a =? 0) || (height a =? 0)); [discriminate|].
  destruct (width a * height a * 4 <? length (Frame.pixels f)); [discriminate|].
  destruct (Frame.disposal f) as [|[|[|[|n]]]];
    destruct (disposeFrame a) as [[|saved]|] eqn:Hp; simpl; rewrite ?Hp; simpl;
    try destruct ((canvas_width a =? 0) || (canvas_height a =? 0));
    try discriminate; intros [= <-]; simpl;
    rewrite !List.filter_app, !length_app; simpl; lia.
Qed.

(** C2, as the code has it.  A tick is late, at a reading of the clock, by
    the time from the previous tick to that reading less the delay the
    previous tick scheduled.  A tick of a running animator always draws
    its own frame, at index i; then its loop reads the clock once for
    every frame it looks at.  When the tick is late by more than the
    delays (ten milliseconds per unit) of the next j frames together at
    the j-th reading, for every j from 1 to m, and late by no more than
    the delays of the next m+1 frames at reading m+1, and the loop count
    is not used up within these frames, the tick passes over exactly the
    m frames after i without drawing any of them, schedules one timer
    with the delay that remains at reading m+1, which is not negative,
    and the next tick renders the frame at index (i+1+m) mod N.  (On a
    clock that stands still during the loop the condition is: late by
    more than the delays of the next m frames, and by no more than those
    of the next m+1.)  And in every run each delay passed to [setTimeout]
    is non-negative. *)
Theorem skips_overdue_frames :
  (∀ a (f : Frame.t) (m : nat) (readings rest : list Z) (t : Z),
     let n := length (_frames a) in
     let i := _frameIndex a in
     let b := built_buffer (elements a) f (width a) (height a) in
     let remaining := (delays_after (_frames a) i (S m) - lateness t a)%Z in
     _running a = true →
     _frames a !! i = Some f →
     buildable (width a) (height a) f →
     (Frame.disposal f = 3 → canvas_width a ≠ 0 ∧ canvas_height a ≠ 0) →
     (_loopCount a = 0 ∨ _loops a + (i + 1 + m) / n ≤ _loopCount a) →
     length readings = S m →
     readings !! m = Some t →
     (∀ j u, j < m → readings !! j = Some u →
             (delays_after (_frames a) i (S j) < lateness u a)%Z) →
     (lateness t a ≤ delays_after (_frames a) i (S m))%Z →
     ∃ a',
       _nextFrameRender (readings ++ rest) a = Done a'
       ∧ List.filter is_draw (calls a')
         = List.filter is_draw (calls a) ++ [DrawImage b (Frame.x f) (Frame.y f)]
       ∧ skipped a' = skipped a + m
       ∧ _running a' = true
       ∧ _frameIndex a' = (i + 1 + m) mod n
       ∧ (0 ≤ remaining)%Z
       ∧ last (calls a') = Some (SetTimeout remaining)
       ∧ timeouts a' = S (timeouts a)
       ∧ ∀ clock,
           _nextFrameRender clock a'
           = match onFrame ((i + 1 + m) mod n) a' with
             | Done a'' => _enqueueNextFrame clock a''
             | other => other
             end)
  ∧ (∀ (reader : Reader.t) (frames : list Frame.t) (p : page surface)
       (ops : list op) a,
       run ops (Animator reader frames p) = Some a →
       Forall nonnegative_delay (calls a)).
Proof.
  split.
  - intros a f m readings rest t. simpl.
    intros Hrun Hf Hb Hdims Hk Hlen Ht Hlow Hhigh.
    destruct (onFrame_Done _ a f Hf Hb Hdims)
      as (a1 & E1 & Hfr1 & _ & _ & Hc1 & _ & Hk1).
    simpl in Hfr1, Hc1.
    apply control_fields in Hk1
      as (_ & _ & _ & _ & Hlc1 & Hl1 & Hi1 & Hr1 & Hlast1 & Hdc1 & Htm1 & _ & Hsk1).
    assert (Hlen1 : length (_frames a1) = length (_frames a))
      by (by rewrite Hfr1, length_insert).
    assert (Hi : _frameIndex a < length (_frames a)) by (by eapply lookup_lt_Some).
    destruct (_advanceFrame_following m a1) as (Hr & Hidx & Hlt & Hk' & Hmod & Hdiv);
      [by rewrite Hlen1, Hi1 | by rewrite Hlen1, Hi1, Hlc1, Hl1 |].
    destruct (_advanceFrame_frame a1)
      as (Hfr & _ & _ & Hlc & Hlast & Hdc & _ & _ & _ & _ & Htm & _ & _ & Hcalls & Hsk).
    rewrite Hlen1 in Hidx, Hlt, Hk', Hmod, Hdiv.
    rewrite Hi1 in Hidx, Hmod, Hdiv.
    assert (Hlate : ∀ u, lateness u (_advanceFrame a1) = lateness u a)
      by (intros u; unfold lateness; by rewrite Hlast, Hdc, Hlast1, Hdc1).
    assert (Hdel : ∀ j, delays_from (_frames (_advanceFrame a1))
                          (_frameIndex (_advanceFrame a1)) j
                        = delays_after (_frames a) (_frameIndex a) j).
    { intros j. rewrite Hfr, Hfr1, Hidx. unfold delays_after.
      by apply delays_from_set_buffer. }
    destruct (enqueue_loop_catch_up m (_advanceFrame a1) readings rest t)
      as (a' & Hloop & Hidx' & _ & Hrun' & Hskip & Hcalls' & Htm' & _).
    + by rewrite Hr, Hr1.
    + by rewrite Hfr, Hlen1.
    + rewrite Hfr, Hlen1, Hlc. exact Hk'.
    + exact Hlen.
    + exact Ht.
    + intros j u Hj Hu. rewrite Hdel, Hlate. by apply Hlow.
    + by rewrite Hdel, Hlate.
    + exists a'. rewrite Hdel, Hlate in Hcalls'.
      rewrite Hfr, Hlen1 in Hidx'.
      assert (Hnext : _frameIndex a'
                      = (_frameIndex a + 1 + m) mod length (_frames a))
        by congruence.
      repeat split.
      * unfold _nextFrameRender, _enqueueNextFrame.
        by rewrite Hrun, E1.
      * rewrite Hcalls', Hcalls, Hc1, !List.filter_app. simpl.
        rewrite app_nil_r. f_equal.
        destruct (disposeFrame a) as [[|saved]|];
          unfold snapshot_calls;
          destruct (Frame.disposal f) as [|[|[|[|k]]]]; reflexivity.
      * rewrite Hskip, Hsk. by rewrite Hsk1.
      * exact Hrun'.
      * exact Hnext.
      * lia.
      * rewrite Hcalls'. apply last_snoc.
      * rewrite Htm', Htm. by rewrite Htm1.
      * intros clock. unfold _nextFrameRender. by rewrite Hrun', Hnext.
  - intros reader frames p ops a Hrun.
    eapply run_nonneg; [|exact Hrun]. simpl. constructor.
Qed.

(** ** Animator: playing through the loops *)

Lemma enqueue_loop_no_throw (clock : list Z) a (e : error) a' :
  (_running a = true → _frameIndex a < length (_frames a)) →
  enqueue_loop clock a = Threw e a' → False.
Proof.
  revert a. induction clock as [|now clock IH]; intros a Hrun; simpl.
  - by destruct (_running a).
  - destruct (_running a) eqn:Hr; simpl; [|discriminate].
    destruct (lookup_lt_is_Some_2 (_frames a) (_frameIndex a) (Hrun eq_refl))
      as [f Hf].
    rewrite Hf.
    match goal with |- context [Z.ltb ?x 0] => destruct (Z.ltb x 0) end;
      [|discriminate].
    apply IH. simpl.
    match goal with |- context [_advanceFrame ?t] =>
      destruct (_advanceFrame_in_range (length (_frames a)) (_loopCount a) t)
        as [_ Hlt]; [done | done | exact (Hrun eq_refl) |];
      rewrite (_advanceFrame_frames t)
    end.
    exact Hlt.
Qed.

(** At the instant a tick was scheduled for, the loop skips nothing. *)
Lemma enqueue_loop_punctual a :
  (_running a = true → _frameIndex a < length (_frames a)) →
  ∃ a',
    enqueue_loop [(_lastTime a - _delayCompensation a)%Z] a = Done a'
    ∧ skipped a' = skipped a.
Proof.
  intros Hrun. simpl. destruct (_running a) eqn:Hr; simpl; [|by eexists].
  destruct (lookup_lt_is_Some_2 (_frames a) (_frameIndex a) (Hrun eq_refl))
    as [f Hf].
  rewrite Hf.
  match goal with |- context [Z.ltb ?x 0] =>
    destruct (Z.ltb_spec x 0) as [Hneg|Hpos] end; [lia|].
  by eexists.
Qed.

Lemma tick_skipped (clock : list Z) a a' :
  tick clock a = Some a' → skipped a ≤ skipped a'.
Proof.
  unfold tick, fire_timeout. destruct (timeouts a) as [|tm]; [discriminate|].
  simpl. unfold fire_frame. simpl.
  unfold _nextFrameRender. simpl.
  destruct (_running a); simpl; [|intros [= <-]; simpl; lia].
  match goal with |- context [onFrame ?i ?b] =>
    pose proof (onFrame_control i b) as Hc;
    destruct (onFrame i b) as [a1|e a1|]
  end; [| |done].
  - destruct Hc as [Hc _]. apply control_fields in Hc.
    destruct Hc as (_ & _ & _ & _ & _ & _ & _ & _ & _ & _ & _ & _ & Hsk).
    simpl in Hsk. unfold _enqueueNextFrame.
    pose proof (enqueue_loop_skipped clock (_advanceFrame a1)) as Hm.
    rewrite _advanceFrame_skipped in Hm.
    destruct (enqueue_loop clock (_advanceFrame a1)) as [a2|e a2|];
      [| |discriminate]; intros [= <-]; simpl; lia.
  - destruct Hc as [Hc _]. apply control_fields in Hc.
    destruct Hc as (_ & _ & _ & _ & _ & _ & _ & _ & _ & _ & _ & _ & Hsk).
    simpl in Hsk. intros [= <-]. simpl. lia.
Qed.

Lemma run_ticks_skipped (clocks : list (list Z)) a a' :
  run_ticks clocks a = Some a' → skipped a ≤ skipped a'.
Proof.
  revert a. induction clocks as [|clock clocks IH]; intros a; simpl.
  - intros [= <-]. lia.
  - destruct (tick clock a) as [a1|] eqn:Ht; simpl; [|discriminate].
    intros Hr. apply tick_skipped in Ht. apply IH in Hr. lia.
Qed.

Lemma enqueue_loop_stopped (clock : list Z) a :
  _running a = false → enqueue_loop clock a = Done a.
Proof. intros Hr. destruct clock; simpl; by rewrite Hr. Qed.

(** One tick of a playing animator that skips no frame: the frame is drawn
    and either the animator plays on, one tick further, or this was the
    last frame of the last loop and it has finished. *)
Lemma tick_step (n k t : nat) (clock : list Z) a a' :
  playing n k t a →
  tick clock a = Some a' →
  skipped a' = skipped a →
  (k ≠ 0 ∧ S t = (k + 1) * n ∧ finished n (S t) a')
  ∨ ((k = 0 ∨ S t < (k + 1) * n) ∧ playing n k (S t) a').
Proof.
  intros (Hn & Hk & Hall & Hcw & Hch & Hrun & Hi & Ht & Hloops & Htm & Hrq & Hdraws)
    Htick Hsk.
  unfold tick, fire_timeout in Htick. rewrite Htm in Htick. simpl in Htick.
  unfold fire_frame in Htick. simpl in Htick. rewrite Hrq in Htick.
  simpl in Htick. unfold _nextFrameRender in Htick. simpl in Htick.
  rewrite Hrun in Htick. simpl in Htick.
  match type of Htick with context [onFrame _ ?X] => set (ar := X) in * end.
  assert (Hdr : draws ar = draws a).
  { unfold draws. simpl. rewrite !app_nil_r, List.filter_app. simpl.
    by rewrite app_nil_r. }
  destruct (lookup_lt_is_Some_2 (_frames a) (_frameIndex a)) as [f Hf]; [lia|].
  destruct (onFrame_Done (_frameIndex a) ar f)
    as (a1 & E1 & Hfr1 & _ & _ & _ & _ & Hk1);
    [exact Hf | by eapply (Forall_lookup_1 _ _ _ _ Hall) | done |].
  simpl in Hfr1.
  apply control_fields in Hk1
    as (Hw1 & Hh1 & Hcw1 & Hch1 & Hlc1 & Hl1 & Hi1 & Hr1 & _ & _ & Htm1 & Hrq1 & Hsk1).
  simpl in Hw1, Hh1, Hcw1, Hch1, Hlc1, Hl1, Hi1, Hr1, Htm1, Hrq1, Hsk1.
  pose proof (onFrame_draws _ _ _ E1) as Hd1.
  rewrite E1 in Htick. unfold _enqueueNextFrame in Htick.
  assert (Hlen1 : length (_frames a1) = n) by (by rewrite Hfr1, length_insert).
  assert (Hall1 : Forall (buildable (width a1) (height a1)) (_frames a1)).
  { rewrite Hw1, Hh1, Hfr1. apply Forall_insert; [exact Hall|].
    exact (Forall_lookup_1 _ _ _ _ Hall Hf). }
  destruct (_advanceFrame_frame a1)
    as (Hfr & Hw & Hh & Hlc & _ & _ & _ & _ & Hcw' & Hch' & Htm' & Hrq' & _
        & Hcalls & Hsk').
  destruct (_advanceFrame_in_range n k a1) as [_ Hlt];
    [exact Hlen1 | congruence | lia |].
  destruct (enqueue_loop clock (_advanceFrame a1)) as [a2|e a2|] eqn:Hloop;
    [| |discriminate].
  2:{ exfalso. eapply enqueue_loop_no_throw; [|exact Hloop].
      by rewrite Hfr, Hlen1. }
  injection Htick as ->.
  destruct (_running (_advanceFrame a1)) eqn:Hr.
  - (* still running: exactly one iteration of the loop *)
    destruct (enqueue_loop_on_time _ _ _ Hr Hloop)
      as (now & rest & f' & _ & _ & _ & ->); [congruence|].
    right.
    assert (Hdraws' : draws (_advanceFrame a1) = S t).
    { unfold draws. rewrite Hcalls. fold (draws a1). congruence. }
    destruct (_advanceFrame_position a1)
      as [(Hlt' & Hi' & Hl' & _)|[(_ & _ & _ & _ & _ & Hstop)
                                 |(Hle & Hcase & Hi' & Hl' & _)]];
      [| congruence |].
    + split; [nia|]. unfold playing, draws in *. simpl.
      rewrite List.filter_app, app_nil_r. simpl.
      rewrite Hfr, Hw, Hh, Hlc, Hcw', Hch', Htm', Hrq', Hi', Hl'.
      repeat split; try congruence; try lia; nia.
    + split; [nia|]. unfold playing, draws in *. simpl.
      rewrite List.filter_app, app_nil_r. simpl.
      rewrite Hfr, Hw, Hh, Hlc, Hcw', Hch', Htm', Hrq', Hi', Hl'.
      repeat split; try congruence; try lia; nia.
  - (* stopped by the advance *)
    rewrite (enqueue_loop_stopped _ _ Hr) in Hloop. injection Hloop as <-.
    left.
    destruct (_advanceFrame_position a1)
      as [(_ & _ & _ & Hsame)|[(Hle & Hnz & Heq & Hi' & Hl' & _)
                              |(_ & _ & _ & _ & Hsame)]];
      [congruence | | congruence].
    split; [congruence|]. split; [nia|].
    unfold finished, draws. rewrite Hcalls. fold (draws a1).
    repeat split; try congruence; lia.
Qed.

(** A playing animator whose timer fires on time renders its tick without
    skipping. *)
Lemma tick_punctual (n k t : nat) a :
  playing n k t a →
  ∃ a',
    tick [(_lastTime a - _delayCompensation a)%Z] a = Some a'
    ∧ skipped a' = skipped a.
Proof.
  intros (Hn & Hk & Hall & Hcw & Hch & Hrun & Hi & Ht & Hloops & Htm & Hrq & Hdraws).
  unfold tick, fire_timeout. rewrite Htm. simpl.
  unfold fire_frame. simpl. rewrite Hrq. simpl.
  unfold _nextFrameRender. simpl. rewrite Hrun. simpl.
  match goal with |- context [onFrame _ ?X] => set (ar := X) in * end.
  destruct (lookup_lt_is_Some_2 (_frames a) (_frameIndex a)) as [f Hf]; [lia|].
  destruct (onFrame_Done (_frameIndex a) ar f)
    as (a1 & E1 & Hfr1 & _ & _ & _ & _ & Hk1);
    [exact Hf | by eapply (Forall_lookup_1 _ _ _ _ Hall) | done |].
  simpl in Hfr1.
  apply control_fields in Hk1
    as (_ & _ & _ & _ & Hlc1 & _ & Hi1 & _ & Hlast1 & Hdc1 & _ & _ & Hsk1).
  simpl in Hlc1, Hi1, Hlast1, Hdc1, Hsk1.
  rewrite E1. unfold _enqueueNextFrame.
  assert (Hlen1 : length (_frames a1) = n) by (by rewrite Hfr1, length_insert).
  destruct (_advanceFrame_frame a1)
    as (Hfr & _ & _ & _ & Hlast & Hdc & _ & _ & _ & _ & _ & _ & _ & _ & Hsk').
  destruct (_advanceFrame_in_range n k a1) as [_ Hlt];
    [exact Hlen1 | congruence | lia |].
  destruct (enqueue_loop_punctual (_advanceFrame a1)) as (a' & Hloop & Hsk);
    [by rewrite Hfr, Hlen1|].
  rewrite Hlast, Hdc, Hlast1, Hdc1 in Hloop. rewrite Hloop.
  exists a'. split; [reflexivity | congruence].
Qed.

Lemma playing_not_over (n k t : nat) a :
  playing n k t a → k = 0 ∨ t < (k + 1) * n.
Proof.
  intros (_ & _ & _ & _ & _ & _ & Hi & Ht & Hloops & _).
  destruct Hloops as [Hz|Hle]; [by left | right; nia].
Qed.

Lemma finished_no_tick (n t : nat) (clock : list Z) a :
  finished n t a → tick clock a = None.
Proof. intros (_ & Htm & _). unfold tick, fire_timeout. by rewrite Htm. Qed.

(** Every run of ticks without a skip draws one frame per tick and stops
    with the last frame of the last loop, if there is a last loop. *)
Lemma run_ticks_counts (n k : nat) (clocks : list (list Z)) :
  ∀ (t : nat) a a',
    playing n k t a →
    run_ticks clocks a = Some a' →
    skipped a' = skipped a →
    draws a' = t + length clocks
    ∧ (k = 0 → _running a' = true)
    ∧ (k ≠ 0 →
       t + length clocks ≤ (k + 1) * n
       ∧ (_running a' = true ↔ t + length clocks < (k + 1) * n)
       ∧ (t + length clocks = (k + 1) * n →
          timeouts a' = 0 ∧ frame_requests a' = 0)).
Proof.
  induction clocks as [|clock clocks IH]; intros t a a' Hplay; simpl.
  - intros [= <-] _. pose proof (playing_not_over _ _ _ _ Hplay) as Hover.
    destruct Hplay as (_ & _ & _ & _ & _ & Hrun & _ & _ & _ & _ & _ & Hdraws).
    rewrite Nat.add_0_r. repeat split; try done; try lia.
  - destruct (tick clock a) as [a1|] eqn:Htick; simpl; [|discriminate].
    intros Hrun Hsk.
    pose proof (tick_skipped _ _ _ Htick) as Hm1.
    pose proof (run_ticks_skipped _ _ _ Hrun) as Hm2.
    destruct (tick_step n k t clock a a1 Hplay Htick) as [(Hk & Hend & Hfin)|[Hgo Hplay1]];
      [lia| |].
    + destruct clocks as [|clock' clocks]; simpl in Hrun.
      * injection Hrun as <-.
        destruct Hfin as (Hr & Htm & Hrq & Hd & _). simpl.
        repeat split; try done; try lia. rewrite Hr. done.
      * by rewrite (finished_no_tick _ _ clock' _ Hfin) in Hrun.
    + destruct (IH (S t) a1 a' Hplay1 Hrun) as (Hd & Hz & Hnz); [lia|].
      replace (t + S (length clocks)) with (S t + length clocks) by lia.
      split; [exact Hd|]. split; [exact Hz | exact Hnz].
Qed.

(** The punctual clock gives a run without a skip, of any length that the
    loop count allows. *)
Lemma run_punctual (n k : nat) (j : nat) :
  ∀ (t : nat) a,
    playing n k t a →
    (k = 0 ∨ t + j ≤ (k + 1) * n) →
    ∃ a',
      run_ticks (punctual j a) a = Some a'
      ∧ length (punctual j a) = j
      ∧ skipped a' = skipped a.
Proof.
  induction j as [|j IH]; intros t a Hplay Hroom; simpl.
  - by exists a.
  - destruct (tick_punctual n k t a Hplay) as (a1 & Htick & Hsk).
    rewrite Htick. simpl.
    destruct (tick_step n k t _ a a1 Hplay Htick Hsk)
      as [(Hk & Hend & Hfin)|[Hgo Hplay1]].
    + assert (j = 0) as -> by lia. simpl. by exists a1.
    + destruct (IH (S t) a1 Hplay1) as (a' & Hrun & Hlen & Hsk'); [lia|].
      exists a'. rewrite Hrun, Hlen. repeat split; congruence.
Qed.

(** C1: start an animator of N ≥ 1 frames with loop count k.  In a run of
    ticks in which no frame is skipped, every tick draws one frame.  For
    k > 0 the run has at most (k+1)*N ticks, the animator is running before
    the last of them and stopped after it, with no timer and no animation
    frame left pending, so nothing sets it running again; for k = 0 it is
    running after every tick.  Such runs exist: a clock that reads, at each
    tick, the instant the tick was scheduled for gives one of every length
    up to (k+1)*N, and of every length when k = 0. *)
Theorem loop_termination (reader : Reader.t) (frames : list Frame.t)
    (p : page surface) (now : Z) :
  let n := length frames in
  let k := Reader.loopCount reader in
  let a0 := start now (Animator (imagedata := imagedata) reader frames p) in
  1 ≤ n →
  Forall (buildable (Reader.canvas_width reader) (Reader.canvas_height reader))
         frames →
  page_width p ≠ 0 → page_height p ≠ 0 →
  (∀ (clocks : list (list Z)) a,
     run_ticks clocks a0 = Some a → skipped a = 0 →
     draws a = length clocks
     ∧ (k = 0 → _running a = true)
     ∧ (0 < k →
        length clocks ≤ (k + 1) * n
        ∧ (_running a = true ↔ length clocks < (k + 1) * n)
        ∧ (length clocks = (k + 1) * n →
           _running a = false ∧ timeouts a = 0 ∧ frame_requests a = 0)))
  ∧ (∀ j : nat, k = 0 ∨ j ≤ (k + 1) * n →
     ∃ (clocks : list (list Z)) a,
       length clocks = j ∧ run_ticks clocks a0 = Some a ∧ skipped a = 0).
Proof.
  simpl. intros Hn Hall Hcw Hch.
  set (a0 := start now (Animator (imagedata := imagedata) reader frames p)).
  assert (Hplay : playing (length frames) (Reader.loopCount reader) 0 a0).
  { unfold playing. simpl. repeat split; try done; try lia. }
  split.
  - intros clocks a Hrun Hsk.
    destruct (run_ticks_counts _ _ clocks 0 a0 a Hplay Hrun Hsk)
      as (Hd & Hz & Hnz).
    simpl in Hd, Hnz. repeat split; try done.
    + apply Hnz; lia.
    + apply Hnz; lia.
    + apply Hnz; lia.
    + destruct (Hnz ltac:(lia)) as (_ & Hiff & _).
      destruct (_running a); [|done].
      destruct Hiff as [Hlt _]. specialize (Hlt eq_refl). lia.
    + apply Hnz; lia.
    + apply Hnz; lia.
  - intros j Hj.
    destruct (run_punctual _ _ j 0 a0 Hplay) as (a & Hrun & Hlen & Hsk); [lia|].
    exists (punctual j a0), a. by repeat split.
Qed.

End AnimatorProperties.

(** * The properties on concrete animations *)

Lemma loop_termination_witness :
  let a0 := start 0 (animator_of three_frames_reader) in
  ∃ (clocks : list (list Z)) a,
    length clocks = 6
    ∧ run_ticks clocks a0 = Some a
    ∧ skipped a = 0
    ∧ draws a = 6
    ∧ _running a = false
    ∧ timeouts a = 0.
Proof.
  destruct (loop_termination (surface := list layer) (imagedata := list layer)
              three_frames_reader (decoded three_frames_reader)
              (blank_page 4 4) 0) as [Hruns Hexists].
  - vm_compute. lia.
  - repeat constructor; vm_compute; lia.
  - vm_compute. lia.
  - vm_compute. lia.
  - destruct (Hexists 6) as (clocks & a & Hlen & Hrun & Hsk).
    { right. vm_compute. lia. }
    destruct (Hruns clocks a Hrun Hsk) as (Hd & _ & Hfinite).
    destruct Hfinite as (_ & _ & Hstop); [vm_compute; lia|].
    exists clocks, a. rewrite Hd, Hlen.
    destruct Hstop as (Hr & Htm & _); [rewrite Hlen; reflexivity|].
    by repeat split.
Defined.

(** The tick of frame 1, due at 200, reads 300 and then 302 on the clock:
    it passes over frame 2 (delay 50) and sets the timer of frame 0 to
    150 - 102 = 48. *)
Lemma skips_overdue_frames_witness :
  ∃ a',
    _nextFrameRender ([300; 302]%Z ++ []) three_frames_playing = Done a'
    ∧ skipped a' = skipped three_frames_playing + 1
    ∧ _frameIndex a' = 0
    ∧ last (calls a') = Some (SetTimeout 48)
    ∧ Forall nonnegative_delay (calls three_frames_playing).
Proof.
  destruct (skips_overdue_frames (surface := list layer)
              (imagedata := list layer)) as [Hskip Hnonneg].
  destruct (Hskip three_frames_playing (frame_at three_frames_playing 1)
              1 [300; 302]%Z [] 302%Z)
    as (a' & Hrender & _ & Hsk & _ & Hidx & _ & Hlast & _).
  - vm_compute. reflexivity.
  - vm_compute. reflexivity.
  - repeat split; vm_compute; lia.
  - vm_compute. discriminate.
  - right. vm_compute. lia.
  - reflexivity.
  - reflexivity.
  - intros [|j] u Hj Hu; [|lia]. injection Hu as <-. vm_compute. reflexivity.
  - vm_compute. discriminate.
  - exists a'. repeat split; [exact Hrender | exact Hsk | exact Hidx | exact Hlast |].
    apply (Hnonneg three_frames_reader (decoded three_frames_reader)
             (blank_page 4 4) [Start 0; FireTimeout; FireFrame [0%Z]]).
    vm_compute. reflexivity.
Defined.

(** C2 as stated fails in the last pass of an animation with a loop
    count.  Frame 1 of the second and last pass is due at 550 and its
    tick comes at 810: it is 260 late, which is more than the delays of
    the next two frames (50 + 100) and no more than those of the next
    three (50 + 100 + 200), wherever the clock is read.  Yet the tick
    passes over one frame only, frame 2: the animation is over after it,
    the animator stops with its index past the last frame (not at
    (1+1+2) mod 3 = 1), and no next tick is scheduled. *)
Lemma skips_cut_short_by_loop_count :
  let a := three_frames_last_pass in
  _running a = true
  ∧ _frameIndex a = 1
  ∧ (delays_after (_frames a) 1 2 < lateness 810 a)%Z
  ∧ (lateness 810 a ≤ delays_after (_frames a) 1 3)%Z
  ∧ ∃ a',
      _nextFrameRender [810; 810; 810]%Z a = Done a'
      ∧ draws a' = draws a + 1
      ∧ skipped a' = skipped a + 1
      ∧ _running a' = false
      ∧ _frameIndex a' = 3
      ∧ timeouts a' = timeouts a
      ∧ List.filter (λ c, match c with SetTimeout _ => true | _ => false end)
                    (calls a')
        = List.filter (λ c, match c with SetTimeout _ => true | _ => false end)
                      (calls a).
Proof.
  intros a. split; [vm_compute; reflexivity|]. split; [vm_compute; reflexivity|].
  split; [vm_compute; reflexivity|]. split; [vm_compute; discriminate|].
  eexists. split; [vm_compute; reflexivity|]. by repeat split.
Qed.

(** The count of C2 depends on every reading of the clock, not on the
    lateness at the start of the tick alone.  The tick of frame 1, due at
    200, comes at 350: it is 150 late, more than the delay of the next
    frame (50) and no more than the delays of the next two (150).  On a
    clock that stands at 350 it passes over one frame; on a clock that
    reads 351 the second time it passes over two. *)
Lemma skips_while_the_clock_runs :
  let a := three_frames_playing in
  (delays_after (_frames a) 1 1 < lateness 350 a)%Z
  ∧ (lateness 350 a ≤ delays_after (_frames a) 1 2)%Z
  ∧ (∃ a', _nextFrameRender [350; 350]%Z a = Done a'
           ∧ skipped a' = skipped a + 1 ∧ _frameIndex a' = 0)
  ∧ (∃ a', _nextFrameRender [350; 351; 351]%Z a = Done a'
           ∧ skipped a' = skipped a + 2 ∧ _frameIndex a' = 1).
Proof.
  intros a. split; [vm_compute; reflexivity|]. split; [vm_compute; discriminate|].
  split; eexists; (split; [vm_compute; reflexivity|]); by split.
Qed.

Lemma restore_to_previous_trace_witness :
  ∃ a',
    render [0; 1; 0; 1] (animator_of restore_previous_reader) = Done a'
    ∧ length (surface_calls a') = 8.
Proof.
  destruct (restore_to_previous_trace (animator_of restore_previous_reader)
              (frame_at (animator_of restore_previous_reader) 0)
              (frame_at (animator_of restore_previous_reader) 1))
    as (a' & Hrender & Hcalls & _).
  - vm_compute. reflexivity.
  - vm_compute. reflexivity.
  - vm_compute. reflexivity.
  - vm_compute. discriminate.
  - vm_compute. discriminate.
  - repeat split; vm_compute; lia.
  - repeat split; vm_compute; lia.
  - vm_compute. discriminate.
  - vm_compute. discriminate.
  - exists a'. split; [exact Hrender|]. rewrite Hcalls. vm_compute. reflexivity.
Defined.

(** C3 as stated fails when frame 1 restores to the background: the
    canvas is then cleared before the second snapshot, and nine calls are
    made on the surface, not eight. *)
Lemma restore_to_previous_with_clear :
  ∃ a',
    render [0; 1; 0; 1] (animator_of restore_then_clear_reader) = Done a'
    ∧ Frame.disposal <$> _frames (animator_of restore_then_clear_reader) = [3; 2]
    ∧ length (surface_calls a') = 9
    ∧ surface_calls a' !! 4 = Some (ClearRect 0 0 4 4)
    ∧ surface_calls a' !! 5 = Some (GetImageData 0 0 4 4).
Proof. eexists. split; [vm_compute; reflexivity|]. by repeat split. Qed.

(** C4 as stated fails: a second [start], at time 50, of an animator that
    is running with a delay compensation of -100 and one timer pending
    moves the last tick time, zeroes the compensation and leaves two
    timers pending. *)
Lemma start_while_running :
  ∃ a,
    run [Start 0; FireTimeout; FireFrame [0%Z]] (animator_of single_frame_reader)
    = Some a
    ∧ _running a = true
    ∧ (_lastTime a, _delayCompensation a, timeouts a) = (0%Z, (-100)%Z, 1)
    ∧ start 50 a ≠ a
    ∧ (_lastTime (start 50 a), _delayCompensation (start 50 a), timeouts (start 50 a))
      = (50%Z, 0%Z, 2).
Proof.
  eexists. split; [vm_compute; reflexivity|].
  repeat split. intros Heq. apply (f_equal timeouts) in Heq. discriminate.
Qed.

(** C7 as stated fails: an image without frames yields an animator, with
    no frames, and no error. *)
Lemma Animator_of_no_frames :
  ∃ a : animator (list layer) (list layer),
    decodeFramesSync empty_reader = Ok []
    ∧ Gif empty_reader (blank_page 4 4) = Ok (Resolved a)
    ∧ _frames a = [].
Proof. eexists. split; [reflexivity|]. split; reflexivity. Qed.

Lemma frameIndex_at_most_length_witness :
  ∃ a,
    run [Start 0; FireTimeout; FireFrame [0%Z]; Reset; Stop]
        (animator_of three_frames_reader) = Some a
    ∧ _frameIndex a ≤ 3.
Proof.
  eexists. split; [vm_compute; reflexivity|].
  eapply (frameIndex_at_most_length three_frames_reader
            (decoded three_frames_reader) (blank_page 4 4)
            [Start 0; FireTimeout; FireFrame [0%Z]; Reset; Stop]).
  vm_compute. reflexivity.
Defined.

(** C8 as stated fails: when the one frame of an animation with loop
    count 1 has been drawn twice, the animator has stopped with frame
    index 1, which is the number of frames. *)
Lemma frameIndex_after_last_loop :
  ∃ a,
    run [Start 0; FireTimeout; FireFrame [0%Z]; FireTimeout; FireFrame [100%Z]]
        (animator_of single_frame_reader) = Some a
    ∧ length (_frames a) = 1
    ∧ _running a = false
    ∧ _frameIndex a = 1.
Proof. eexists. split; [vm_compute; reflexivity|]. by repeat split. Qed.

Lemma reset_keeps_pending_disposal_witness :
  disposeFrame (reset clear_pending) = Some ClearCanvas
  ∧ ∃ a1,
      onFrame 0 (reset clear_pending) = Done a1
      ∧ surface_calls a1
        = surface_calls clear_pending
          ++ [ClearRect 0 0 4 4;
              DrawImage (built_buffer 1 (frame_at clear_pending 0) 4 4) 0 0].
Proof.
  destruct (reset_keeps_pending_disposal clear_pending) as [Hfields Hnext].
  split; [vm_compute; reflexivity|].
  destruct (Hnext ClearCanvas (frame_at clear_pending 0) [])
    as (a1 & Hon & _ & _ & Hcalls).
  - vm_compute. reflexivity.
  - vm_compute. reflexivity.
  - vm_compute. reflexivity.
  - repeat split; vm_compute; lia.
  - vm_compute. discriminate.
  - exists a1. split; [exact Hon|]. rewrite Hcalls. vm_compute. reflexivity.
Defined.

(** C6: the code rebuilds the buffer canvas of a frame at every draw.  The
    one frame of an endless animation is drawn at times 0 and 100: after
    the first draw its buffer is element 0 of the document, and the second
    draw, instead of reusing it, creates element 1 and overwrites the
    cached buffer with it. *)
Theorem buffer_built_at_every_draw :
  ∃ a1 a2 f1 f2 b1 b2,
    run_ticks [[0%Z]] (start 0 (animator_of endless_frame_reader)) = Some a1
    ∧ run_ticks [[100%Z]] a1 = Some a2
    ∧ _frames a1 = [f1] ∧ Frame.buffer f1 = Some b1
    ∧ _frames a2 = [f2] ∧ Frame.buffer f2 = Some b2
    ∧ (draws a1, builds a1, element b1) = (1, 1, 0)
    ∧ (draws a2, builds a2, element b2) = (2, 2, 1).
Proof.
  do 6 eexists. split; [vm_compute; reflexivity|].
  split; [vm_compute; reflexivity|]. by repeat split.
Qed.


(** * Further properties *)

(** ** Decoder: what a decoded frame holds *)

Lemma clamp_is_byte (v : Z) : is_byte (clamp v).
Proof. unfold is_byte, clamp. lia. Qed.

Lemma blit_bytes (r : Reader.t) (i : nat) (pixels : list Z) :
  Forall is_byte pixels → Forall is_byte (decodeAndBlitFrameRGBA r i pixels).
Proof.
  unfold decodeAndBlitFrameRGBA.
  generalize (Reader.blit r i) as stores. intros stores. revert pixels.
  induction stores as [|w stores IH]; intros pixels Hall; simpl.
  - exact Hall.
  - apply IH. unfold typed_store. apply Forall_insert; [exact Hall|].
    apply clamp_is_byte.
Qed.

(** A store never reaches a sample it does not aim at. *)
Lemma blit_untouched (r : Reader.t) (i j : nat) (pixels : list Z) :
  (∀ v, (j, v) ∉ Reader.blit r i) →
  decodeAndBlitFrameRGBA r i pixels !! j = pixels !! j.
Proof.
  unfold decodeAndBlitFrameRGBA.
  generalize (Reader.blit r i) as stores. intros stores. revert pixels.
  induction stores as [|[k v] stores IH]; intros pixels Hnot; simpl.
  - reflexivity.
  - rewrite IH.
    + unfold typed_store. simpl. apply list_lookup_insert_ne.
      intros ->. apply (Hnot v). left.
    + intros v' Hin. apply (Hnot v'). by right.
Qed.

Lemma decodeFrame_inv (r : Reader.t) (i : nat) (f : Frame.t) :
  decodeFrame r i = Ok f →
  Reader.frames r !! i = Some (descriptor_of f)
  ∧ Frame.buffer f = None
  ∧ Frame.pixels f
    = decodeAndBlitFrameRGBA r i
        (Uint8ClampedArray (Reader.canvas_width r * Reader.canvas_height r * 4)).
Proof.
  unfold decodeFrame, Reader.getFrameInfo.
  destruct (Reader.frames r !! i) as [d|]; simpl; [|discriminate].
  intros [= <-]. simpl. by destruct d.
Qed.

(** X1: every sample of the pixel buffer of a decoded frame is a byte,
    whatever values the decoder stores, and a sample the decoder stores
    nothing at is 0. *)
Theorem decodeFrame_samples (reader : Reader.t) (frameIndex : nat)
    (frame : Frame.t) :
  decodeFrame reader frameIndex = Ok frame →
  Forall is_byte (Frame.pixels frame)
  ∧ ∀ j : nat,
      j < Reader.canvas_width reader * Reader.canvas_height reader * 4 →
      (∀ v, (j, v) ∉ Reader.blit reader frameIndex) →
      Frame.pixels frame !! j = Some 0%Z.
Proof.
  intros Hdec. destruct (decodeFrame_inv _ _ _ Hdec) as (_ & _ & ->). split.
  - apply blit_bytes. unfold Uint8ClampedArray. apply Forall_replicate.
    unfold is_byte. lia.
  - intros j Hj Hnot. rewrite blit_untouched by exact Hnot.
    unfold Uint8ClampedArray. by apply lookup_replicate_2.
Qed.

Lemma decodeFrame_samples_witness :
  ∃ f,
    decodeFrame noisy_reader 1 = Ok f
    ∧ Frame.pixels f !! 0 = Some 255%Z
    ∧ Frame.pixels f !! 1 = Some 0%Z
    ∧ Forall is_byte (Frame.pixels f)
    ∧ Frame.pixels f !! 3 = Some 0%Z.
Proof.
  eexists. split; [reflexivity|]. split; [reflexivity|]. split; [reflexivity|].
  destruct (decodeFrame_samples noisy_reader 1 _ eq_refl) as [Hbytes Hzero].
  split; [exact Hbytes|]. apply Hzero.
  - vm_compute. lia.
  - intros v Hin. simpl in Hin.
    repeat (apply elem_of_cons in Hin as [[=]|Hin]).
    by apply elem_of_nil in Hin.
Defined.

(** X2: decoding succeeds for every reader and keeps the frames in the
    order of the reader: the i-th decoded frame carries the i-th
    descriptor (offset, extent, delay, disposal), with no buffer attached
    yet. *)
Theorem decodeFramesSync_descriptors (reader : Reader.t) :
  ∃ frames,
    decodeFramesSync reader = Ok frames
    ∧ descriptor_of <$> frames = Reader.frames reader
    ∧ Forall (λ f, Frame.buffer f = None) frames.
Proof.
  destruct (decodeFramesSync_total reader) as (frames & Hs & Hlen & Hall).
  exists frames. split; [exact Hs|]. split.
  - apply list_eq. intros i. rewrite list_lookup_fmap.
    destruct (frames !! i) as [f|] eqn:Hf; simpl.
    + destruct (Forall2_lookup_r _ _ _ _ _ Hall Hf) as (j & Hj & Hdec).
      apply lookup_seq in Hj as [-> _].
      symmetry. apply (decodeFrame_inv _ _ _ Hdec).
    + symmetry. apply lookup_ge_None. apply lookup_ge_None in Hf.
      unfold Reader.numFrames in Hlen. lia.
  - apply Forall_forall. intros f Hin.
    apply list_elem_of_lookup in Hin as [i Hi].
    destruct (Forall2_lookup_r _ _ _ _ _ Hall Hi) as (j & _ & Hdec).
    apply (decodeFrame_inv _ _ _ Hdec).
Qed.

Section MoreAnimatorProperties.

Context `{Canvas2D surface imagedata}.

Implicit Types a : animator surface imagedata.

(** ** From the decoder to the buffer canvas *)

(** X3: for a decoded frame and the size of its image the buffer canvas is
    built whenever the image has a non-zero width and height: it has the
    extent of the frame and holds exactly the decoded samples, to be put at
    minus the offset of the frame; no sample is added or cut.  An image of
    zero width or height makes [createBufferCanvas] throw IndexSizeError.
    Either way one element of the document is created. *)
Theorem createBufferCanvas_of_decoded (reader : Reader.t) (frameIndex : nat)
    (frame : Frame.t) a :
  let w := Reader.canvas_width reader in
  let h := Reader.canvas_height reader in
  decodeFrame reader frameIndex = Ok frame →
  (createBufferCanvas (Some frame) w h a).2 = createElement a
  ∧ (w = 0 ∨ h = 0 →
     (createBufferCanvas (Some frame) w h a).1 = Throw IndexSizeError)
  ∧ (w ≠ 0 → h ≠ 0 →
     ∃ b,
       (createBufferCanvas (Some frame) w h a).1 = Ok b
       ∧ element b = elements a
       ∧ image_data b = Frame.pixels frame
       ∧ (buffer_width b, buffer_height b) = (Frame.width frame, Frame.height frame)
       ∧ (image_width b, image_height b) = (w, h)
       ∧ (image_dx b, image_dy b)
         = ((- Z.of_nat (Frame.x frame))%Z, (- Z.of_nat (Frame.y frame))%Z)).
Proof.
  simpl. intros Hdec.
  assert (Hlen : length (Frame.pixels frame)
                 = Reader.canvas_width reader * Reader.canvas_height reader * 4).
  { destruct (decodeFrame_inv _ _ _ Hdec) as (_ & _ & ->).
    rewrite blit_length. unfold Uint8ClampedArray. apply length_replicate. }
  unfold createBufferCanvas.
  destruct (Nat.eqb_spec (Reader.canvas_width reader) 0) as [Hw|Hw];
    destruct (Nat.eqb_spec (Reader.canvas_height reader) 0) as [Hh|Hh]; simpl;
    try (split; [reflexivity|]; split; [reflexivity | intros; lia]).
  destruct (Nat.ltb_spec (Reader.canvas_width reader * Reader.canvas_height reader * 4)
              (length (Frame.pixels frame))) as [Hlt|Hge]; [lia|].
  simpl. split; [reflexivity|]. split; [intros [?|?]; lia|].
  intros _ _. eexists. split; [reflexivity|]. simpl.
  rewrite <- Hlen, Nat.sub_diag. simpl. rewrite app_nil_r. by repeat split.
Qed.

(** ** The loop of [_enqueueNextFrame], as a rule *)

(** A loop invariant [I] that the skipping branch keeps gives [P] when the
    loop ends, by a timer or because the animator is not running, and [Q]
    when it throws. *)
Lemma enqueue_loop_rule (I P Q : animator surface imagedata → Prop) :
  (∀ a, I a → _running a = false → P a) →
  (∀ (now : Z) a,
     I a → _running a = true →
     let late := (_delayCompensation a + (now - _lastTime a))%Z in
     let a1 :=
       set_delayCompensation late
         (set_lastTime (_lastTime a + (now - _lastTime a)) a) in
     match _frames a !! _frameIndex a with
     | None => Q a1
     | Some frame =>
         let wanted := (Z.of_nat (Frame.delay frame) * 10)%Z in
         ((wanted - late < 0)%Z →
          I (count_skip (_advanceFrame (set_delayCompensation (late - wanted) a1))))
         ∧ ((0 ≤ wanted - late)%Z →
            P (setTimeout (wanted - late)
                 (set_delayCompensation (late - wanted) a1)))
     end) →
  ∀ (clock : list Z) a, I a → satisfies P Q (enqueue_loop clock a).
Proof.
  intros Hexit Hstep clock.
  induction clock as [|now clock IH]; intros a Ha.
  - destruct (_running a) eqn:Hr; simpl; rewrite Hr; simpl; [done|].
    by apply Hexit.
  - rewrite enqueue_loop_cons.
    destruct (_running a) eqn:Hr; cbn [negb]; [|by apply Hexit].
    specialize (Hstep now a Ha Hr). cbv zeta in Hstep |- *.
    destruct (_frames a !! _frameIndex a) as [f|]; [|exact Hstep].
    destruct Hstep as [Hskip Hset].
    match goal with |- context [Z.ltb ?x 0] =>
      destruct (Z.ltb_spec x 0) as [Hneg|Hpos] end.
    + apply IH. by apply Hskip.
    + by apply Hset.
Qed.

(** ** Stopping *)

Lemma tick_not_running (clock : list Z) a a' :
  _running a = false →
  tick clock a = Some a' →
  calls a' = calls a ++ [RequestAnimationFrame]
  ∧ S (timeouts a') = timeouts a
  ∧ frame_requests a' = frame_requests a
  ∧ _running a' = false
  ∧ ctx a' = ctx a ∧ _frames a' = _frames a
  ∧ _frameIndex a' = _frameIndex a ∧ _loops a' = _loops a
  ∧ disposeFrame a' = disposeFrame a ∧ elements a' = elements a.
Proof.
  intros Hrun. unfold tick, fire_timeout.
  destruct (timeouts a) as [|tm]; [discriminate|]. simpl.
  unfold fire_frame. simpl. unfold _nextFrameRender. simpl.
  rewrite Hrun. simpl. intros [= <-]. simpl.
  rewrite !app_nil_r. by repeat split.
Qed.

Lemma run_ticks_not_running (clocks : list (list Z)) :
  ∀ a a',
    _running a = false →
    run_ticks clocks a = Some a' →
    calls a' = calls a ++ replicate (length clocks) RequestAnimationFrame
    ∧ timeouts a' + length clocks = timeouts a
    ∧ frame_requests a' = frame_requests a
    ∧ _running a' = false
    ∧ ctx a' = ctx a ∧ _frames a' = _frames a
    ∧ _frameIndex a' = _frameIndex a ∧ _loops a' = _loops a
    ∧ disposeFrame a' = disposeFrame a ∧ elements a' = elements a.
Proof.
  induction clocks as [|clock clocks IH]; intros a a' Hrun; simpl.
  - intros [= <-]. rewrite app_nil_r. repeat split; try done; lia.
  - destruct (tick clock a) as [a1|] eqn:Htick; simpl; [|discriminate].
    intros Hrest.
    destruct (tick_not_running _ _ _ Hrun Htick)
      as (Hc & Htm & Hrq & Hr & Hctx & Hfr & Hi & Hl & Hd & He).
    destruct (IH a1 a' Hr Hrest)
      as (Hc' & Htm' & Hrq' & Hr' & Hctx' & Hfr' & Hi' & Hl' & Hd' & He').
    rewrite Hc', Hc, <- app_assoc. simpl.
    repeat split; try congruence; lia.
Qed.

(** X4: once [stop] has been called, the ticks still scheduled do nothing
    but request their animation frame: however many of them fire, and
    whatever the clock reads, nothing is drawn, no timer is set, and the
    surface, the frames, the frame index, the loop counter and the pending
    disposal stay as they were; each tick uses up one pending timer. *)
Theorem stop_silences_ticks (clocks : list (list Z)) a a' :
  run_ticks clocks (stop a) = Some a' →
  calls a' = calls a ++ replicate (length clocks) RequestAnimationFrame
  ∧ timeouts a' + length clocks = timeouts a
  ∧ _running a' = false
  ∧ ctx a' = ctx a ∧ _frames a' = _frames a
  ∧ _frameIndex a' = _frameIndex a ∧ _loops a' = _loops a
  ∧ disposeFrame a' = disposeFrame a.
Proof.
  intros Hrun.
  destruct (run_ticks_not_running clocks (stop a) a' eq_refl Hrun)
    as (Hc & Htm & _ & Hr & Hctx & Hfr & Hi & Hl & Hd & _).
  by repeat split.
Qed.

(** ** Pending ticks *)

Lemma enqueue_loop_pending (n : nat) (clock : list Z) a :
  pending a = n →
  satisfies (λ x, pending x ≤ S n) (λ x, pending x ≤ S n) (enqueue_loop clock a).
Proof.
  apply (enqueue_loop_rule (λ x, pending x = n)).
  - intros x Hx _. lia.
  - intros now x Hx _. cbv zeta.
    destruct (_frames x !! _frameIndex x) as [f|]; [|unfold pending in *; simpl; lia].
    split; intros _.
    + unfold pending in *. simpl.
      match goal with |- context [_advanceFrame ?t] =>
        destruct (_advanceFrame_frame t)
          as (_ & _ & _ & _ & _ & _ & _ & _ & _ & _ & -> & -> & _)
      end.
      exact Hx.
    + unfold pending in *. simpl. lia.
Qed.

Lemma _nextFrameRender_pending (clock : list Z) a :
  satisfies (λ x, pending x ≤ S (pending a)) (λ x, pending x ≤ S (pending a))
    (_nextFrameRender clock a).
Proof.
  unfold _nextFrameRender. destruct (_running a); simpl; [|lia].
  pose proof (onFrame_control (_frameIndex a) a) as Hc.
  destruct (onFrame (_frameIndex a) a) as [a1|e a1|]; [| |done].
  - destruct Hc as [Hc _]. apply control_fields in Hc
      as (_ & _ & _ & _ & _ & _ & _ & _ & _ & _ & Htm & Hrq & _).
    unfold _enqueueNextFrame. apply enqueue_loop_pending.
    unfold pending.
    destruct (_advanceFrame_frame a1)
      as (_ & _ & _ & _ & _ & _ & _ & _ & _ & _ & -> & -> & _).
    congruence.
  - destruct Hc as [Hc _]. apply control_fields in Hc
      as (_ & _ & _ & _ & _ & _ & _ & _ & _ & _ & Htm & Hrq & _).
    simpl. unfold pending. lia.
Qed.

Lemma exec_pending (o : op) a a' :
  exec o a = Some a' →
  pending a' ≤ pending a + (if is_start o then 1 else 0).
Proof.
  destruct o as [now| | | |clock]; simpl.
  - intros [= <-]. unfold pending. simpl. lia.
  - intros [= <-]. unfold pending. simpl. lia.
  - intros [= <-]. unfold pending. simpl. lia.
  - unfold fire_timeout. destruct (timeouts a) as [|tm] eqn:Htm; [discriminate|].
    intros [= <-]. unfold pending. simpl. lia.
  - unfold fire_frame. destruct (frame_requests a) as [|rq] eqn:Hrq; [discriminate|].
    match goal with |- context [_nextFrameRender clock ?b] =>
      pose proof (_nextFrameRender_pending clock b) as Hr;
      destruct (_nextFrameRender clock b) as [a1|e a1|]
    end; [| |discriminate]; intros [= <-]; unfold pending in *; simpl in *; lia.
Qed.

Lemma run_pending (ops : list op) :
  ∀ a a', run ops a = Some a' → pending a' ≤ pending a + starts ops.
Proof.
  induction ops as [|o ops IH]; intros a a'; simpl.
  - intros [= <-]. unfold starts. simpl. lia.
  - destruct (exec o a) as [a1|] eqn:He; simpl; [|discriminate].
    intros Hrun. apply IH in Hrun. apply exec_pending in He.
    unfold starts in *. simpl. destruct (is_start o); simpl in *; lia.
Qed.

(** X5: the ticks pending at any time, as timers or as requested animation
    frames, are at most as many as the calls of [start] so far; an
    animator that was started once never has two ticks pending. *)
Theorem pending_at_most_starts (reader : Reader.t) (frames : list Frame.t)
    (p : page surface) (ops : list op) a :
  run ops (Animator reader frames p) = Some a →
  timeouts a + frame_requests a ≤ starts ops.
Proof. intros Hrun. apply run_pending in Hrun. exact Hrun. Qed.

(** ** Starting past the last frame *)

(** X6: an animator whose frame index is not below the number of frames
    (an animation without frames, or one that stopped at the end of its
    last loop and was not reset) cannot be started again: the first tick
    after [start] throws TypeError before anything is drawn, no further
    tick is scheduled, and the animator is left running with its frame
    index unchanged. *)
Theorem start_past_last_frame (now : Z) (clock : list Z) a :
  length (_frames a) ≤ _frameIndex a →
  ∃ a',
    tick clock (start now a) = Some a'
    ∧ calls a'
      = calls a ++ [SetTimeout 0; RequestAnimationFrame; CreateElement;
                    Uncaught TypeError]
    ∧ _running a' = true
    ∧ timeouts a' = timeouts a
    ∧ frame_requests a' = frame_requests a
    ∧ _frameIndex a' = _frameIndex a
    ∧ ctx a' = ctx a.
Proof.
  intros Hle. apply lookup_ge_None in Hle.
  unfold tick, fire_timeout. simpl. unfold fire_frame. simpl.
  unfold _nextFrameRender. simpl. unfold onFrame. simpl. rewrite Hle. simpl.
  eexists. split; [reflexivity|]. simpl. rewrite !app_nil_r, <- !app_assoc.
  by repeat split.
Qed.

(** ** The due time of a tick *)

Lemma _advanceFrame_running_following a :
  _frameIndex a < length (_frames a) →
  _running (_advanceFrame a) = true →
  _frameIndex (_advanceFrame a) = following (length (_frames a)) (_frameIndex a)
  ∧ _frameIndex (_advanceFrame a) < length (_frames a)
  ∧ _running a = true.
Proof.
  intros Hi Hr.
  destruct (_advanceFrame_position a)
    as [(Hlt & Hi' & _ & Hr')|[(_ & _ & _ & _ & _ & Hstop)
                              |(Hle & _ & Hi' & _ & Hr')]].
  - rewrite following_next by done. repeat split; [done | lia | congruence].
  - congruence.
  - rewrite following_wrap by lia. repeat split; [done | lia | congruence].
Qed.

Lemma delays_from_snoc (frames : list Frame.t) (s : nat) :
  ∀ c : nat,
    c < length frames →
    delays_from frames c (S s)
    = (delays_from frames c s
       + frameDelay frames ((c + s) mod length frames))%Z.
Proof.
  induction s as [|s IH]; intros c Hc.
  - cbn [delays_from]. rewrite Nat.add_0_r, Nat.mod_small by done. lia.
  - change (delays_from frames c (S (S s)))
      with (frameDelay frames c
            + delays_from frames (following (length frames) c) (S s))%Z.
    rewrite IH by (unfold following; apply Nat.mod_upper_bound; lia).
    cbn [delays_from].
    assert (Hmod : (following (length frames) c + s) mod length frames
                   = (c + S s) mod length frames).
    { unfold following. rewrite Nat.Div0.add_mod_idemp_l. f_equal. lia. }
    rewrite Hmod. lia.
Qed.

(** The loop adds to the due time the delay of each frame it moves to,
    whatever the clock reads. *)
Lemma enqueue_loop_due (clock : list Z) a :
  let n := length (_frames a) in
  let c := _frameIndex a in
  c < n →
  satisfies
    (λ r,
       _running r = true →
       let s := skipped r - skipped a in
       _frameIndex r = (c + s) mod n
       ∧ due r = (due a + delays_from (_frames a) c (S s))%Z
       ∧ calls r = calls a ++ [SetTimeout (due r - _lastTime r)]
       ∧ (0 ≤ due r - _lastTime r)%Z
       ∧ _frames r = _frames a)
    (λ _, True)
    (enqueue_loop clock a).
Proof.
  intros n c Hc.
  apply (enqueue_loop_rule
           (λ x,
              _frames x = _frames a ∧ skipped a ≤ skipped x
              ∧ calls x = calls a
              ∧ (_running x = true →
                 _frameIndex x = (c + (skipped x - skipped a)) mod n
                 ∧ due x
                   = (due a
                      + delays_from (_frames a) c (skipped x - skipped a))%Z))).
  - intros x _ Hr Hr'. congruence.
  - intros now x (Hfr & Hsk & Hcalls & Hhead) Hr. cbv zeta.
    destruct (Hhead Hr) as [Hidx Hdue]. clear Hhead.
    assert (Hlt : _frameIndex x < n)
      by (rewrite Hidx; apply Nat.mod_upper_bound; lia).
    destruct (_frames x !! _frameIndex x) as [f|] eqn:Hf; [|done].
    assert (Hwanted : frameDelay (_frames a)
                        ((c + (skipped x - skipped a)) mod n)
                      = (Z.of_nat (Frame.delay f) * 10)%Z).
    { unfold frameDelay. by rewrite <- Hidx, <- Hfr, Hf. }
    pose proof (delays_from_snoc (_frames a) (skipped x - skipped a) c Hc)
      as Hsnoc.
    fold n in Hsnoc. rewrite Hwanted in Hsnoc.
    set (D := delays_from (_frames a) c) in *. clearbody D.
    split; intros Hcmp.
    + match goal with |- context [_advanceFrame ?t] =>
        pose proof (_advanceFrame_running_following t) as Hadv;
        pose proof (_advanceFrame_frame t) as Hsame;
        generalize dependent (_advanceFrame t)
      end.
      intros b Hadv Hsame. cbn in Hadv, Hsame.
      destruct Hsame as (Hfrb & _ & _ & _ & Hlast & Hdc & _ & _ & _ & _
                         & _ & _ & _ & Hcallsb & Hskb).
      cbn. rewrite Hfrb, Hskb, Hcallsb.
      split; [exact Hfr|]. split; [lia|]. split; [exact Hcalls|].
      intros Hrb.
      replace (S (skipped x) - skipped a) with (S (skipped x - skipped a))
        by lia.
      split.
      * destruct Hadv as (Hib & _ & _); [by rewrite Hfr | exact Hrb |].
        rewrite Hib, Hfr, Hidx. fold n. unfold following.
        rewrite Nat.Div0.add_mod_idemp_l. f_equal. lia.
      * unfold due in *. cbn. rewrite Hlast, Hdc, Hsnoc. lia.
    + cbn. intros _. unfold due in *. cbn.
      rewrite Hsnoc. repeat split; try done; try lia.
      rewrite Hcalls. do 3 f_equal. lia.
  - split; [done|]. split; [lia|]. split; [done|]. intros _.
    rewrite Nat.sub_diag, Nat.add_0_r. split; [by rewrite Nat.mod_small|].
    cbn. lia.
Qed.

Lemma _nextFrameRender_due (clock : list Z) a a' (f : Frame.t) :
  let n := length (_frames a) in
  let i := _frameIndex a in
  let s := skipped a' - skipped a in
  _running a = true →
  _frames a !! i = Some f →
  buildable (width a) (height a) f →
  (Frame.disposal f = 3 → canvas_width a ≠ 0 ∧ canvas_height a ≠ 0) →
  _nextFrameRender clock a = Done a' →
  _running a' = true →
  _frameIndex a' = (i + 1 + s) mod n
  ∧ due a' = (due a + delays_after (_frames a) i (S s))%Z
  ∧ last (calls a') = Some (SetTimeout (due a' - _lastTime a'))
  ∧ (0 ≤ due a' - _lastTime a')%Z.
Proof.
  simpl. intros Hrun Hf Hb Hdims Hrender Hrun'.
  unfold _nextFrameRender in Hrender. rewrite Hrun in Hrender. simpl in Hrender.
  destruct (onFrame_Done _ a f Hf Hb Hdims)
    as (a1 & E1 & Hfr1 & _ & _ & _ & _ & Hk1).
  simpl in Hfr1. rewrite E1 in Hrender. unfold _enqueueNextFrame in Hrender.
  apply control_fields in Hk1
    as (_ & _ & _ & _ & _ & _ & Hi1 & _ & Hlast1 & Hdc1 & _ & _ & Hsk1).
  assert (Hlen1 : length (_frames a1) = length (_frames a))
    by (by rewrite Hfr1, length_insert).
  assert (Hi : _frameIndex a < length (_frames a)) by (by eapply lookup_lt_Some).
  destruct (_advanceFrame_frame a1)
    as (Hfr & _ & _ & _ & Hlast & Hdc & _ & _ & _ & _ & _ & _ & _ & _ & Hsk).
  destruct (_running (_advanceFrame a1)) eqn:Hrb.
  2:{ rewrite (enqueue_loop_stopped _ _ Hrb) in Hrender.
      injection Hrender as <-. congruence. }
  destruct (_advanceFrame_running_following a1) as (Hib & Hltb & _);
    [by rewrite Hlen1, Hi1 | exact Hrb |].
  pose proof (enqueue_loop_due clock (_advanceFrame a1)) as Hloop.
  cbv zeta in Hloop. rewrite Hrender in Hloop. cbn [satisfies] in Hloop.
  destruct Hloop as (Hidx & Hdue & Hcalls & Hpos & _);
    [by rewrite Hfr | exact Hrun' |].
  rewrite Hfr, Hlen1, Hib, Hlen1, Hi1, Hsk, Hsk1 in Hidx.
  rewrite Hfr, Hib, Hlen1, Hi1, Hsk, Hsk1, Hfr1 in Hdue.
  rewrite delays_from_set_buffer in Hdue by exact Hf.
  unfold following in Hidx at 1. rewrite Nat.Div0.add_mod_idemp_l in Hidx.
  repeat split.
  - exact Hidx.
  - rewrite Hdue. unfold delays_after, due. rewrite Hlast, Hdc, Hlast1, Hdc1.
    reflexivity.
  - rewrite Hcalls. apply last_snoc.
  - exact Hpos.
Qed.

(** X7: the timing does not drift.  When a tick of a running animator ends
    with the animator still running, then, however late the tick was and
    whatever the clock read while it skipped frames, the instant it
    schedules the next tick for is the instant this tick was due plus the
    delays of the frames it moved past and to; the timer is set for the
    time from the last clock reading to that instant, which is not
    negative, and the frame it moved to is the current one. *)
Theorem due_time_advances (clock : list Z) a a' (f : Frame.t) :
  let n := length (_frames a) in
  let i := _frameIndex a in
  let s := skipped a' - skipped a in
  _running a = true →
  _frames a !! i = Some f →
  buildable (width a) (height a) f →
  (Frame.disposal f = 3 → canvas_width a ≠ 0 ∧ canvas_height a ≠ 0) →
  _nextFrameRender clock a = Done a' →
  _running a' = true →
  _frameIndex a' = (i + 1 + s) mod n
  ∧ due a' = (due a + delays_after (_frames a) i (S s))%Z
  ∧ last (calls a') = Some (SetTimeout (due a' - _lastTime a'))
  ∧ (0 ≤ due a' - _lastTime a')%Z.
Proof. apply _nextFrameRender_due. Qed.

(** ** Counting the loops *)

Lemma enqueue_loop_loops (k : nat) (clock : list Z) a :
  k ≠ 0 →
  _loopCount a = k ∧ _loops a ≤ k →
  satisfies (λ x, _loopCount x = k ∧ _loops x ≤ k)
            (λ x, _loopCount x = k ∧ _loops x ≤ k) (enqueue_loop clock a).
Proof.
  intros Hk.
  apply (enqueue_loop_rule (λ x, _loopCount x = k ∧ _loops x ≤ k)).
  - by intros x Hx _.
  - intros now x [Hlc Hl] _. cbv zeta.
    destruct (_frames x !! _frameIndex x) as [f|]; [|by simpl].
    split; intros _; [|by simpl].
    match goal with |- context [_advanceFrame ?t] =>
      pose proof (_advanceFrame_position t) as Hpos;
      pose proof (_advanceFrame_frame t) as Hsame;
      generalize dependent (_advanceFrame t)
    end.
    intros b Hpos Hsame. cbn in Hpos, Hsame. cbn.
    destruct Hsame as (_ & _ & _ & -> & _).
    destruct Hpos as [(_ & _ & -> & _)|[(_ & _ & _ & _ & -> & _)
                                       |(_ & Hcase & _ & -> & _)]];
      split; try done; lia.
Qed.

Lemma exec_loops (k : nat) (o : op) a a' :
  k ≠ 0 →
  _loopCount a = k ∧ _loops a ≤ k →
  exec o a = Some a' →
  _loopCount a' = k ∧ _loops a' ≤ k.
Proof.
  intros Hk [Hlc Hl]. destruct o as [now| | | |clock]; simpl.
  - by intros [= <-].
  - by intros [= <-].
  - intros [= <-]. simpl. split; [done|lia].
  - unfold fire_timeout. destruct (timeouts a); [discriminate|].
    by intros [= <-].
  - unfold fire_frame. destruct (frame_requests a) as [|rq]; [discriminate|].
    unfold _nextFrameRender. simpl.
    destruct (_running a); simpl; [|by intros [= <-]].
    match goal with |- context [onFrame ?i ?b] =>
      pose proof (onFrame_control i b) as Hc;
      destruct (onFrame i b) as [a1|e a1|]
    end; [| |done].
    + destruct Hc as [Hc _]. apply control_fields in Hc
        as (_ & _ & _ & _ & Hlc1 & Hl1 & _).
      simpl in Hlc1, Hl1. unfold _enqueueNextFrame.
      pose proof (enqueue_loop_loops k clock (_advanceFrame a1) Hk) as Hloop.
      destruct (_advanceFrame_frame a1) as (_ & _ & _ & Hlcb & _).
      destruct (enqueue_loop clock (_advanceFrame a1)) as [a2|e a2|];
        [| |discriminate]; intros [= <-]; simpl; apply Hloop;
        (split; [congruence|]);
        destruct (_advanceFrame_position a1)
          as [(_ & _ & -> & _)|[(_ & _ & _ & _ & -> & _)
                               |(_ & Hcase & _ & -> & _)]]; lia.
    + destruct Hc as [Hc _]. apply control_fields in Hc
        as (_ & _ & _ & _ & Hlc1 & Hl1 & _).
      simpl in Hlc1, Hl1. intros [= <-]. simpl. split; congruence.
Qed.

(** X8: with a non-zero loop count k the loop counter never exceeds k,
    whatever is called and however late the ticks are: between two resets
    the frames are passed through at most k+1 times. *)
Theorem loops_at_most_loopCount (reader : Reader.t) (frames : list Frame.t)
    (p : page surface) (ops : list op) a :
  Reader.loopCount reader ≠ 0 →
  run ops (Animator reader frames p) = Some a →
  _loops a ≤ Reader.loopCount reader.
Proof.
  intros Hk Hrun.
  assert (Hgen : ∀ ops a0 a1,
             _loopCount a0 = Reader.loopCount reader
             ∧ _loops a0 ≤ Reader.loopCount reader →
             run ops a0 = Some a1 →
             _loopCount a1 = Reader.loopCount reader
             ∧ _loops a1 ≤ Reader.loopCount reader).
  { clear ops a Hrun. induction ops as [|o ops IH]; intros a0 a1 H0; simpl.
    - by intros [= <-].
    - destruct (exec o a0) as [a2|] eqn:He; simpl; [|discriminate].
      apply IH. by eapply exec_loops. }
  apply (Hgen ops (Animator reader frames p) a); [|exact Hrun].
  simpl. split; [done|lia].
Qed.

(** ** An endless animation *)

Lemma endless_same (n : nat) a (b : animator surface imagedata) :
  _frames b = _frames a → width b = width a → height b = height a →
  _loopCount b = _loopCount a →
  canvas_width b = canvas_width a → canvas_height b = canvas_height a →
  _frameIndex b = _frameIndex a → calls b = calls a →
  endless n a → endless n b.
Proof.
  unfold endless. intros -> -> -> -> -> -> -> ->. done.
Qed.

Lemma _advanceFrame_endless (n : nat) a :
  endless n a →
  endless n (_advanceFrame a) ∧ _running (_advanceFrame a) = _running a.
Proof.
  intros (Hn & Hk & Hall & Hcw & Hch & Hi & Hcalls).
  destruct (_advanceFrame_frame a)
    as (Hfr & Hw & Hh & Hlc & _ & _ & _ & _ & Hcw' & Hch' & _ & _ & _ & Hc & _).
  unfold endless. rewrite Hfr, Hw, Hh, Hlc, Hcw', Hch', Hc.
  destruct (_advanceFrame_position a)
    as [(Hlt & -> & _ & ->)|[(_ & Hnz & _)|(_ & _ & -> & _ & ->)]];
    [| congruence |]; repeat split; try done; lia.
Qed.

Lemma enqueue_loop_endless (n : nat) (r0 : bool) (clock : list Z) a :
  endless n a → _running a = r0 →
  satisfies (λ x, endless n x ∧ _running x = r0) (λ _, False)
    (enqueue_loop clock a).
Proof.
  intros He Hr.
  apply (enqueue_loop_rule (λ x, endless n x ∧ _running x = r0));
    [by intros x Hx _ | | by split].
  intros now x [Hx Hrx] _. cbv zeta.
  assert (Hlt : _frameIndex x < length (_frames x)).
  { destruct Hx as (-> & _ & _ & _ & _ & Hi & _). exact Hi. }
  destruct (lookup_lt_is_Some_2 _ _ Hlt) as [f Hf]. rewrite Hf.
  split; intros _.
  - match goal with |- context [_advanceFrame ?t] =>
      destruct (_advanceFrame_endless n t) as [Hb Hrb];
        [by apply (endless_same n x)|];
      generalize dependent (_advanceFrame t)
    end.
    intros b Hb Hrb. split; [|exact (eq_trans Hrb Hrx)].
    by apply (endless_same n b).
  - split; [|exact Hrx].
    destruct Hx as (Hn & Hk & Hall & Hcw & Hch & Hi & Hcalls).
    unfold endless. cbn. repeat split; try done.
    apply Forall_app. split; [exact Hcalls | by repeat constructor].
Qed.

Lemma buildable_set_buffer (w h : nat) (b : bufferCanvas) (f : Frame.t) :
  buildable w h f → buildable w h (Frame.set_buffer b f).
Proof. by intros (? & ? & ?). Qed.

Lemma _nextFrameRender_endless (n : nat) (clock : list Z) a :
  endless n a →
  satisfies (λ x, endless n x ∧ _running x = _running a) (λ _, False)
    (_nextFrameRender clock a).
Proof.
  intros He. unfold _nextFrameRender.
  destruct (_running a) eqn:Hr; simpl; [|by split].
  pose proof He as (Hn & Hk & Hall & Hcw & Hch & Hi & Hcalls).
  destruct (lookup_lt_is_Some_2 (_frames a) (_frameIndex a)) as [f Hf]; [lia|].
  destruct (onFrame_Done (_frameIndex a) a f)
    as (a1 & E1 & Hfr1 & _ & _ & Hc1 & _ & Hk1);
    [exact Hf | exact (Forall_lookup_1 _ _ _ _ Hall Hf) | done |].
  simpl in Hfr1, Hc1. rewrite E1. unfold _enqueueNextFrame.
  apply control_fields in Hk1
    as (Hw1 & Hh1 & Hcw1 & Hch1 & Hlc1 & _ & Hi1 & Hr1 & _).
  assert (He1 : endless n a1).
  { unfold endless.
    rewrite Hfr1, length_insert, Hw1, Hh1, Hcw1, Hch1, Hlc1, Hi1, Hc1.
    repeat split; try done.
    - apply Forall_insert; [exact Hall|]. apply buildable_set_buffer.
      exact (Forall_lookup_1 _ _ _ _ Hall Hf).
    - apply Forall_app. split; [exact Hcalls|].
      constructor; [done|]. apply Forall_app. split.
      + destruct (disposeFrame a) as [[|saved]|]; by repeat constructor.
      + apply Forall_app. split; [|by repeat constructor].
        unfold snapshot_calls.
        destruct (Frame.disposal f) as [|[|[|[|m]]]]; by repeat constructor. }
  destruct (_advanceFrame_endless n a1 He1) as [Hb Hrb].
  apply enqueue_loop_endless; [exact Hb | congruence].
Qed.

Lemma exec_endless (n : nat) (o : op) a a' :
  endless n a → exec o a = Some a' →
  endless n a' ∧ _running a' = commanded [o] (_running a).
Proof.
  intros He. pose proof He as (Hn & Hk & Hall & Hcw & Hch & Hi & Hcalls).
  destruct o as [now| | | |clock]; simpl.
  - intros [= <-]. split; [|reflexivity]. unfold endless. simpl.
    repeat split; try done.
    apply Forall_app. split; [exact Hcalls | by repeat constructor].
  - by intros [= <-].
  - intros [= <-]. split; [|reflexivity]. unfold endless. simpl.
    repeat split; try done. lia.
  - unfold fire_timeout. destruct (timeouts a); [discriminate|].
    intros [= <-]. split; [|reflexivity]. unfold endless. simpl.
    repeat split; try done. rewrite app_nil_r.
    apply Forall_app. split; [exact Hcalls | by repeat constructor].
  - unfold fire_frame. destruct (frame_requests a) as [|rq]; [discriminate|].
    match goal with |- context [_nextFrameRender clock ?b] =>
      pose proof (_nextFrameRender_endless n clock b) as Hr;
      destruct (_nextFrameRender clock b) as [a1|e a1|]
    end; [| |discriminate].
    + intros [= <-]. apply Hr. unfold endless. simpl.
      rewrite app_nil_r. by repeat split.
    + exfalso. apply Hr. unfold endless. simpl.
      rewrite app_nil_r. by repeat split.
Qed.

Lemma commanded_cons (o : op) (ops : list op) (b : bool) :
  commanded (o :: ops) b = commanded ops (commanded [o] b).
Proof. by destruct o. Qed.

Lemma run_endless (n : nat) (ops : list op) :
  ∀ a a',
    endless n a → run ops a = Some a' →
    endless n a' ∧ _running a' = commanded ops (_running a).
Proof.
  induction ops as [|o ops IH]; intros a a' He.
  - simpl. by intros [= <-].
  - rewrite commanded_cons. cbn [run].
    destruct (exec o a) as [a1|] eqn:Hex; [|discriminate].
    intros Hrun. destruct (exec_endless n o a a1 He Hex) as [He1 Hr1].
    destruct (IH a1 a' He1 Hrun) as [He' Hr']. split; [exact He'|].
    congruence.
Qed.

(** *** The delays of the frames are never changed *)

Lemma onFrame_delays (i : nat) a :
  match onFrame i a with
  | Done a' | Threw _ a' => delays_of a' = delays_of a
  | Starved => True
  end.
Proof.
  assert (Hins : ∀ (b : bufferCanvas) (f : Frame.t),
             _frames a !! i = Some f →
             Frame.delay <$> <[i := Frame.set_buffer b f]> (_frames a)
             = Frame.delay <$> _frames a).
  { intros b f Hf. rewrite list_fmap_insert. apply list_insert_id.
    by rewrite list_lookup_fmap, Hf. }
  unfold onFrame, createBufferCanvas, delays_of.
  destruct (_frames a !! i) as [f|] eqn:Hf; [|by simpl].
  destruct ((width a =? 0) || (height a =? 0)); [by simpl|].
  destruct (width a * height a * 4 <? length (Frame.pixels f)); [by simpl|].
  destruct (Frame.disposal f) as [|[|[|[|n]]]];
    destruct (disposeFrame a) as [[|saved]|] eqn:Hp; simpl; rewrite ?Hp; simpl;
    try destruct ((canvas_width a =? 0) || (canvas_height a =? 0));
    simpl; by apply Hins.
Qed.

Lemma enqueue_loop_delays (clock : list Z) a :
  satisfies (λ x, delays_of x = delays_of a) (λ x, delays_of x = delays_of a)
    (enqueue_loop clock a).
Proof.
  apply (enqueue_loop_rule (λ x, delays_of x = delays_of a)); [done| |done].
  intros now x Hx _. cbv zeta.
  destruct (_frames x !! _frameIndex x) as [f|]; [|exact Hx].
  split; intros _; [|exact Hx].
  unfold delays_of. cbn [_frames count_skip]. by rewrite _advanceFrame_frames.
Qed.

Lemma _nextFrameRender_delays (clock : list Z) a :
  satisfies (λ x, delays_of x = delays_of a) (λ x, delays_of x = delays_of a)
    (_nextFrameRender clock a).
Proof.
  unfold _nextFrameRender. destruct (_running a); simpl; [|done].
  pose proof (onFrame_delays (_frameIndex a) a) as Hd.
  destruct (onFrame (_frameIndex a) a) as [a1|e a1|]; [|exact Hd|done].
  unfold _enqueueNextFrame.
  pose proof (enqueue_loop_delays clock (_advanceFrame a1)) as Hl.
  assert (Hadv : delays_of (_advanceFrame a1) = delays_of a)
    by (unfold delays_of in *; by rewrite _advanceFrame_frames).
  rewrite Hadv in Hl. exact Hl.
Qed.

Lemma exec_delays (o : op) a a' :
  exec o a = Some a' → delays_of a' = delays_of a.
Proof.
  destruct o as [now| | | |clock]; simpl.
  - by intros [= <-].
  - by intros [= <-].
  - by intros [= <-].
  - unfold fire_timeout. destruct (timeouts a); [discriminate|]. by intros [= <-].
  - unfold fire_frame. destruct (frame_requests a) as [|rq]; [discriminate|].
    match goal with |- context [_nextFrameRender clock ?b] =>
      pose proof (_nextFrameRender_delays clock b) as Hd;
      destruct (_nextFrameRender clock b) as [a1|e a1|]
    end; [| |discriminate]; intros [= <-]; exact Hd.
Qed.

Lemma run_delays (ops : list op) :
  ∀ a a', run ops a = Some a' → delays_of a' = delays_of a.
Proof.
  induction ops as [|o ops IH]; intros a a'; simpl.
  - by intros [= <-].
  - destruct (exec o a) as [a1|] eqn:Hex; [|discriminate]. simpl.
    intros Hrun. rewrite (IH a1 a' Hrun). by eapply exec_delays.
Qed.

(** *** The delays add up without bound *)

Lemma Exists_delay (frames : list Frame.t) :
  Exists (λ d, d ≠ 0) (Frame.delay <$> frames)
  ↔ Exists (λ f, Frame.delay f ≠ 0) frames.
Proof.
  rewrite !Exists_exists. split.
  - intros (d & Hin & Hd). apply list_elem_of_fmap in Hin as (f & -> & Hf).
    by exists f.
  - intros (f & Hin & Hd). exists (Frame.delay f).
    split; [by apply list_elem_of_fmap_2 | done].
Qed.

Lemma delays_from_le (frames : list Frame.t) (c m1 m2 : nat) :
  m1 ≤ m2 → (delays_from frames c m1 ≤ delays_from frames c m2)%Z.
Proof.
  revert c m2. induction m1 as [|m1 IH]; intros c m2 Hle.
  - apply delays_from_nonneg.
  - destruct m2 as [|m2]; [lia|]. rewrite !delays_from_S.
    specialize (IH (following (length frames) c) m2 ltac:(lia)). lia.
Qed.

Lemma following_lt (n c : nat) : n ≠ 0 → following n c < n.
Proof. intros Hn. unfold following. by apply Nat.mod_upper_bound. Qed.

Lemma delays_from_add (frames : list Frame.t) (m1 m2 : nat) :
  ∀ c : nat,
    c < length frames →
    delays_from frames c (m1 + m2)
    = (delays_from frames c m1
       + delays_from frames ((c + m1) mod length frames) m2)%Z.
Proof.
  induction m1 as [|m1 IH]; intros c Hc.
  - rewrite Nat.add_0_r, Nat.mod_small by done. simpl. lia.
  - change (S m1 + m2) with (S (m1 + m2)). rewrite !delays_from_S.
    rewrite IH by (apply following_lt; lia).
    assert (Hmod : (following (length frames) c + m1) mod length frames
                   = (c + S m1) mod length frames).
    { unfold following. rewrite Nat.Div0.add_mod_idemp_l. f_equal. lia. }
    rewrite Hmod. lia.
Qed.

(** [m] frames in a row include the frame [j] places on, for [j < m]. *)
Lemma delays_from_covers (frames : list Frame.t) (m : nat) :
  ∀ c j : nat,
    c < length frames → j < m →
    (frameDelay frames ((c + j) mod length frames)
     ≤ delays_from frames c m)%Z.
Proof.
  induction m as [|m IH]; intros c j Hc Hj; [lia|].
  rewrite delays_from_S.
  pose proof (frameDelay_nonneg frames c) as Hfd.
  pose proof (delays_from_nonneg frames (following (length frames) c) m) as Hnn.
  destruct j as [|j].
  - rewrite Nat.add_0_r, Nat.mod_small by done. lia.
  - specialize (IH (following (length frames) c) j
                  ltac:(apply following_lt; lia) ltac:(lia)).
    assert (Hmod : (following (length frames) c + j) mod length frames
                   = (c + S j) mod length frames).
    { unfold following. rewrite Nat.Div0.add_mod_idemp_l. f_equal. lia. }
    rewrite Hmod in IH. lia.
Qed.

(** One pass through the frames takes time, when some frame has a delay. *)
Lemma delays_from_pass (frames : list Frame.t) (c : nat) :
  Exists (λ f, Frame.delay f ≠ 0) frames →
  c < length frames →
  (1 ≤ delays_from frames c (length frames))%Z.
Proof.
  intros Hex Hc. apply Exists_exists in Hex as (f & Hin & Hd).
  apply list_elem_of_lookup in Hin as [i Hi].
  assert (Hlt : i < length frames) by (by eapply lookup_lt_Some).
  pose proof (delays_from_covers frames (length frames) c
                ((i + length frames - c) mod length frames) Hc
                ltac:(apply Nat.mod_upper_bound; lia)) as Hcov.
  rewrite Nat.Div0.add_mod_idemp_r in Hcov.
  replace (c + (i + length frames - c)) with (i + 1 * length frames) in Hcov by lia.
  rewrite Nat.Div0.mod_add, Nat.mod_small in Hcov by done.
  unfold frameDelay in Hcov at 1. rewrite Hi in Hcov. lia.
Qed.

Lemma delays_from_passes (frames : list Frame.t) (q : nat) :
  Exists (λ f, Frame.delay f ≠ 0) frames →
  ∀ c : nat,
    c < length frames →
    (Z.of_nat q ≤ delays_from frames c (q * length frames))%Z.
Proof.
  intros Hex. induction q as [|q IH]; intros c Hc; [simpl; lia|].
  change (S q * length frames) with (length frames + q * length frames).
  rewrite delays_from_add by done.
  pose proof (delays_from_pass frames c Hex Hc) as Hpass.
  specialize (IH ((c + length frames) mod length frames)
                ltac:(apply Nat.mod_upper_bound; lia)).
  lia.
Qed.

(** *** The loop ends *)

(** The loop returns as soon as one reading of the clock is not later
    than the delays of the frames looked at so far. *)
Lemma enqueue_loop_returns (n : nat) (clock : list Z) :
  ∀ a (j : nat) (u : Z),
    endless n a → _running a = true →
    clock !! j = Some u →
    (lateness u a ≤ delays_from (_frames a) (_frameIndex a) (S j))%Z →
    enqueue_loop clock a ≠ Starved.
Proof.
  induction clock as [|now clock IH]; intros a j u He Hr Hj Hle; [done|].
  assert (Hlt : _frameIndex a < length (_frames a)).
  { destruct He as (-> & _ & _ & _ & _ & Hi & _). exact Hi. }
  destruct (lookup_lt_is_Some_2 _ _ Hlt) as [f Hf].
  rewrite enqueue_loop_cons, Hr, Hf. cbn [negb]. cbv zeta.
  rewrite delays_from_S in Hle. unfold frameDelay in Hle at 1.
  rewrite Hf in Hle. unfold lateness in Hle.
  match goal with |- context [Z.ltb ?x 0] =>
    destruct (Z.ltb_spec x 0) as [Hneg|Hpos] end; [|done].
  destruct j as [|j].
  { injection Hj as ->.
    pose proof (delays_from_nonneg (_frames a)
                  (following (length (_frames a)) (_frameIndex a)) 0).
    simpl in Hle. lia. }
  simpl in Hj.
  match goal with |- context [_advanceFrame ?t] =>
    destruct (_advanceFrame_endless n t) as [Hb Hrb];
      [by apply (endless_same n a)|];
    pose proof (_advanceFrame_frame t) as Hsame;
    pose proof (_advanceFrame_running_following t) as Hfol;
    generalize dependent (_advanceFrame t)
  end.
  intros b Hb Hrb Hsame Hfol. cbn in Hrb, Hsame, Hfol.
  destruct Hsame as (Hfr & _ & _ & _ & Hlast & Hdc & _).
  destruct Hfol as (Hi & _); [exact Hlt | congruence |].
  apply (IH (count_skip b) j u).
  - by apply (endless_same n b).
  - cbn. congruence.
  - exact Hj.
  - unfold lateness. cbn [_frames _frameIndex _lastTime _delayCompensation count_skip].
    rewrite Hfr, Hi, Hlast, Hdc. lia.
Qed.

(** A tick returns on every clock that does not pass the instant [T]
    while the tick runs, once the clock has readings enough for the
    delays to add up to [T]. *)
Lemma _nextFrameRender_returns (n : nat) (T : Z) (clock : list Z) a :
  endless n a →
  Exists (λ d, d ≠ 0) (delays_of a) →
  Forall (λ u, (u ≤ T)%Z) clock →
  Z.to_nat (lateness T a) * n < length clock →
  ∃ a', _nextFrameRender clock a = Done a'.
Proof.
  intros He Hex Hclock Hlen.
  pose proof (_nextFrameRender_endless n clock a He) as Hsafe.
  assert (Hnot : _nextFrameRender clock a ≠ Starved);
    [|destruct (_nextFrameRender clock a) as [a'|e a'|]; by eauto].
  clear Hsafe. unfold _nextFrameRender.
  destruct (_running a) eqn:Hr; simpl; [|done].
  pose proof He as (Hn & Hk & Hall & Hcw & Hch & Hi & Hcalls).
  destruct (lookup_lt_is_Some_2 (_frames a) (_frameIndex a)) as [f Hf]; [lia|].
  pose proof (_nextFrameRender_endless n [] a He) as He1.
  pose proof (onFrame_delays (_frameIndex a) a) as Hd1.
  destruct (onFrame_Done (_frameIndex a) a f)
    as (a1 & E1 & Hfr1 & _ & _ & Hc1 & _ & Hk1);
    [exact Hf | exact (Forall_lookup_1 _ _ _ _ Hall Hf) | done |].
  simpl in Hfr1, Hc1. rewrite E1 in Hd1 |- *. unfold _enqueueNextFrame.
  apply control_fields in Hk1
    as (Hw1 & Hh1 & Hcw1 & Hch1 & Hlc1 & _ & Hi1 & Hr1 & Hlast1 & Hdc1 & _).
  assert (Hend1 : endless n a1).
  { unfold endless.
    rewrite Hfr1, length_insert, Hw1, Hh1, Hcw1, Hch1, Hlc1, Hi1, Hc1.
    repeat split; try done.
    - apply Forall_insert; [exact Hall|]. apply buildable_set_buffer.
      exact (Forall_lookup_1 _ _ _ _ Hall Hf).
    - apply Forall_app. split; [exact Hcalls|].
      constructor; [done|]. apply Forall_app. split.
      + destruct (disposeFrame a) as [[|saved]|]; by repeat constructor.
      + apply Forall_app. split; [|by repeat constructor].
        unfold snapshot_calls.
        destruct (Frame.disposal f) as [|[|[|[|m]]]]; by repeat constructor. }
  clear He1.
  destruct (_advanceFrame_endless n a1 Hend1) as [Hb Hrb].
  destruct (_advanceFrame_frame a1) as (Hfr & _ & _ & _ & Hlast & Hdc & _).
  set (b := _advanceFrame a1) in *.
  set (J := Z.to_nat (lateness T a) * n) in *.
  destruct (lookup_lt_is_Some_2 clock J Hlen) as [u Hu].
  apply (enqueue_loop_returns n clock b J u Hb); [congruence | exact Hu |].
  assert (HuT : (u ≤ T)%Z) by exact (Forall_lookup_1 _ _ _ _ Hclock Hu).
  assert (Hlate : lateness u b = lateness u a)
    by (unfold lateness; by rewrite Hlast, Hdc, Hlast1, Hdc1).
  assert (Hexb : Exists (λ f, Frame.delay f ≠ 0) (_frames b)).
  { rewrite Hfr. rewrite <- Hd1 in Hex. unfold delays_of in Hex.
    by apply Exists_delay. }
  assert (Hnb : length (_frames b) = n) by (by destruct Hb as (-> & _)).
  assert (Hib : _frameIndex b < length (_frames b)).
  { destruct Hb as (_ & _ & _ & _ & _ & Hib & _). by rewrite Hnb. }
  pose proof (delays_from_passes (_frames b) (Z.to_nat (lateness T a)) Hexb
                (_frameIndex b) Hib) as Hpasses.
  rewrite Hnb in Hpasses. fold J in Hpasses.
  pose proof (delays_from_le (_frames b) (_frameIndex b) J (S J) ltac:(lia)).
  rewrite Hlate. unfold lateness in *. lia.
Qed.

(** X9: an animation with at least one frame and loop count 0, whose
    frames can all be drawn (pixel data that fit the image, a non-zero
    width and height), on a page whose canvas has a non-zero size.
    Whatever sequence of [start], [stop], [reset], expiring timers and
    rendered frames it has gone through, and however late the ticks
    were, no tick has thrown, the frame index is below the number of
    frames, and the running flag is what the last [start] or [stop] made
    it: the animator never stops on its own.  And when some frame has a
    non-zero delay, no tick hangs either: the frame requested next is
    rendered and its tick returns, on every clock that does not pass a
    given instant while the tick runs, once the clock has readings enough
    for that instant. *)
Theorem endless_animation_is_safe (reader : Reader.t) (frames : list Frame.t)
    (p : page surface) (ops : list op) a :
  1 ≤ length frames →
  Reader.loopCount reader = 0 →
  Forall (buildable (Reader.canvas_width reader) (Reader.canvas_height reader))
         frames →
  Forall (λ f, Frame.width f ≠ 0 ∧ Frame.height f ≠ 0) frames →
  page_width p ≠ 0 → page_height p ≠ 0 →
  run ops (Animator reader frames p) = Some a →
  (Forall no_exception (calls a)
   ∧ _frameIndex a < length frames
   ∧ _running a = commanded ops false)
  ∧ (Exists (λ f, Frame.delay f ≠ 0) frames →
     frame_requests a ≠ 0 →
     ∀ T : Z, ∃ n : nat, ∀ clock : list Z,
       n ≤ length clock →
       Forall (λ u, (u ≤ T)%Z) clock →
       ∃ a', fire_frame clock a = Some a').
Proof.
  intros Hn Hk Hall _ Hcw Hch Hrun.
  destruct (run_endless (length frames) ops
              (Animator (imagedata := imagedata) reader frames p) a)
    as [He Hr]; [|exact Hrun|].
  { unfold endless. simpl. repeat split; try done; lia. }
  pose proof He as (_ & _ & _ & _ & _ & Hi & Hcalls).
  split; [by repeat split|].
  intros Hex Hrq T. exists (S (Z.to_nat (lateness T a) * length frames)).
  intros clock Hlen Hclock.
  unfold fire_frame. destruct (frame_requests a) as [|rq]; [done|].
  match goal with |- context [_nextFrameRender clock ?b] =>
    destruct (_nextFrameRender_returns (length frames) T clock b)
      as [a' Ha']
  end.
  - unfold endless in *. simpl. by rewrite app_nil_r.
  - pose proof (run_delays ops _ a Hrun) as Hd. unfold delays_of in *.
    simpl in *. rewrite Hd. by apply Exists_delay.
  - exact Hclock.
  - unfold lateness in *. simpl. lia.
  - exists a'. by rewrite Ha'.
Qed.

(** *** Frames without a delay *)

Lemma enqueue_loop_zero_delays (clock : list Z) :
  ∀ a,
    _running a = true →
    _loopCount a = 0 →
    _frameIndex a < length (_frames a) →
    Forall (λ f, Frame.delay f = 0) (_frames a) →
    Forall (λ u, (due a < u)%Z) clock →
    enqueue_loop clock a = Starved.
Proof.
  induction clock as [|now clock IH]; intros a Hr Hk Hlt Hzero Hclock.
  - simpl. by rewrite Hr.
  - destruct (lookup_lt_is_Some_2 _ _ Hlt) as [f Hf].
    rewrite enqueue_loop_cons, Hr, Hf. cbn [negb]. cbv zeta.
    rewrite (Forall_lookup_1 _ _ _ _ Hzero Hf).
    apply Forall_cons in Hclock as [Hnow Hclock]. unfold due in Hnow.
    match goal with |- context [Z.ltb ?x 0] =>
      destruct (Z.ltb_spec x 0) as [Hneg|Hpos] end; [|lia].
    match goal with |- context [_advanceFrame ?t] =>
      pose proof (_advanceFrame_frame t) as Hsame;
      pose proof (_advanceFrame_position t) as Hpos;
      generalize dependent (_advanceFrame t)
    end.
    intros b Hsame Hpos. cbn in Hsame, Hpos.
    destruct Hsame as (Hfr & _ & _ & Hlc & Hlast & Hdc & _).
    apply IH; cbn [_running _loopCount _frameIndex _frames count_skip].
    + destruct Hpos as [(_ & _ & _ & ->)|[(_ & Hnz & _)|(_ & _ & _ & _ & ->)]];
        [done | congruence | done].
    + congruence.
    + rewrite Hfr.
      destruct Hpos as [(Hs & -> & _)|[(_ & Hnz & _)|(_ & _ & -> & _)]];
        [done | congruence | lia].
    + by rewrite Hfr.
    + unfold due in *.
      cbn [_lastTime _delayCompensation count_skip]. rewrite Hlast, Hdc.
      eapply Forall_impl; [exact Hclock|]. intros u Hu. simpl in Hu |- *. lia.
Qed.

(** X16: in an animation that loops for ever and whose frames all have
    delay 0, a tick that comes after the instant it was due never
    returns: it draws its frame (one that can be drawn), and then, as
    long as the clock reads later than that instant, the loop of
    [_enqueueNextFrame] passes over one frame after the other and reads
    the clock again, however many readings it is given. *)
Theorem late_tick_without_delays_never_returns (clock : list Z) a (f : Frame.t) :
  _running a = true →
  _loopCount a = 0 →
  _frames a !! _frameIndex a = Some f →
  buildable (width a) (height a) f →
  Frame.width f ≠ 0 ∧ Frame.height f ≠ 0 →
  (Frame.disposal f = 3 → canvas_width a ≠ 0 ∧ canvas_height a ≠ 0) →
  Forall (λ f, Frame.delay f = 0) (_frames a) →
  Forall (λ u, (due a < u)%Z) clock →
  _nextFrameRender clock a = Starved.
Proof.
  intros Hr Hk Hf Hb _ Hdims Hzero Hclock.
  unfold _nextFrameRender. rewrite Hr. simpl.
  destruct (onFrame_Done (_frameIndex a) a f Hf Hb Hdims)
    as (a1 & E1 & Hfr1 & _ & _ & _ & _ & Hk1).
  simpl in Hfr1. rewrite E1. unfold _enqueueNextFrame.
  apply control_fields in Hk1
    as (_ & _ & _ & _ & Hlc1 & _ & Hi1 & Hr1 & Hlast1 & Hdc1 & _).
  assert (Hlt : _frameIndex a < length (_frames a)) by (by eapply lookup_lt_Some).
  assert (Hzero1 : Forall (λ f, Frame.delay f = 0) (_frames a1)).
  { rewrite Hfr1. apply Forall_insert; [exact Hzero|].
    exact (Forall_lookup_1 _ _ _ _ Hzero Hf). }
  pose proof (_advanceFrame_frame a1) as Hsame.
  pose proof (_advanceFrame_position a1) as Hpos.
  set (b := _advanceFrame a1) in *. cbn in Hsame, Hpos.
  destruct Hsame as (Hfr & _ & _ & Hlc & Hlast & Hdc & _).
  assert (Hlen1 : length (_frames a1) = length (_frames a))
    by (by rewrite Hfr1, length_insert).
  apply enqueue_loop_zero_delays.
  - destruct Hpos as [(_ & _ & _ & ->)|[(_ & Hnz & _)|(_ & _ & _ & _ & ->)]];
      [congruence | congruence | congruence].
  - congruence.
  - rewrite Hfr, Hlen1.
    destruct Hpos as [(Hs & -> & _)|[(_ & Hnz & _)|(_ & _ & -> & _)]];
      [lia | congruence | lia].
  - by rewrite Hfr.
  - unfold due in *. by rewrite Hlast, Hdc, Hlast1, Hdc1.
Qed.

(** ** The order of the drawings *)

Lemma enqueue_loop_quiet (clock : list Z) a :
  satisfies
    (λ x, drawings x = drawings a ∧ elements x = elements a
          ∧ _frames x = _frames a ∧ width x = width a ∧ height x = height a)
    (λ x, drawings x = drawings a ∧ elements x = elements a
          ∧ _frames x = _frames a ∧ width x = width a ∧ height x = height a)
    (enqueue_loop clock a).
Proof.
  apply (enqueue_loop_rule
           (λ x, drawings x = drawings a ∧ elements x = elements a
                 ∧ _frames x = _frames a ∧ width x = width a
                 ∧ height x = height a));
    [by intros x Hx _ | | by repeat split].
  intros now x (Hd & He & Hfr & Hw & Hh) _. cbv zeta.
  destruct (_frames x !! _frameIndex x) as [f|]; [|by repeat split].
  split; intros _.
  - match goal with |- context [_advanceFrame ?t] =>
      pose proof (_advanceFrame_frame t) as Hsame;
      generalize dependent (_advanceFrame t)
    end.
    intros b Hsame. cbn in Hsame.
    destruct Hsame as (Hfrb & Hwb & Hhb & _ & _ & _ & _ & _ & _ & _ & _ & _
                       & Heb & Hcb & _).
    unfold drawings in *. cbn. rewrite Hcb, Hfrb, Hwb, Hhb, Heb.
    by repeat split.
  - unfold drawings in *. cbn. rewrite omap_app. cbn. rewrite app_nil_r.
    by repeat split.
Qed.

Lemma without_buffer_set_buffer (b : bufferCanvas) (f : Frame.t) :
  without_buffer (Frame.set_buffer b f) = without_buffer f.
Proof. reflexivity. Qed.

(** A tick of a playing animator draws its current frame, once, through a
    new element, and changes the frames in their buffers only. *)
Lemma tick_drawing (n k t : nat) (clock : list Z) a a' :
  playing n k t a →
  tick clock a = Some a' →
  ∃ f,
    _frames a !! _frameIndex a = Some f
    ∧ drawings a'
      = drawings a ++ [frame_drawing (width a) (height a) (elements a) f]
    ∧ elements a' = S (elements a)
    ∧ without_buffer <$> _frames a' = without_buffer <$> _frames a
    ∧ width a' = width a ∧ height a' = height a.
Proof.
  intros (Hn & Hk & Hall & Hcw & Hch & Hrun & Hi & Ht & Hloops & Htm & Hrq & Hdraws)
    Htick.
  unfold tick, fire_timeout in Htick. rewrite Htm in Htick. simpl in Htick.
  unfold fire_frame in Htick. simpl in Htick. rewrite Hrq in Htick.
  simpl in Htick. unfold _nextFrameRender in Htick. simpl in Htick.
  rewrite Hrun in Htick. simpl in Htick.
  match type of Htick with context [onFrame _ ?X] => set (ar := X) in * end.
  destruct (lookup_lt_is_Some_2 (_frames a) (_frameIndex a)) as [f Hf]; [lia|].
  exists f. split; [exact Hf|].
  destruct (onFrame_Done (_frameIndex a) ar f)
    as (a1 & E1 & Hfr1 & _ & _ & Hc1 & He1 & Hk1);
    [exact Hf | by eapply (Forall_lookup_1 _ _ _ _ Hall) | done |].
  cbv zeta in Hfr1, Hc1, He1.
  change (_frames ar) with (_frames a) in Hfr1.
  change (elements ar) with (elements a) in Hc1, He1.
  change (width ar) with (width a) in Hc1.
  change (height ar) with (height a) in Hc1.
  change (disposeFrame ar) with (disposeFrame a) in Hc1.
  assert (Hcar : calls ar = calls a ++ [RequestAnimationFrame])
    by (subst ar; simpl; by rewrite !app_nil_r).
  apply control_fields in Hk1 as (Hw1 & Hh1 & _).
  simpl in Hw1, Hh1.
  rewrite E1 in Htick. unfold _enqueueNextFrame in Htick.
  pose proof (enqueue_loop_quiet clock (_advanceFrame a1)) as Hq.
  destruct (_advanceFrame_frame a1)
    as (Hfr & Hw & Hh & _ & _ & _ & _ & _ & _ & _ & _ & _ & He & Hcalls & _).
  assert (Hd1 : drawings (_advanceFrame a1)
                = drawings a
                  ++ [frame_drawing (width a) (height a) (elements a) f]).
  { assert (Hr : omap drawing (restore_calls (disposeFrame a) ar) = [])
      by (by destruct (disposeFrame a) as [[|saved]|]).
    assert (Hs : omap drawing (snapshot_calls f ar) = [])
      by (unfold snapshot_calls;
          by destruct (Frame.disposal f) as [|[|[|[|m]]]]).
    unfold drawings. rewrite Hcalls, Hc1, Hcar, !omap_app, Hr, Hs.
    cbn. by rewrite app_nil_r. }
  assert (Hfr' : without_buffer <$> _frames a1 = without_buffer <$> _frames a).
  { rewrite Hfr1, list_fmap_insert, without_buffer_set_buffer.
    apply list_insert_id. by rewrite list_lookup_fmap, Hf. }
  destruct (enqueue_loop clock (_advanceFrame a1)) as [a2|e a2|];
    [| |discriminate]; injection Htick as <-;
    destruct Hq as (Hdq & Heq & Hfq & Hwq & Hhq).
  - rewrite Hdq, Heq, Hfq, Hwq, Hhq, Hd1, He, Hfr, Hw, Hh, He1, Hw1, Hh1.
    by repeat split.
  - unfold drawings in *. simpl. rewrite omap_app. simpl. rewrite app_nil_r.
    rewrite Hdq, Heq, Hfq, Hwq, Hhq, Hd1, He, Hfr, Hw, Hh, He1, Hw1, Hh1.
    by repeat split.
Qed.

Lemma drawings_in_order_S (frames : list Frame.t) (w h t : nat) (f : Frame.t) :
  frames !! (t mod length frames) = Some f →
  drawings_in_order frames w h (S t)
  = drawings_in_order frames w h t ++ [frame_drawing w h t f].
Proof.
  intros Hf. unfold drawings_in_order.
  rewrite seq_S, omap_app. cbn. by rewrite Hf.
Qed.

Lemma frame_drawing_without_buffer (w h id : nat) (f g : Frame.t) :
  without_buffer f = without_buffer g →
  frame_drawing w h id f = frame_drawing w h id g.
Proof.
  intros Heq.
  change (frame_drawing w h id (without_buffer f)
          = frame_drawing w h id (without_buffer g)).
  by rewrite Heq.
Qed.

Lemma run_ticks_drawings (n k w h : nat) (frames : list Frame.t)
    (clocks : list (list Z)) :
  ∀ (t : nat) a a',
    playing n k t a →
    elements a = t → width a = w → height a = h →
    without_buffer <$> _frames a = without_buffer <$> frames →
    drawings a = drawings_in_order frames w h t →
    run_ticks clocks a = Some a' →
    skipped a' = skipped a →
    drawings a' = drawings_in_order frames w h (t + length clocks).
Proof.
  induction clocks as [|clock clocks IH];
    intros t a a' Hplay He Hw Hh Hfr Hd; simpl.
  - intros [= <-] _. by rewrite Nat.add_0_r.
  - destruct (tick clock a) as [a1|] eqn:Htick; simpl; [|discriminate].
    intros Hrun Hsk.
    pose proof (tick_skipped _ _ _ Htick) as Hm1.
    pose proof (run_ticks_skipped _ _ _ Hrun) as Hm2.
    destruct (tick_drawing n k t clock a a1 Hplay Htick)
      as (f & Hf & Hd1 & He1 & Hfr1 & Hw1 & Hh1).
    assert (Hd1' : drawings a1 = drawings_in_order frames w h (S t)).
    { assert (Hlen : length frames = n).
      { destruct Hplay as (<- & _).
        by rewrite <- (length_fmap without_buffer frames), <- Hfr, length_fmap. }
      assert (Hmod : t mod length frames = _frameIndex a).
      { destruct Hplay as (_ & _ & _ & _ & _ & _ & Hi & -> & _).
        rewrite Hlen, Nat.add_comm, Nat.Div0.mod_add. by apply Nat.mod_small. }
      assert (Hf0 : ∃ f0, frames !! _frameIndex a = Some f0
                          ∧ without_buffer f0 = without_buffer f).
      { assert (Hl : (without_buffer <$> frames) !! _frameIndex a
                     = Some (without_buffer f))
          by (by rewrite <- Hfr, list_lookup_fmap, Hf).
        rewrite list_lookup_fmap in Hl.
        destruct (frames !! _frameIndex a) as [f0|]; [|discriminate].
        exists f0. split; [done|]. simpl in Hl. congruence. }
      destruct Hf0 as (f0 & Hf0 & Hwb).
      rewrite (drawings_in_order_S frames w h t f0) by (by rewrite Hmod).
      rewrite Hd1, Hd, Hw, Hh, He.
      by rewrite (frame_drawing_without_buffer w h t f f0). }
    destruct (tick_step n k t clock a a1 Hplay Htick)
      as [(Hk & Hend & Hfin)|[Hgo Hplay1]]; [lia| |].
    + destruct clocks as [|clock' clocks]; simpl in Hrun.
      * injection Hrun as <-. simpl. by rewrite Nat.add_1_r.
      * by rewrite (finished_no_tick _ _ clock' _ Hfin) in Hrun.
    + replace (t + S (length clocks)) with (S t + length clocks) by lia.
      apply (IH (S t) a1 a' Hplay1); try congruence; lia.
Qed.

(** X10: in a run of ticks in which no frame is skipped the frames are
    drawn in their order, again and again: the t-th tick creates the t-th
    element of the document, fills it with the samples of frame t mod N
    (with zeros up to the size of the image) and draws it at the offset of
    that frame. *)
Theorem frames_drawn_in_order (reader : Reader.t) (frames : list Frame.t)
    (p : page surface) (now : Z) (clocks : list (list Z)) a :
  1 ≤ length frames →
  Forall (buildable (Reader.canvas_width reader) (Reader.canvas_height reader))
         frames →
  page_width p ≠ 0 → page_height p ≠ 0 →
  run_ticks clocks (start now (Animator reader frames p)) = Some a →
  skipped a = 0 →
  drawings a
  = drawings_in_order frames (Reader.canvas_width reader)
      (Reader.canvas_height reader) (length clocks).
Proof.
  intros Hn Hall Hcw Hch Hrun Hsk.
  set (a0 := start now (Animator (imagedata := imagedata) reader frames p)) in *.
  assert (Hplay : playing (length frames) (Reader.loopCount reader) 0 a0).
  { unfold playing. simpl. repeat split; try done; try lia. }
  apply (run_ticks_drawings _ _ _ _ frames clocks 0 a0 a Hplay); done.
Qed.

(** ** From the reader to the canvas *)

Lemma decoded_length (reader : Reader.t) :
  length (decoded reader) = Reader.numFrames reader.
Proof.
  unfold decoded.
  by destruct (decodeFramesSync_total reader) as (frames & -> & Hlen & _).
Qed.

Lemma decoded_buildable (reader : Reader.t) :
  Reader.canvas_width reader ≠ 0 → Reader.canvas_height reader ≠ 0 →
  Forall (buildable (Reader.canvas_width reader) (Reader.canvas_height reader))
         (decoded reader).
Proof.
  intros Hw Hh. unfold decoded.
  destruct (decodeFramesSync_total reader) as (frames & -> & _ & Hall).
  apply Forall_forall. intros f Hin.
  apply list_elem_of_lookup in Hin as [i Hi].
  destruct (Forall2_lookup_r _ _ _ _ _ Hall Hi) as (j & _ & Hj).
  repeat split; [exact Hw | exact Hh |].
  destruct (decodeFrame_inv _ _ _ Hj) as (_ & _ & ->).
  rewrite blit_length. unfold Uint8ClampedArray. by rewrite length_replicate.
Qed.

Context `{Bitmap surface}.

(** X11: decoding the frames of a reader, constructing the animator and
    calling [animateInCanvas] with [setDimensions] compose into a
    playback.  The element handed over is given the size of the image
    and a blank bitmap, and [this.ctx] draws on it; the size that
    [onFrame] reads through the identifier [canvas] is that of the image
    when the element is the canvas of the page, and is left as it is
    otherwise.  For an image of non-zero size with at least one frame,
    whose frames have a non-zero width and height, and, when another
    element is handed over, a canvas of the page of non-zero size: for
    every number j of ticks that the loop count allows, the playback on
    time renders j ticks, skips nothing and draws the decoded frames in
    their order. *)
Theorem animateInCanvas_plays_decoded (reader : Reader.t)
    (canvas : handed surface) (p : page surface) (now : Z) (j : nat) :
  let n := Reader.numFrames reader in
  let k := Reader.loopCount reader in
  let w := Reader.canvas_width reader in
  let h := Reader.canvas_height reader in
  let a0 := animateInCanvas canvas true now (Animator reader (decoded reader) p) in
  1 ≤ n → w ≠ 0 → h ≠ 0 →
  Forall (λ i, Reader.width i ≠ 0 ∧ Reader.height i ≠ 0) (Reader.frames reader) →
  (∀ other, canvas = AnotherCanvas other →
            page_width p ≠ 0 ∧ page_height p ≠ 0) →
  k = 0 ∨ j ≤ (k + 1) * n →
  ctx a0 = blank w h
  ∧ (canvas_width a0, canvas_height a0)
    = match canvas with
      | CanvasOfThePage _ => (w, h)
      | AnotherCanvas _ => (page_width p, page_height p)
      end
  ∧ ∃ (clocks : list (list Z)) a,
      length clocks = j
      ∧ run_ticks clocks a0 = Some a
      ∧ skipped a = 0
      ∧ draws a = j
      ∧ drawings a = drawings_in_order (decoded reader) w h j.
Proof.
  simpl. intros Hn Hw Hh _ Hpage Hj.
  set (a0 := animateInCanvas canvas true now
               (Animator (imagedata := imagedata) reader (decoded reader) p)).
  assert (Hplay : playing (Reader.numFrames reader) (Reader.loopCount reader) 0 a0).
  { unfold playing. destruct canvas as [bitmap|other]; simpl; rewrite decoded_length.
    - repeat split; try done; try lia. by apply decoded_buildable.
    - destruct (Hpage other eq_refl) as [Hpw Hph].
      repeat split; try done; try lia. by apply decoded_buildable. }
  split; [by destruct canvas|]. split; [by destruct canvas|].
  assert (Hsk0 : skipped a0 = 0) by (by destruct canvas).
  destruct (run_punctual _ _ j 0 a0 Hplay) as (a & Hrun & Hlen & Hsk); [lia|].
  exists (punctual j a0), a.
  destruct (run_ticks_counts _ _ _ 0 a0 a Hplay Hrun Hsk) as (Hd & _).
  split; [exact Hlen|]. split; [exact Hrun|]. split; [congruence|].
  split; [by rewrite Hd, Hlen|].
  rewrite <- Hlen at 1.
  apply (run_ticks_drawings _ _ _ _ (decoded reader) _ 0 a0 a Hplay);
    try done; by destruct canvas.
Qed.

(** ** Rewinding *)

Lemma _nextFrameRender_drawing (clock : list Z) a a' (f : Frame.t) :
  _running a = true →
  _frames a !! _frameIndex a = Some f →
  buildable (width a) (height a) f →
  (Frame.disposal f = 3 → canvas_width a ≠ 0 ∧ canvas_height a ≠ 0) →
  _nextFrameRender clock a = Done a' →
  drawings a'
  = drawings a ++ [frame_drawing (width a) (height a) (elements a) f].
Proof.
  intros Hrun Hf Hb Hdims Hrender.
  unfold _nextFrameRender in Hrender. rewrite Hrun in Hrender. simpl in Hrender.
  destruct (onFrame_Done _ a f Hf Hb Hdims)
    as (a1 & E1 & _ & _ & _ & Hc1 & _ & _).
  cbv zeta in Hc1. rewrite E1 in Hrender. unfold _enqueueNextFrame in Hrender.
  pose proof (enqueue_loop_quiet clock (_advanceFrame a1)) as Hq.
  rewrite Hrender in Hq. destruct Hq as (-> & _).
  destruct (_advanceFrame_frame a1)
    as (_ & _ & _ & _ & _ & _ & _ & _ & _ & _ & _ & _ & _ & Hcalls & _).
  assert (Hr : omap drawing (restore_calls (disposeFrame a) a) = [])
    by (by destruct (disposeFrame a) as [[|saved]|]).
  assert (Hs : omap drawing (snapshot_calls f a) = [])
    by (unfold snapshot_calls;
        by destruct (Frame.disposal f) as [|[|[|[|m]]]]).
  unfold drawings. rewrite Hcalls, Hc1, !omap_app, Hr, Hs. reflexivity.
Qed.

(** X12: [reset] on a running animator takes effect at the very next tick:
    that tick draws frame 0, whatever frame was current, and moves on from
    frame 0; the timing is not rewound, the tick after it stays due at the
    old due time plus the delays of the frames passed since frame 0. *)
Theorem reset_rewinds (clock : list Z) a a' (f0 : Frame.t) :
  let n := length (_frames a) in
  let s := skipped a' - skipped a in
  _running a = true →
  _frames a !! 0 = Some f0 →
  buildable (width a) (height a) f0 →
  (Frame.disposal f0 = 3 → canvas_width a ≠ 0 ∧ canvas_height a ≠ 0) →
  _nextFrameRender clock (reset a) = Done a' →
  drawings a'
  = drawings a ++ [frame_drawing (width a) (height a) (elements a) f0]
  ∧ (_running a' = true →
     _frameIndex a' = (1 + s) mod n
     ∧ due a' = (due a + delays_after (_frames a) 0 (S s))%Z).
Proof.
  simpl. intros Hrun Hf Hb Hdims Hrender. split.
  - apply (_nextFrameRender_drawing clock (reset a) a' f0); done.
  - intros Hrun'.
    destruct (_nextFrameRender_due clock (reset a) a' f0)
      as (Hidx & Hdue & _); done.
Qed.

End MoreAnimatorProperties.

(** ** class Gif: the canvas to draw on *)

Lemma is_canvas_spec (e : domNode) :
  is_canvas e = true ↔ tagName e = "CANVAS".
Proof. unfold is_canvas. apply String.eqb_eq. Qed.

(** X13: [getCanvasElement] returns nothing but a canvas: either the
    element it was given or the one its string selects, when the tag name
    of that element is CANVAS.  A string that selects an element of
    another kind, an element of another kind and a value that is neither
    make it throw its "Unexpected selector type" error; a string that
    selects nothing, like [null] and [undefined], makes it throw a
    TypeError instead, and a string that is no selector a SyntaxError. *)
Theorem getCanvasElement_outcome (querySelector : string → query)
    (sel : selector) :
  (∀ e, getCanvasElement querySelector sel = inl e ↔
        tagName e = "CANVAS"
        ∧ (sel = SelectorElement e
           ∨ ∃ s, sel = SelectorString s ∧ querySelector s = Found e))
  ∧ (getCanvasElement querySelector sel = inr UnexpectedSelectorType ↔
     sel = SelectorOther
     ∨ (∃ e, tagName e ≠ "CANVAS"
             ∧ (sel = SelectorElement e
                ∨ ∃ s, sel = SelectorString s ∧ querySelector s = Found e)))
  ∧ (getCanvasElement querySelector sel = inr SelectionTypeError ↔
     sel = SelectorNullish
     ∨ ∃ s, sel = SelectorString s ∧ querySelector s = NotFound)
  ∧ (getCanvasElement querySelector sel = inr SelectionSyntaxError ↔
     ∃ s, sel = SelectorString s ∧ querySelector s = InvalidSelector).
Proof.
  assert (Hnot : ∀ e, is_canvas e = false ↔ tagName e ≠ "CANVAS").
  { intros e. rewrite <- is_canvas_spec. by destruct (is_canvas e). }
  destruct sel as [s|e0| |]; simpl;
    [destruct (querySelector s) as [e0| |] eqn:Hq;
       [destruct (is_canvas e0) eqn:Hc;
          [apply is_canvas_spec in Hc | apply Hnot in Hc]| |]
    |destruct (is_canvas e0) eqn:Hc;
       [apply is_canvas_spec in Hc | apply Hnot in Hc]
    | | ];
    split_and!; try intros e; split; intros;
    repeat match goal with
           | Hyp : _ ∧ _ |- _ => destruct Hyp
           | Hyp : _ ∨ _ |- _ => destruct Hyp
           | Hyp : ∃ _, _ |- _ => destruct Hyp
           end;
    simplify_eq; eauto 10; congruence.
Qed.

(** ** Disposal of one frame before the next *)

Section DisposalProperties.

Context `{Canvas2D surface imagedata}.

Implicit Types a : animator surface imagedata.

Lemma restored_pending_after (f : Frame.t) a a1 (s0 s1 : surface) :
  canvas_width a1 = canvas_width a → canvas_height a1 = canvas_height a →
  ctx a1 = s1 →
  restored (pending_after f a s0) a1
  = disposed f (canvas_width a) (canvas_height a) s0 s1.
Proof.
  intros Hcw Hch Hctx. unfold pending_after, disposed, restored.
  destruct (Frame.disposal f) as [|[|[|[|n]]]]; by rewrite ?Hcw, ?Hch, ?Hctx.
Qed.

(** X14: what a frame asks for its disposal is done once, just before the
    next frame is drawn, on the surface as the frame left it: frame i
    found the surface [s0] (after the disposal pending before it) and drew
    on it; the frame rendered next draws on that surface as it is
    (disposal 0, 1 and above 3), cleared over the extent of the canvas
    (disposal 2), or with the contents of [s0] put back (disposal 3).  The
    second frame gets an element of its own, and its own disposal is the
    one left pending. *)
Theorem disposal_before_next_draw (i j : nat) a (fi fj : Frame.t) :
  let w := width a in
  let h := height a in
  let cw := canvas_width a in
  let ch := canvas_height a in
  let bi := built_buffer (elements a) fi w h in
  let bj := built_buffer (S (elements a)) fj w h in
  let s0 := restored (disposeFrame a) a in
  let s1 := disposed fi cw ch s0 (drawImage bi (Frame.x fi) (Frame.y fi) s0) in
  _frames a !! i = Some fi →
  _frames a !! j = Some fj →
  buildable w h fi → buildable w h fj →
  cw ≠ 0 → ch ≠ 0 →
  ∃ a',
    render [i; j] a = Done a'
    ∧ ctx a' = drawImage bj (Frame.x fj) (Frame.y fj) s1
    ∧ disposeFrame a' = pending_after fj a s1
    ∧ draws a' = draws a + 2
    ∧ control a' = control a.
Proof.
  simpl. intros Hi Hj Hbi Hbj Hcw Hch.
  destruct (onFrame_Done i a fi Hi Hbi) as (a1 & E1 & Hfr1 & Hctx1 & Hd1 & Hc1 & He1 & Hk1);
    [done|].
  simpl in Hfr1, Hctx1, Hd1, Hc1.
  pose proof (control_fields _ _ Hk1)
    as (Hw1 & Hh1 & Hcw1 & Hch1 & _).
  set (fj' := if decide (i = j) then Frame.set_buffer
                   (built_buffer (elements a) fi (width a) (height a)) fi
              else fj).
  assert (Hj1 : _frames a1 !! j = Some fj').
  { rewrite Hfr1. unfold fj'. destruct (decide (i = j)) as [->|Hne].
    - apply list_lookup_insert_eq. by eapply lookup_lt_Some.
    - by rewrite list_lookup_insert_ne. }
  assert (Hsame : without_buffer fj' = without_buffer fj).
  { unfold fj'. destruct (decide (i = j)) as [->|Hne]; [|done].
    rewrite Hi in Hj. by injection Hj as <-. }
  assert (Hbj' : buildable (width a1) (height a1) fj').
  { rewrite Hw1, Hh1. unfold fj'. destruct (decide (i = j)) as [->|Hne]; [|done].
    rewrite Hi in Hj. injection Hj as <-. by apply buildable_set_buffer. }
  destruct (onFrame_Done j a1 fj' Hj1 Hbj')
    as (a2 & E2 & _ & Hctx2 & Hd2 & Hc2 & _ & Hk2);
    [by rewrite Hcw1, Hch1|].
  simpl in Hctx2, Hd2, Hc2.
  assert (Hx : Frame.x fj' = Frame.x fj) by exact (f_equal Frame.x Hsame).
  assert (Hy : Frame.y fj' = Frame.y fj) by exact (f_equal Frame.y Hsame).
  assert (Hdisp : Frame.disposal fj' = Frame.disposal fj)
    by exact (f_equal Frame.disposal Hsame).
  assert (Hbuf : ∀ id, built_buffer id fj' (width a) (height a)
                       = built_buffer id fj (width a) (height a)).
  { intros id.
    change (built_buffer id (without_buffer fj') (width a) (height a)
            = built_buffer id (without_buffer fj) (width a) (height a)).
    by rewrite Hsame. }
  assert (Hs1 : restored (disposeFrame a1) a1
                = disposed fi (canvas_width a) (canvas_height a)
                    (restored (disposeFrame a) a)
                    (drawImage (built_buffer (elements a) fi (width a) (height a))
                               (Frame.x fi) (Frame.y fi)
                               (restored (disposeFrame a) a))).
  { rewrite Hd1. by apply restored_pending_after. }
  exists a2. split; [simpl; by rewrite E1, E2|].
  rewrite Hw1, Hh1, He1, Hx, Hy, Hbuf, Hs1 in Hctx2.
  split; [exact Hctx2|]. split.
  - rewrite Hd2, Hs1. unfold pending_after. by rewrite Hdisp, Hcw1, Hch1.
  - split; [|by rewrite Hk2].
    rewrite (onFrame_draws j a1 a2 E2), (onFrame_draws i a a1 E1). lia.
Qed.

(** ** A canvas that is not sized to the image *)

Context `{Bitmap surface}.

Lemma tick_snapshot_throws (now : Z) (clock : list Z) a (f : Frame.t) :
  _frames a !! _frameIndex a = Some f →
  Frame.disposal f = 3 →
  buildable (width a) (height a) f →
  disposeFrame a = None →
  timeouts a = 0 → frame_requests a = 0 →
  canvas_width a = 0 ∨ canvas_height a = 0 →
  ∃ a',
    tick clock (start now a) = Some a'
    ∧ calls a' = calls a ++ [SetTimeout 0; RequestAnimationFrame; CreateElement;
                             Uncaught IndexSizeError]
    ∧ ctx a' = ctx a
    ∧ canvas_width a' = canvas_width a ∧ canvas_height a' = canvas_height a
    ∧ _running a' = true
    ∧ pending a' = 0
    ∧ _frameIndex a' = _frameIndex a.
Proof.
  intros Hf Hd Hb Hnone Htm Hrq Hzero.
  assert (Hz : (canvas_width a =? 0) || (canvas_height a =? 0) = true).
  { destruct Hzero as [-> | ->]; [done|]. by rewrite orb_true_r. }
  unfold tick, start, fire_timeout, fire_frame. simpl.
  unfold _nextFrameRender. simpl. unfold onFrame. simpl. rewrite Hf.
  rewrite (createBufferCanvas_Ok _ _ _ _ Hb). simpl. rewrite Hd, Hnone.
  simpl. rewrite Hz. simpl. eexists. split; [reflexivity|]. simpl.
  rewrite <- !app_assoc. simpl. unfold pending. simpl. rewrite Htm, Hrq.
  by repeat split.
Qed.

(** X15: the size of the snapshot of a frame with disposal 3 is that of
    the canvas of the page, which [onFrame] names; [animateInCanvas]
    changes it only when it is handed that canvas and told to set its
    dimensions.  Otherwise, on a page whose canvas has a zero width or
    height, whatever element is handed over and even when that element
    is resized to the image, a first frame with disposal 3 cannot take
    its snapshot: the first tick creates the buffer of the frame and
    throws IndexSizeError before it draws, and no further tick is
    scheduled, although the animator stays running at frame 0. *)
Theorem snapshot_of_empty_canvas (reader : Reader.t) (frames : list Frame.t)
    (canvas : handed surface) (p : page surface) (setDimensions : bool)
    (now : Z) (clock : list Z) (f : Frame.t) :
  let a0 :=
    animateInCanvas canvas setDimensions now (Animator reader frames p) in
  frames !! 0 = Some f →
  Frame.disposal f = 3 →
  buildable (Reader.canvas_width reader) (Reader.canvas_height reader) f →
  page_width p = 0 ∨ page_height p = 0 →
  (∀ bitmap, canvas = CanvasOfThePage bitmap → setDimensions = false) →
  ∃ a',
    tick clock a0 = Some a'
    ∧ calls a' = [SetTimeout 0; RequestAnimationFrame; CreateElement;
                  Uncaught IndexSizeError]
    ∧ ctx a' = ctx a0
    ∧ (canvas_width a', canvas_height a') = (page_width p, page_height p)
    ∧ _running a' = true
    ∧ pending a' = 0
    ∧ _frameIndex a' = 0.
Proof.
  intros a0 Hf Hd Hb Hzero Hsame. subst a0.
  destruct canvas as [bitmap|other]; [rewrite (Hsame bitmap eq_refl)|];
    cbv beta iota zeta delta [animateInCanvas];
    match goal with |- context [tick clock (start now ?x)] =>
      destruct (tick_snapshot_throws now clock x f)
        as (a' & Htick & Hcalls & Hctx & Hcw & Hch & Hrun & Hpend & Hidx);
        [exact Hf | exact Hd | exact Hb | reflexivity | reflexivity
        | reflexivity | exact Hzero |]
    end;
    (exists a'; split; [exact Htick|]; split; [exact Hcalls|];
     split; [exact Hctx|]; split; [by rewrite Hcw, Hch|];
     split; [exact Hrun|]; split; [exact Hpend | exact Hidx]).
Qed.

End DisposalProperties.

(** * The further properties on concrete animations *)

Lemma createBufferCanvas_of_decoded_witness :
  ∃ f b,
    decodeFrame small_frame_reader 0 = Ok f
    ∧ (createBufferCanvas (Some f) 4 4 (animator_of small_frame_reader)).1 = Ok b
    ∧ image_data b = Frame.pixels f
    ∧ (buffer_width b, buffer_height b) = (2, 2).
Proof.
  eexists.
  destruct (createBufferCanvas_of_decoded small_frame_reader 0 _
              (animator_of small_frame_reader) eq_refl)
    as (_ & _ & Hok).
  destruct Hok as (b & Hb & _ & Hdata & Hsize & _);
    [vm_compute; lia | vm_compute; lia |].
  exists b. split; [reflexivity|]. split; [exact Hb|].
  split; [exact Hdata | exact Hsize].
Defined.

Lemma stop_silences_ticks_witness :
  ∃ a',
    run_ticks [[700%Z]] (stop three_frames_playing) = Some a'
    ∧ calls a' = calls three_frames_playing ++ [RequestAnimationFrame]
    ∧ timeouts a' + 1 = timeouts three_frames_playing
    ∧ _running a' = false.
Proof.
  edestruct (stop_silences_ticks [[700%Z]] three_frames_playing)
    as (Hcalls & Htm & Hrun & _); [vm_compute; reflexivity|].
  eexists. split; [vm_compute; reflexivity|].
  exact (conj Hcalls (conj Htm Hrun)).
Defined.

Lemma pending_at_most_starts_witness :
  ∃ a,
    run [Start 0; FireTimeout; Start 5; FireFrame [7%Z]]
        (animator_of three_frames_reader) = Some a
    ∧ timeouts a + frame_requests a ≤ 2.
Proof.
  eexists. split; [vm_compute; reflexivity|].
  apply (pending_at_most_starts three_frames_reader
           (decoded three_frames_reader) (blank_page 4 4)
           [Start 0; FireTimeout; Start 5; FireFrame [7%Z]]).
  vm_compute. reflexivity.
Defined.

Lemma start_past_last_frame_witness :
  _running single_frame_finished = false
  ∧ ∃ a',
      tick [300%Z] (start 250 single_frame_finished) = Some a'
      ∧ last (calls a') = Some (Uncaught TypeError)
      ∧ _running a' = true
      ∧ timeouts a' = 0.
Proof.
  split; [vm_compute; reflexivity|].
  destruct (start_past_last_frame 250 [300%Z] single_frame_finished)
    as (a' & Htick & Hcalls & Hrun & Htm & _).
  - vm_compute. lia.
  - exists a'. split; [exact Htick|]. split; [by rewrite Hcalls, last_app|].
    split; [exact Hrun|]. rewrite Htm. vm_compute. reflexivity.
Defined.

(** The tick of frame 1, due at 200, comes at 400 and reads 400, 401 and
    405 on the clock while it passes over frames 2 and 0: frame 1 is due
    next at 200 + 50 + 100 + 200 = 550, in 145 from the last reading. *)
Lemma due_time_advances_witness :
  let a' := after_render [400; 401; 405]%Z three_frames_playing in
  due three_frames_playing = 200%Z
  ∧ skipped a' - skipped three_frames_playing = 2
  ∧ _frameIndex a' = (1 + 1 + 2) mod 3
  ∧ due a' = (200 + (50 + 100 + 200))%Z
  ∧ last (calls a') = Some (SetTimeout (550 - 405)).
Proof.
  intros a'.
  destruct (due_time_advances [400; 401; 405]%Z three_frames_playing a'
              (frame_at three_frames_playing 1))
    as (Hidx & Hdue & Hlast & _).
  - vm_compute. reflexivity.
  - vm_compute. reflexivity.
  - repeat split; vm_compute; lia.
  - vm_compute. discriminate.
  - vm_compute. reflexivity.
  - vm_compute. reflexivity.
  - split; [vm_compute; reflexivity|]. split; [vm_compute; reflexivity|].
    split; [exact Hidx|]. split; [exact Hdue | exact Hlast].
Defined.

Lemma loops_at_most_loopCount_witness :
  ∃ a,
    run [Start 0; FireTimeout; FireFrame [900; 900; 900; 900; 900; 900]%Z]
        (animator_of three_frames_reader) = Some a
    ∧ _loops a ≤ 1.
Proof.
  eexists. split; [vm_compute; reflexivity|].
  apply (loops_at_most_loopCount three_frames_reader
           (decoded three_frames_reader) (blank_page 4 4)
           [Start 0; FireTimeout; FireFrame [900; 900; 900; 900; 900; 900]%Z]).
  - vm_compute. lia.
  - vm_compute. reflexivity.
Defined.

(** One frame of delay 100 that loops for ever: a frame rendered at 950
    passes over nine frames and returns; then the animator is reset,
    stopped and started again at 960, and two timers expire.  The frame
    then requested is rendered on every clock that stays up to 1000 and
    has readings enough. *)
Lemma endless_animation_is_safe_witness :
  ∃ a,
    run [Start 0; FireTimeout; FireFrame [950; 950; 950; 950; 950; 950;
                                          950; 950; 950; 950; 950]%Z;
         Reset; Stop; Start 960; FireTimeout; FireTimeout]
        (animator_of endless_frame_reader) = Some a
    ∧ Forall no_exception (calls a)
    ∧ _running a = true
    ∧ ∃ n, ∀ clock,
        n ≤ length clock → Forall (λ u, (u ≤ 1000)%Z) clock →
        ∃ a', fire_frame clock a = Some a'.
Proof.
  eexists. split; [vm_compute; reflexivity|].
  edestruct (endless_animation_is_safe endless_frame_reader
               (decoded endless_frame_reader) (blank_page 4 4)
               [Start 0; FireTimeout;
                FireFrame [950; 950; 950; 950; 950; 950;
                           950; 950; 950; 950; 950]%Z;
                Reset; Stop; Start 960; FireTimeout; FireTimeout])
    as ((Hcalls & _ & Hrun) & Hreturns).
  - vm_compute. lia.
  - vm_compute. reflexivity.
  - repeat constructor; vm_compute; lia.
  - repeat constructor; vm_compute; lia.
  - vm_compute. lia.
  - vm_compute. lia.
  - vm_compute. reflexivity.
  - split; [exact Hcalls|]. split; [exact Hrun|].
    apply (Hreturns ltac:(constructor; vm_compute; lia)
                    ltac:(vm_compute; lia) 1000%Z).
Defined.

Lemma frames_drawn_in_order_witness :
  ∃ a,
    run_ticks [[0%Z]; [200%Z]; [250%Z]; [350%Z]]
              (start 0 (animator_of three_frames_reader)) = Some a
    ∧ (λ d, (d.1.1.1, d.1.1.2, d.1.2)) <$> drawings a
      = [(0, 0, 0); (1, 1, 1); (2, 0, 0); (3, 0, 0)].
Proof.
  eexists. split; [vm_compute; reflexivity|].
  rewrite (frames_drawn_in_order three_frames_reader
             (decoded three_frames_reader) (blank_page 4 4) 0
             [[0%Z]; [200%Z]; [250%Z]; [350%Z]] _).
  - vm_compute. reflexivity.
  - vm_compute. lia.
  - repeat constructor; vm_compute; lia.
  - vm_compute. lia.
  - vm_compute. lia.
  - vm_compute. reflexivity.
  - vm_compute. reflexivity.
Defined.

(** The canvas of the page has no extent and holds no image; it is
    handed over itself and takes the size of the image. *)
Lemma animateInCanvas_plays_decoded_witness :
  let a0 :=
    animateInCanvas (CanvasOfThePage []) true 0
      (Animator three_frames_reader (decoded three_frames_reader)
                (blank_page 0 0)) in
  (canvas_width a0, canvas_height a0) = (4, 4)
  ∧ ∃ (clocks : list (list Z)) a,
      length clocks = 6
      ∧ run_ticks clocks a0 = Some a
      ∧ draws a = 6.
Proof.
  destruct (animateInCanvas_plays_decoded (surface := list layer)
              (imagedata := list layer) three_frames_reader
              (CanvasOfThePage []) (blank_page 0 0) 0 6)
    as (_ & Hsize & clocks & a & Hlen & Hrun & _ & Hdraws & _).
  - vm_compute. lia.
  - vm_compute. lia.
  - vm_compute. lia.
  - repeat constructor; vm_compute; lia.
  - discriminate.
  - right. vm_compute. lia.
  - split; [exact Hsize|]. exists clocks, a. by repeat split.
Defined.

(** The animation is at frame 1 when it is reset; the tick at time 200
    draws frame 0 and frame 1 becomes due at 200 + 200 = 400. *)
Lemma reset_rewinds_witness :
  let a' := after_render [200%Z] (reset three_frames_playing) in
  _frameIndex three_frames_playing = 1
  ∧ drawings a'
    = drawings three_frames_playing
      ++ [frame_drawing 4 4 1 (frame_at three_frames_playing 0)]
  ∧ _frameIndex a' = (1 + 0) mod 3
  ∧ due a' = (200 + 200)%Z.
Proof.
  intros a'.
  destruct (reset_rewinds [200%Z] three_frames_playing a'
              (frame_at three_frames_playing 0))
    as (Hdraw & Hnext).
  - vm_compute. reflexivity.
  - vm_compute. reflexivity.
  - repeat split; vm_compute; lia.
  - vm_compute. discriminate.
  - vm_compute. reflexivity.
  - split; [vm_compute; reflexivity|]. split; [exact Hdraw|].
    apply Hnext. vm_compute. reflexivity.
Defined.

Lemma getCanvasElement_outcome_witness :
  getCanvasElement small_document (SelectorString "#stage")
  = inl {| tagName := "CANVAS"; nodeId := 1 |}
  ∧ getCanvasElement small_document (SelectorString "img")
    = inr UnexpectedSelectorType
  ∧ getCanvasElement small_document (SelectorString "#nothing")
    = inr SelectionTypeError.
Proof.
  split; [|split].
  - apply (getCanvasElement_outcome small_document (SelectorString "#stage")).
    split; [reflexivity|]. right. exists "#stage". by split.
  - apply (getCanvasElement_outcome small_document (SelectorString "img")).
    right. exists {| tagName := "IMG"; nodeId := 2 |}. split; [discriminate|].
    right. exists "img". by split.
  - apply (getCanvasElement_outcome small_document (SelectorString "#nothing")).
    right. exists "#nothing". by split.
Defined.

(** Frame 1 asks for the background, frame 0 is rendered after it: the
    canvas is cleared between the two draws. *)
Lemma disposal_before_next_draw_witness :
  let a := animator_of restore_then_clear_reader in
  let f0 := frame_at a 0 in
  let f1 := frame_at a 1 in
  Frame.disposal f1 = 2
  ∧ ∃ a',
      render [1; 0] a = Done a'
      ∧ ctx a'
        = drawImage (built_buffer 1 f0 4 4) 0 0
            (clearRect 0 0 4 4 (drawImage (built_buffer 0 f1 4 4) 1 1 []))
      ∧ draws a' = 2.
Proof.
  intros a f0 f1. split; [vm_compute; reflexivity|].
  destruct (disposal_before_next_draw 1 0 a f1 f0)
    as (a' & Hrender & Hctx & _ & Hdraws & _).
  - vm_compute. reflexivity.
  - vm_compute. reflexivity.
  - repeat split; vm_compute; lia.
  - repeat split; vm_compute; lia.
  - vm_compute. lia.
  - vm_compute. lia.
  - exists a'. split; [exact Hrender|]. split; [exact Hctx | exact Hdraws].
Defined.

(** The canvas of the page has width 0; another canvas is handed over
    and given the size of the image, and the first frame restores to
    previous. *)
Lemma snapshot_of_empty_canvas_witness :
  ∃ a',
    tick [0%Z]
      (animateInCanvas (AnotherCanvas (blank_page 4 4)) true 0
         (Animator restore_previous_reader (decoded restore_previous_reader)
                   (blank_page 0 4)))
    = Some a'
    ∧ last (calls a') = Some (Uncaught IndexSizeError)
    ∧ draws a' = 0
    ∧ _running a' = true.
Proof.
  destruct (snapshot_of_empty_canvas (surface := list layer)
              (imagedata := list layer) restore_previous_reader
              (decoded restore_previous_reader)
              (AnotherCanvas (blank_page 4 4)) (blank_page 0 4) true 0 [0%Z]
              (frame_at (animator_of restore_previous_reader) 0))
    as (a' & Htick & Hcalls & _ & _ & Hrun & _).
  - vm_compute. reflexivity.
  - vm_compute. reflexivity.
  - repeat split; vm_compute; lia.
  - left. vm_compute. reflexivity.
  - discriminate.
  - exists a'. split; [exact Htick|]. unfold draws. rewrite Hcalls.
    split; [reflexivity|]. split; [reflexivity | exact Hrun].
Defined.

(** One frame of delay 0 that loops for ever, started at time 0: the
    frame requested is rendered at time 1 and the loop uses up all the
    readings of the clock it is given. *)
Lemma late_tick_without_delays_never_returns_witness :
  due zero_delay_requested = 0%Z
  ∧ _nextFrameRender [1; 2; 3; 4; 5]%Z zero_delay_requested = Starved.
Proof.
  split; [vm_compute; reflexivity|].
  apply (late_tick_without_delays_never_returns [1; 2; 3; 4; 5]%Z
           zero_delay_requested (frame_at zero_delay_requested 0)).
  - vm_compute. reflexivity.
  - vm_compute. reflexivity.
  - vm_compute. reflexivity.
  - repeat split; vm_compute; lia.
  - vm_compute. split; lia.
  - vm_compute. discriminate.
  - repeat constructor.
  - repeat constructor.
Defined.
